(** * Hyakunin-isshu rating calculator: a shallow embedding of [main.py]

    The class [HyakuninisshuRating] keeps three mutable attributes
    ([player_ratings], [player_stats], [match_history]) and three
    configuration values.  Every method is embedded as a function that takes
    the object and returns the object it leaves behind.

    Numbers.  Ratings, scores, the K factor and the card weight are Python
    numbers on which the code only uses [+], [-], [*], [/], [**], [min] and
    [max].  They are embedded as real numbers: [10 ** x] is [Rpower 10 x],
    [/] is real division.  Rounding and range limits of binary64 are outside
    this model.  Card counts and win/loss counters are Python [int]s and are
    embedded as [Z].

    The module [Binary64] embeds the same arithmetic a second time, in
    binary64 as Python computes it, for the inputs at which the power
    [10 ** x] is known without the C library; it shows where the real
    numbers and binary64 agree and where they part.

    Strings are UTF-8 byte strings, so that the literals below are the bytes
    of the literals of the source, equality is equality of Python strings, and
    the byte-wise lexicographic order is the code point order that [sorted]
    uses. *)

From Stdlib Require Import Reals Lra ZArith Lia List String Ascii Bool Sorted
  Permutation.
From Stdlib Require Floats Uint63.
Import ListNotations.

Local Open Scope string_scope.
Local Open Scope Z_scope.
Local Open Scope R_scope.

(** ** Python dictionaries

    A [dict] keeps its keys in insertion order; assigning to a key that is
    already present replaces the value where it stands. *)

Module Dict.

Section WithValue.

Context {V : Type}.

Definition t : Type := list (string * V).

Definition empty : t := [].

Fixpoint get (k : string) (d : t) : option V :=
  match d with
  | [] => None
  | (k', v) :: d' => if String.eqb k k' then Some v else get k d'
  end.

Definition mem (k : string) (d : t) : bool :=
  match get k d with Some _ => true | None => false end.

Fixpoint set (k : string) (v : V) (d : t) : t :=
  match d with
  | [] => [(k, v)]
  | (k', v') :: d' =>
      if String.eqb k k' then (k', v) :: d' else (k', v') :: set k v d'
  end.

Definition keys (d : t) : list string := map fst d.


End WithValue.

Arguments t : clear implicits.


End Dict.

(** ** The object *)

(** [self.player_stats[player]] is a dictionary with the two keys ['wins']
    and ['losses']. *)
Record stats : Type := mkStats {
  wins : Z;
  losses : Z
}.

(** One dictionary appended to [self.match_history] by [update_ratings]. *)
Record history_entry : Type := mkHistory {
  h_player_a : string;
  h_player_b : string;
  h_result_a : string;
  h_cards_a : Z;
  h_cards_b : Z;
  h_actual_score_a : R;
  h_expected_score_a : R;
  h_rating_a_before : R;
  h_rating_b_before : R;
  h_rating_a_after : R;
  h_rating_b_after : R;
  h_rating_change_a : R;
  h_rating_change_b : R
}.

Record HyakuninisshuRating : Type := mkSelf {
  initial_rating : R;
  k_factor : R;
  card_weight : R;
  player_ratings : Dict.t R;
  player_stats : Dict.t stats;
  match_history : list history_entry
}.

(** [__init__]: the three dictionaries start empty. *)
Definition init (initial_rating k_factor card_weight : R) : HyakuninisshuRating :=
  mkSelf initial_rating k_factor card_weight Dict.empty Dict.empty [].

(** The defaults of [__init__]: 1500, 32 and 0.3. *)
Definition default_system : HyakuninisshuRating := init 1500 32 (3 / 10).

Definition set_player_ratings (self : HyakuninisshuRating) (d : Dict.t R)
  : HyakuninisshuRating :=
  mkSelf (initial_rating self) (k_factor self) (card_weight self)
         d (player_stats self) (match_history self).

Definition set_player_stats (self : HyakuninisshuRating) (d : Dict.t stats)
  : HyakuninisshuRating :=
  mkSelf (initial_rating self) (k_factor self) (card_weight self)
         (player_ratings self) d (match_history self).

Definition append_history (self : HyakuninisshuRating) (h : history_entry)
  : HyakuninisshuRating :=
  mkSelf (initial_rating self) (k_factor self) (card_weight self)
         (player_ratings self) (player_stats self) (match_history self ++ [h]).

(** ** [calculate_expected_score] *)

Definition calculate_expected_score (rating_a rating_b : R) : R :=
  1 / (1 + Rpower 10 ((rating_b - rating_a) / 400)).

(** ** [calculate_performance_score] *)

Definition calculate_performance_score (self : HyakuninisshuRating)
    (result : string) (cards_won cards_lost : Z) : R :=
  let base_score :=
    if (result =? "勝利")%string || (result =? "勝")%string
       || (result =? "〇")%string then 1
    else if (result =? "敗北")%string || (result =? "負")%string
            || (result =? "✕")%string then 0
    else 1 / 2 in
  let total_cards := (cards_won + cards_lost)%Z in
  let card_ratio :=
    if (0 <? total_cards)%Z then IZR cards_won / IZR total_cards
    else 1 / 2 in
  if (cards_won =? cards_lost)%Z then base_score
  else
    let final_score :=
      (1 - card_weight self) * base_score + card_weight self * card_ratio in
    Rmax 0 (Rmin 1 final_score).

(** ** [update_ratings] *)

(** The two [if player not in self.player_ratings] blocks. *)
Definition register_player (self : HyakuninisshuRating) (player : string)
  : HyakuninisshuRating :=
  if Dict.mem player (player_ratings self) then self
  else
    set_player_stats
      (set_player_ratings self
         (Dict.set player (initial_rating self) (player_ratings self)))
      (Dict.set player (mkStats 0 0) (player_stats self)).

(** [self.player_stats[player]['wins'] += 1]; the subscript raises
    [KeyError] ([None]) when the player has no entry. *)
Definition add_win (player : string) (d : Dict.t stats) : option (Dict.t stats) :=
  match Dict.get player d with
  | Some st => Some (Dict.set player (mkStats (wins st + 1) (losses st)) d)
  | None => None
  end.

(** [self.player_stats[player]['losses'] += 1]. *)
Definition add_loss (player : string) (d : Dict.t stats) : option (Dict.t stats) :=
  match Dict.get player d with
  | Some st => Some (Dict.set player (mkStats (wins st) (losses st + 1)) d)
  | None => None
  end.

(** Sequencing of steps that may raise. *)
Definition bind {A B : Type} (m : option A) (f : A -> option B) : option B :=
  match m with
  | Some a => f a
  | None => None
  end.

Notation "x <- m ;; k" := (bind m (fun x => k))
  (at level 61, m at next level, right associativity).

(** The [if]/[elif] that keeps the win/loss record. *)
Definition record_result (player_a player_b result_a : string)
    (d : Dict.t stats) : option (Dict.t stats) :=
  if (result_a =? "勝")%string || (result_a =? "勝利")%string
     || (result_a =? "〇")%string then
    d1 <- add_win player_a d ;; add_loss player_b d1
  else if (result_a =? "負")%string || (result_a =? "敗北")%string
          || (result_a =? "✕")%string then
    d1 <- add_loss player_a d ;; add_win player_b d1
  else Some d.

(** [None] is an uncaught [KeyError]; otherwise the object after the call and
    the returned pair [(new_rating_a, new_rating_b)]. *)
Definition update_ratings (self : HyakuninisshuRating)
    (player_a player_b result_a : string) (cards_a cards_b : Z)
  : option (HyakuninisshuRating * (R * R)) :=
  let self := register_player self player_a in
  let self := register_player self player_b in
  rating_a <- Dict.get player_a (player_ratings self) ;;
  rating_b <- Dict.get player_b (player_ratings self) ;;
  let expected_a := calculate_expected_score rating_a rating_b in
  let expected_b := 1 - expected_a in
  let actual_score_a :=
    calculate_performance_score self result_a cards_a cards_b in
  let actual_score_b := 1 - actual_score_a in
  let new_rating_a := rating_a + k_factor self * (actual_score_a - expected_a) in
  let new_rating_b := rating_b + k_factor self * (actual_score_b - expected_b) in
  let self :=
    set_player_ratings self
      (Dict.set player_b new_rating_b
         (Dict.set player_a new_rating_a (player_ratings self))) in
  stats' <- record_result player_a player_b result_a (player_stats self) ;;
  let self := set_player_stats self stats' in
  let self :=
    append_history self
      (mkHistory player_a player_b result_a cards_a cards_b
                 actual_score_a expected_a rating_a rating_b
                 new_rating_a new_rating_b
                 (new_rating_a - rating_a) (new_rating_b - rating_b)) in
  Some (self, (new_rating_a, new_rating_b)).

(** ** [load_previous_ratings] *)

(** One row of the sheet [レーティング].  [row['player']] goes through
    [str(...)], which accepts anything; the other three cells are given by
    what [float(...)] and [int(...)] make of them, [None] when the conversion
    raises. *)
Record checkpoint_row : Type := mkCheckpointRow {
  ck_player : string;
  ck_rating : option R;
  ck_wins : option Z;
  ck_losses : option Z
}.

(** What the method prints. *)
Inductive load_message : Type :=
| LoadingPrevious
| PreviousLoaded (players : nat)
| PreviousLoadError
| StartingFresh.

(** ** [str.strip]

    Without argument, [strip] removes the characters for which
    [str.isspace] holds from both ends.  These are U+0009..U+000D,
    U+001C..U+0020, U+0085, U+00A0, U+1680, U+2000..U+200A, U+2028, U+2029,
    U+202F, U+205F and U+3000; below, their UTF-8 encodings. *)

Definition space1 (c : ascii) : bool :=
  let n := N_of_ascii c in
  ((9 <=? n) && (n <=? 13) || (28 <=? n) && (n <=? 32))%N.

Definition space2 (c1 c2 : ascii) : bool :=
  let n1 := N_of_ascii c1 in
  let n2 := N_of_ascii c2 in
  ((n1 =? 194) && ((n2 =? 133) || (n2 =? 160)))%N.

Definition space3 (c1 c2 c3 : ascii) : bool :=
  let n1 := N_of_ascii c1 in
  let n2 := N_of_ascii c2 in
  let n3 := N_of_ascii c3 in
  ((n1 =? 225) && (n2 =? 154) && (n3 =? 128)
   || (n1 =? 226) && (n2 =? 128)
      && ((128 <=? n3) && (n3 <=? 138) || (n3 =? 168) || (n3 =? 169)
          || (n3 =? 175))
   || (n1 =? 226) && (n2 =? 129) && (n3 =? 159)
   || (n1 =? 227) && (n2 =? 128) && (n3 =? 128))%N.

(** Drops leading space characters.  With [backwards] the bytes of each
    character come last byte first, as they do in a reversed string. *)
Fixpoint drop_spaces (backwards : bool) (s : list ascii) : list ascii :=
  match s with
  | [] => []
  | c1 :: s1 =>
      if space1 c1 then drop_spaces backwards s1
      else
        match s1 with
        | [] => s
        | c2 :: s2 =>
            if (if backwards then space2 c2 c1 else space2 c1 c2)
            then drop_spaces backwards s2
            else
              match s2 with
              | [] => s
              | c3 :: s3 =>
                  if (if backwards then space3 c3 c2 c1 else space3 c1 c2 c3)
                  then drop_spaces backwards s3
                  else s
              end
        end
  end.

Definition strip (s : string) : string :=
  let l := drop_spaces false (list_ascii_of_string s) in
  string_of_list_ascii (rev (drop_spaces true (rev l))).

(** [load_previous_ratings].  [sheet] is [None] when [pd.read_excel] raises
    (no such file, no such sheet).  The loop writes into the two dictionaries
    row by row; an exception leaves the loop and is caught by the handler,
    which only prints. *)
Fixpoint load_rows (self : HyakuninisshuRating) (rows : list checkpoint_row)
  : HyakuninisshuRating * bool :=
  match rows with
  | [] => (self, true)
  | row :: rows' =>
      let player := strip (ck_player row) in
      match ck_rating row, ck_wins row, ck_losses row with
      | Some rating, Some wins, Some losses =>
          let self :=
            set_player_ratings self
              (Dict.set player rating (player_ratings self)) in
          let self :=
            set_player_stats self
              (Dict.set player (mkStats wins losses) (player_stats self)) in
          load_rows self rows'
      | _, _, _ => (self, false)
      end
  end.

Definition load_previous_ratings (self : HyakuninisshuRating)
    (sheet : option (list checkpoint_row))
  : HyakuninisshuRating * list load_message :=
  match sheet with
  | None => (self, [PreviousLoadError; StartingFresh])
  | Some ratings_df =>
      match load_rows self ratings_df with
      | (self', true) =>
          (self', [LoadingPrevious; PreviousLoaded (List.length ratings_df)])
      | (self', false) =>
          (self', [LoadingPrevious; PreviousLoadError; StartingFresh])
      end
  end.

(** ** [process_matches] *)

(** A row of the data frame as read: a cell is [None] when it is missing
    (NaN).  Cells that are present hold what the column is declared to hold:
    a number for [試合番号], text for [名前], [相手] and [結果], and a whole
    number for [獲得札数], which is what [int(...)] returns for it. *)
Record raw_row : Type := mkRawRow {
  raw_match_num : option Z;
  raw_name : option string;
  raw_opponent : option string;
  raw_result : option string;
  raw_cards : option Z
}.

(** A row after [dropna]: only [試合番号] may still be missing. *)
Record match_row : Type := mkRow {
  r_match_num : option Z;
  r_name : string;
  r_opponent : string;
  r_result : string;
  r_cards : Z
}.

(** [matches_df.dropna(subset=['名前', '相手', '結果', '獲得札数'])] *)
Definition dropna (df : list raw_row) : list match_row :=
  flat_map
    (fun r =>
       match raw_name r, raw_opponent r, raw_result r, raw_cards r with
       | Some n, Some o, Some res, Some c => [mkRow (raw_match_num r) n o res c]
       | _, _, _, _ => []
       end) df.

(** The two [.astype(str).str.strip()] assignments. *)
Definition strip_names (r : match_row) : match_row :=
  mkRow (r_match_num r) (strip (r_name r)) (strip (r_opponent r))
        (r_result r) (r_cards r).

(** [groupby('試合番号')]: one group per distinct match number, in ascending
    order of the number; a group keeps its rows in the order of the frame;
    rows without a match number belong to no group. *)
Fixpoint insert_key (k : Z) (ks : list Z) : list Z :=
  match ks with
  | [] => [k]
  | k' :: ks' =>
      if (k <? k')%Z then k :: ks
      else if (k =? k')%Z then ks
      else k' :: insert_key k ks'
  end.

Definition group_keys (df : list match_row) : list Z :=
  fold_right
    (fun r ks =>
       match r_match_num r with
       | Some n => insert_key n ks
       | None => ks
       end) [] df.

Definition in_group (n : Z) (r : match_row) : bool :=
  match r_match_num r with
  | Some m => (m =? n)%Z
  | None => false
  end.

Definition groupby (df : list match_row) : list (Z * list match_row) :=
  map (fun n => (n, filter (in_group n) df)) (group_keys df).

(** [tuple(sorted([player, opponent]))] *)
Definition sorted_pair (player opponent : string) : string * string :=
  if String.ltb opponent player then (opponent, player)
  else (player, opponent).

Definition match_pair : Type := Z * (string * string).

Definition match_pair_eqb (x y : match_pair) : bool :=
  (fst x =? fst y)%Z
  && (fst (snd x) =? fst (snd y))%string
  && (snd (snd x) =? snd (snd y))%string.

(** [processed_pairs] is a Python [set]. *)
Definition pair_in (x : match_pair) (s : list match_pair) : bool :=
  existsb (match_pair_eqb x) s.

Definition pair_add (x : match_pair) (s : list match_pair) : list match_pair :=
  if pair_in x s then s else x :: s.

Definition win_results : list string := ["勝"; "勝利"; "〇"].
Definition lose_results : list string := ["負"; "敗北"; "✕"].

(** [x in xs] on a list of strings. *)
Definition str_in (x : string) (xs : list string) : bool :=
  existsb (String.eqb x) xs.

(** What [process_matches] prints.  [RatingUpdate] stands for the line
    printed just before the call of [update_ratings]; it also records the
    match number of the group, which the printed line leaves to the header
    above it. *)
Inductive event : Type :=
| NoValidMatches
| MatchHeader (match_num : Z)
| WarnOpponentMissing (player opponent : string)
| WarnOpponentMismatch (player opponent declared : string)
| WarnContradiction (player opponent result opponent_result : string)
| RatingUpdate (match_num : Z) (player opponent : string)
               (cards opponent_cards : Z) (result : string).

(** The object, the local [processed_pairs] and the output so far. *)
Record loop_state : Type := mkLoop {
  ls_self : HyakuninisshuRating;
  processed_pairs : list match_pair;
  output : list event
}.

Definition emit (st : loop_state) (e : event) : loop_state :=
  mkLoop (ls_self st) (processed_pairs st) (output st ++ [e]).

(** The body of the inner loop, for one row of the group. *)
Definition process_row (match_num : Z) (group : list match_row)
    (st : loop_state) (player_data : match_row) : option loop_state :=
  let player := r_name player_data in
  let opponent := r_opponent player_data in
  let result := r_result player_data in
  let cards := r_cards player_data in
  let pair_id := sorted_pair player opponent in
  let match_pair_id := (match_num, pair_id) in
  if pair_in match_pair_id (processed_pairs st) then Some st
  else
    match find (fun r => (r_name r =? opponent)%string) group with
    | None => Some (emit st (WarnOpponentMissing player opponent))
    | Some opponent_data =>
        let opponent_result := r_result opponent_data in
        let opponent_cards := r_cards opponent_data in
        if negb (r_opponent opponent_data =? player)%string then
          Some (emit st (WarnOpponentMismatch player opponent
                           (r_opponent opponent_data)))
        else if str_in result win_results
                && negb (str_in opponent_result lose_results)
                || str_in result lose_results
                   && negb (str_in opponent_result win_results) then
          Some (emit st (WarnContradiction player opponent result
                           opponent_result))
        else
          updated <- update_ratings (ls_self st) player opponent result
                                    cards opponent_cards ;;
          Some (mkLoop (fst updated)
                       (pair_add match_pair_id (processed_pairs st))
                       (output st
                        ++ [RatingUpdate match_num player opponent cards
                                         opponent_cards result]))
    end.

Fixpoint process_rows (match_num : Z) (group : list match_row)
    (st : loop_state) (rows : list match_row) : option loop_state :=
  match rows with
  | [] => Some st
  | player_data :: rows' =>
      st' <- process_row match_num group st player_data ;;
      process_rows match_num group st' rows'
  end.

Fixpoint process_groups (st : loop_state) (groups : list (Z * list match_row))
  : option loop_state :=
  match groups with
  | [] => Some st
  | (match_num, group) :: groups' =>
      st' <- process_rows match_num group (emit st (MatchHeader match_num))
                          group ;;
      process_groups st' groups'
  end.

(** [None] is an uncaught exception; otherwise the object after the call and
    what was printed. *)
Definition process_matches (self : HyakuninisshuRating)
    (matches_df : list raw_row) : option (HyakuninisshuRating * list event) :=
  let matches_df := dropna matches_df in
  let matches_df := map strip_names matches_df in
  if (List.length matches_df =? 0)%nat then Some (self, [NoValidMatches])
  else
    st <- process_groups (mkLoop self [] []) (groupby matches_df) ;;
    Some (ls_self st, output st).

(** ** [get_current_ratings], [get_ratings_table] and [save_results] *)

(** [self.player_ratings.copy()] *)
Definition get_current_ratings (self : HyakuninisshuRating) : Dict.t R :=
  player_ratings self.

(** [sorted(self.player_ratings.items(), key=lambda x: x[1], reverse=True)].
    [sorted] is stable, with [reverse=True] too: items with equal ratings
    stay in the order of the dictionary.  That and the descending order
    determine the result, so inserting the items one by one, from the last
    to the first, each in front of the first item whose rating is not
    greater, gives the list that [sorted] returns. *)
Fixpoint insert_by_rating (x : string * R) (l : list (string * R))
  : list (string * R) :=
  match l with
  | [] => [x]
  | y :: l' =>
      if Rle_dec (snd y) (snd x) then x :: l else y :: insert_by_rating x l'
  end.

Definition sorted_by_rating (items : list (string * R)) : list (string * R) :=
  fold_right insert_by_rating [] items.

(** A row of the ratings table. *)
Record table_row : Type := mkTableRow {
  t_player : string;
  t_rating : R;
  t_wins : Z;
  t_losses : Z
}.

(** The list comprehension; [self.player_stats[player]] raises [KeyError]
    ([None]) for a player without a record. *)
Fixpoint ratings_list (player_stats : Dict.t stats)
    (items : list (string * R)) : option (list table_row) :=
  match items with
  | [] => Some []
  | (player, rating) :: items' =>
      st <- Dict.get player player_stats ;;
      rest <- ratings_list player_stats items' ;;
      Some (mkTableRow player rating (wins st) (losses st) :: rest)
  end.

Definition get_ratings_table (self : HyakuninisshuRating)
  : option (list table_row) :=
  ratings_list (player_stats self) (sorted_by_rating (player_ratings self)).

(** The sheet [レーティング] that [save_results] writes from the ratings table,
    as [load_previous_ratings] gets it back: one row per table row, with the
    columns [player], [rating], [wins] and [losses], each cell converting to
    the value that was written. *)
Definition saved_ratings_sheet (table : list table_row) : list checkpoint_row :=
  map (fun r => mkCheckpointRow (t_player r) (Some (t_rating r))
                                (Some (t_wins r)) (Some (t_losses r)))
      table.

(** ** The name column printed by [main] *)

(** [sum(2 if ord(c) > 127 else 1 for c in player_name)].  In the UTF-8
    bytes of the name, a character below 128 is one byte below 128; any
    other character is one lead byte (192 and above) followed by
    continuation bytes (128 to 191), so it counts 2 at its lead byte and
    nothing at the others. *)
Definition byte_width (c : ascii) : Z :=
  let n := N_of_ascii c in
  if (n <? 128)%N then 1%Z else if (n <? 192)%N then 0%Z else 2%Z.

Definition display_width (player_name : string) : Z :=
  fold_right Z.add 0%Z (map byte_width (list_ascii_of_string player_name)).

(** [' ' * padding]: nothing when [padding] is not positive. *)
Definition spaces (padding : Z) : string :=
  string_of_list_ascii (repeat " "%char (Z.to_nat padding)).

(** [formatted_name = ' ' * padding + player_name] with
    [padding = 10 - display_width]. *)
Definition formatted_name (player_name : string) : string :=
  let padding := (10 - display_width player_name)%Z in
  (spaces padding ++ player_name)%string.

(** ** [create_sample_data] *)

Definition players : list string :=
  ["田中太郎"; "佐藤花子"; "鈴木一郎"; "高橋美咲"; "伊藤健太";
   "渡辺由美"; "山本達也"; "中村さくら"; "小林真一"; "加藤愛美";
   "吉田隆司"; "山田純子"; "佐々木修"; "松本麻衣"; "井上康夫";
   "木村優子"; "林大輔"; "清水奈々"; "森田浩二"; "池田美穂"].

(** What the random number generator hands out while one match is made up:
    the pair of [random.sample(players, 2)], the outcomes of the tests
    [random.random() < 0.1], [< 0.5] and [< 0.8], and the results of
    [random.randint(11, 17)], [random.randint(10, 16)] and the [randint] for
    the winner's cards of a match that ended early.  A match uses only the
    draws on the path it takes. *)
Record match_draw : Type := mkDraw {
  draw_pair : string * string;
  draw_tie : bool;
  draw_first_wins : bool;
  draw_normal : bool;
  draw_winner_cards : Z;
  draw_total_taken : Z;
  draw_early_winner_cards : Z
}.

(** The draws are ones that the generator can hand out. *)
Definition valid_draw (d : match_draw) : Prop :=
  In (fst (draw_pair d)) players /\ In (snd (draw_pair d)) players
  /\ fst (draw_pair d) <> snd (draw_pair d)
  /\ (11 <= draw_winner_cards d <= 17)%Z
  /\ (10 <= draw_total_taken d <= 16)%Z
  /\ (Z.max 6 ((draw_total_taken d + 1) / 2) <= draw_early_winner_cards d
      <= Z.min 17 (draw_total_taken d - 1))%Z.

(** [(cards_a, cards_b, result_a, result_b)] of one match. *)
Definition sample_outcome (match_num : Z) (d : match_draw)
  : Z * Z * string * string :=
  if (match_num =? 3)%Z then
    if draw_first_wins d then (8%Z, 8%Z, "勝", "負")
    else (8%Z, 8%Z, "負", "勝")
  else if draw_tie d then
    if draw_first_wins d then (10%Z, 10%Z, "勝", "負")
    else (10%Z, 10%Z, "負", "勝")
  else
    let '(winner_cards, loser_cards) :=
      if draw_normal d then
        (draw_winner_cards d, (17 - draw_winner_cards d)%Z)
      else
        (draw_early_winner_cards d,
         (draw_total_taken d - draw_early_winner_cards d)%Z) in
    if draw_first_wins d then (winner_cards, loser_cards, "勝", "負")
    else (loser_cards, winner_cards, "負", "勝").

(** The two records appended for one played match. *)
Definition sample_rows (match_num : Z) (d : match_draw) : list raw_row :=
  let player_a := fst (draw_pair d) in
  let player_b := snd (draw_pair d) in
  let '(cards_a, cards_b, result_a, result_b) := sample_outcome match_num d in
  [mkRawRow (Some match_num) (Some player_a) (Some player_b) (Some result_a)
            (Some cards_a);
   mkRawRow (Some match_num) (Some player_b) (Some player_a) (Some result_b)
            (Some cards_b)].

(** The two blank records of a match that was not played. *)
Definition blank_rows (match_num : Z) : list raw_row :=
  [mkRawRow (Some match_num) None None None None;
   mkRawRow (Some match_num) None None None None].

(** [actual_matches = 7]; [range(1, 8)] and [range(8, 11)]. *)
Definition played_matches : list Z := [1; 2; 3; 4; 5; 6; 7]%Z.
Definition unplayed_matches : list Z := [8; 9; 10]%Z.

(** [draws n] are the draws for match [n]. *)
Definition create_sample_data (draws : Z -> match_draw) : list raw_row :=
  (flat_map (fun n => sample_rows n (draws n)) played_matches
   ++ flat_map blank_rows unplayed_matches)%list.

(** ** The arithmetic in binary64 *)

Module Binary64.

Import PrimFloat.
Local Open Scope float_scope.

(** What a call comes to: a value, the [OverflowError] that [10 ** x] raises,
    or a value that depends on the C library's [pow] and is not modelled. *)
Inductive outcome (A : Type) : Type :=
| Returns (v : A)
| OverflowError
| Unmodelled.

Arguments Returns {A} v.
Arguments OverflowError {A}.
Arguments Unmodelled {A}.

(** The binary64 number of a Python [int] (exact for the card counts and
    whole exponents used here). *)
Definition of_int (z : Z) : float :=
  if (z <? 0)%Z then - of_uint63 (Uint63.of_Z (- z))
  else of_uint63 (Uint63.of_Z z).

Fixpoint power_of_ten (n : nat) : float :=
  match n with
  | O => 1
  | S n' => 10 * power_of_ten n'
  end.

(** The whole exponents [0 .. 22]: up to there the powers of ten are
    binary64 numbers and each product in [power_of_ten] is exact. *)
Definition exact_exponents : list Z := map Z.of_nat (seq 0 23).

(** [10 ** x].  For a whole exponent [n] with [0 <= n <= 22] the result is
    the number 10^n itself; for [-22 <= n < 0] it is the quotient of 1 by
    10^|n|, which is the binary64 number nearest to 10^n, the value that a
    correctly rounding [pow] returns.  From 309 on, 10^x
    lies beyond the largest binary64 number and Python raises
    [OverflowError] (an infinite exponent gives infinity and no error).  At
    every other exponent the value is the one the C library's [pow]
    returns. *)
Definition pow10 (x : float) : outcome float :=
  match find (fun n => x =? of_int n) exact_exponents with
  | Some n => Returns (power_of_ten (Z.to_nat n))
  | None =>
      match find (fun n => x =? - of_int n) exact_exponents with
      | Some n => Returns (1 / power_of_ten (Z.to_nat n))
      | None =>
          if (309 <=? x) && (x <? infinity) then OverflowError
          else Unmodelled
      end
  end.

(** [1 / (1 + 10 ** ((rating_b - rating_a) / 400))] *)
Definition calculate_expected_score (rating_a rating_b : float)
  : outcome float :=
  match pow10 ((rating_b - rating_a) / 400) with
  | Returns p => Returns (1 / (1 + p))
  | OverflowError => OverflowError
  | Unmodelled => Unmodelled
  end.

(** [calculate_performance_score]; [min(1.0, x)] is [x] when [x < 1.0] and
    [1.0] otherwise, [max(0.0, y)] is [y] when [y > 0.0] and [0.0]
    otherwise. *)
Definition calculate_performance_score (card_weight : float)
    (result : string) (cards_won cards_lost : Z) : float :=
  let base_score :=
    if (result =? "勝利")%string || (result =? "勝")%string
       || (result =? "〇")%string then 1
    else if (result =? "敗北")%string || (result =? "負")%string
            || (result =? "✕")%string then 0
    else 0.5 in
  let total_cards := (cards_won + cards_lost)%Z in
  let card_ratio :=
    if (0 <? total_cards)%Z then of_int cards_won / of_int total_cards
    else 0.5 in
  if (cards_won =? cards_lost)%Z then base_score
  else
    let final_score :=
      (1 - card_weight) * base_score + card_weight * card_ratio in
    let capped := if final_score <? 1 then final_score else 1 in
    if 0 <? capped then capped else 0.

(** The numbers of one call of [update_ratings], from the two current
    ratings: [(new_rating_a, new_rating_b)] and the two entries
    [rating_change_a] and [rating_change_b] of the history record. *)
Definition rating_update (k_factor card_weight rating_a rating_b : float)
    (result_a : string) (cards_a cards_b : Z)
  : outcome ((float * float) * (float * float)) :=
  match calculate_expected_score rating_a rating_b with
  | Returns expected_a =>
      let expected_b := 1 - expected_a in
      let actual_score_a :=
        calculate_performance_score card_weight result_a cards_a cards_b in
      let actual_score_b := 1 - actual_score_a in
      let new_rating_a := rating_a + k_factor * (actual_score_a - expected_a) in
      let new_rating_b := rating_b + k_factor * (actual_score_b - expected_b) in
      Returns ((new_rating_a, new_rating_b),
               (new_rating_a - rating_a, new_rating_b - rating_b))
  | OverflowError => OverflowError
  | Unmodelled => Unmodelled
  end.

(** The default card weight, the binary64 number that [0.3] denotes. *)
Definition default_card_weight : float := 0x1.3333333333333p-2.

End Binary64.

(** ** Notions used to state the properties *)

(** The rating a player enters the next update with: the stored one, or the
    initial rating for a player who is not in the store yet. *)
Definition rating_of (self : HyakuninisshuRating) (player : string) : R :=
  match Dict.get player (player_ratings self) with
  | Some r => r
  | None => initial_rating self
  end.

(** The record of a player; a player who is not in the store has none. *)
Definition stats_of (self : HyakuninisshuRating) (player : string) : stats :=
  match Dict.get player (player_stats self) with
  | Some st => st
  | None => mkStats 0 0
  end.


(** Every method writes [player_ratings] and [player_stats] together, so the
    two dictionaries have the same players. *)
Definition well_formed (self : HyakuninisshuRating) : Prop :=
  forall player,
    Dict.mem player (player_stats self)
    = Dict.mem player (player_ratings self).

Definition is_win (result : string) : bool := str_in result win_results.
Definition is_loss (result : string) : bool := str_in result lose_results.

(** The two results of a pair are complementary: one is a win token and the
    other a loss token. *)
Definition complementary (result opponent_result : string) : bool :=
  is_win result && is_loss opponent_result
  || is_loss result && is_win opponent_result.

(** The keys of the updates that a run has applied, in order. *)
Fixpoint applied_pairs (out : list event) : list match_pair :=
  match out with
  | [] => []
  | RatingUpdate n player opponent _ _ _ :: out' =>
      (n, sorted_pair player opponent) :: applied_pairs out'
  | _ :: out' => applied_pairs out'
  end.

(** The score that the result alone stands for. *)
Definition base_score_of (result : string) : R :=
  if is_win result then 1 else if is_loss result then 0 else 1 / 2.

(** [max(0.0, min(1.0, x))] *)
Definition clamp01 (x : R) : R := Rmax 0 (Rmin 1 x).

(** The ratings that [update_ratings] computes, as the source writes them. *)
Definition new_rating_a (self : HyakuninisshuRating)
    (player_a player_b result_a : string) (cards_a cards_b : Z) : R :=
  rating_of self player_a
  + k_factor self
    * (calculate_performance_score self result_a cards_a cards_b
       - calculate_expected_score (rating_of self player_a)
                                  (rating_of self player_b)).

(** B's side is written with [1 - actual_score_a] and [1 - expected_a]. *)
Definition new_rating_b (self : HyakuninisshuRating)
    (player_a player_b result_a : string) (cards_a cards_b : Z) : R :=
  rating_of self player_b
  + k_factor self
    * ((1 - calculate_performance_score self result_a cards_a cards_b)
       - (1 - calculate_expected_score (rating_of self player_a)
                                       (rating_of self player_b))).

(** The consistency check of [process_matches] on the two results. *)
Definition contradictory_results (result opponent_result : string) : bool :=
  str_in result win_results && negb (str_in opponent_result lose_results)
  || str_in result lose_results && negb (str_in opponent_result win_results).

(** A row is rejected in its group when the opponent has no row there, when
    the opponent's row names somebody else, or when the two results fail the
    consistency check. *)
Definition rejected (group : list match_row) (player_data : match_row) : bool :=
  match find (fun r => (r_name r =? r_opponent player_data)%string) group with
  | None => true
  | Some opponent_data =>
      negb (r_opponent opponent_data =? r_name player_data)%string
      || contradictory_results (r_result player_data)
                               (r_result opponent_data)
  end.

(** [match_pair_id] of a row in the group of [match_num]. *)
Definition pair_key (match_num : Z) (player_data : match_row) : match_pair :=
  (match_num, sorted_pair (r_name player_data) (r_opponent player_data)).

(** The frame that the loops of [process_matches] run over. *)
Definition cleaned (matches_df : list raw_row) : list match_row :=
  map strip_names (dropna matches_df).


(** The three lines that start with [警告]. *)
Definition is_warning (e : event) : bool :=
  match e with
  | WarnOpponentMissing _ _ | WarnOpponentMismatch _ _ _
  | WarnContradiction _ _ _ _ => true
  | _ => false
  end.

(** What holds of the loop state between two rows: the object is well
    formed, [processed_pairs] holds exactly the keys of the updates applied
    so far, no key was applied twice, and the history has one entry for each
    applied update. *)
Definition loop_invariant (history0 : nat) (st : loop_state) : Prop :=
  well_formed (ls_self st)
  /\ (forall x, pair_in x (processed_pairs st) = true
                <-> In x (applied_pairs (output st)))
  /\ NoDup (applied_pairs (output st))
  /\ List.length (match_history (ls_self st))
     = (history0 + List.length (applied_pairs (output st)))%nat.

(** An update applied by the time of [st] is still on record at [st']. *)
Definition applied_before (st st' : loop_state) : Prop :=
  forall x, In x (applied_pairs (output st)) ->
            In x (applied_pairs (output st')).

(** The three conversions of a checkpoint row go through. *)
Definition row_converts (row : checkpoint_row) : bool :=
  match ck_rating row, ck_wins row, ck_losses row with
  | Some _, Some _, Some _ => true
  | _, _, _ => false
  end.

(** The byte list starts with a space character ([backwards]: with the
    reversed bytes of one). *)
Definition starts_with_space (backwards : bool) (s : list ascii) : bool :=
  match s with
  | [] => false
  | c1 :: s1 =>
      space1 c1
      || match s1 with
         | [] => false
         | c2 :: s2 =>
             (if backwards then space2 c2 c1 else space2 c1 c2)
             || match s2 with
                | [] => false
                | c3 :: _ =>
                    if backwards then space3 c3 c2 c1 else space3 c1 c2 c3
                end
         end
  end.

(** The name under which a checkpoint row is filed. *)
Definition ck_name (row : checkpoint_row) : string := strip (ck_player row).

(** Descending order of rating, for the items of the dictionary and for the
    rows of the table. *)
Definition rating_desc (x y : string * R) : Prop := snd y <= snd x.

Definition table_desc (r1 r2 : table_row) : Prop := t_rating r2 <= t_rating r1.

Definition table_item (r : table_row) : string * R := (t_player r, t_rating r).

Definition has_rating (v : R) (x : string * R) : bool :=
  if Req_dec_T (snd x) v then true else false.

(** Every player of the store is filed under a trimmed name, as
    [process_matches] and [load_previous_ratings] file them. *)
Definition names_stripped (self : HyakuninisshuRating) : Prop :=
  Forall (fun player => strip player = player)
         (Dict.keys (player_ratings self)).

(** No key occurs twice in the list that stands for [player_ratings]. *)
Definition keys_distinct (self : HyakuninisshuRating) : Prop :=
  NoDup (Dict.keys (player_ratings self)).

Definition table_stats (r : table_row) : string * stats :=
  (t_player r, mkStats (t_wins r) (t_losses r)).

(** Both names of a row are trimmed, as they are in the cleaned frame. *)
Definition row_stripped (row : match_row) : Prop :=
  strip (r_name row) = r_name row /\ strip (r_opponent row) = r_opponent row.

(** A line that is not the line of an update. *)
Definition is_notice (e : event) : bool :=
  match e with
  | RatingUpdate _ _ _ _ _ _ => false
  | _ => true
  end.

(** What a run may not touch: [later] has the configuration of [earlier],
    its history starts with the history of [earlier], it has every player of
    [earlier], and it files players under distinct, trimmed names if
    [earlier] does. *)
Definition store_extends (earlier later : HyakuninisshuRating) : Prop :=
  initial_rating later = initial_rating earlier
  /\ k_factor later = k_factor earlier
  /\ card_weight later = card_weight earlier
  /\ (exists added,
        match_history later = (match_history earlier ++ added)%list)
  /\ (forall player,
        Dict.mem player (player_ratings earlier) = true ->
        Dict.mem player (player_ratings later) = true)
  /\ (keys_distinct earlier -> keys_distinct later)
  /\ (names_stripped earlier -> names_stripped later).

(** The sum of one counter over all records. *)
Definition stat_sum (f : stats -> Z) (d : Dict.t stats) : Z :=
  fold_right Z.add 0%Z (map (fun x => f (snd x)) d).

Definition total_wins (self : HyakuninisshuRating) : Z :=
  stat_sum wins (player_stats self).

Definition total_losses (self : HyakuninisshuRating) : Z :=
  stat_sum losses (player_stats self).

(** The number of updates in the output whose result is a win or loss
    token. *)
Fixpoint decided_updates (out : list event) : Z :=
  match out with
  | [] => 0
  | RatingUpdate _ _ _ _ _ result :: out' =>
      ((if is_win result || is_loss result then 1 else 0)
       + decided_updates out')%Z
  | _ :: out' => decided_updates out'
  end.

(** The arguments of a call of [update_ratings]: the two players, the
    result of the first, and the two card counts. *)
Definition update_call : Type := string * string * string * Z * Z.

(** The call that a history entry records. *)
Definition entry_call (h : history_entry) : update_call :=
  (h_player_a h, h_player_b h, h_result_a h, h_cards_a h, h_cards_b h).

(** The calls behind the update lines of the output, in order. *)
Fixpoint update_calls (out : list event) : list update_call :=
  match out with
  | [] => []
  | RatingUpdate _ player opponent cards opponent_cards result :: out' =>
      (player, opponent, result, cards, opponent_cards) :: update_calls out'
  | _ :: out' => update_calls out'
  end.

(** The numbers of a history entry fit together: each change is the rating
    after minus the rating before, and the two scores lie between 0 and
    1. *)
Definition entry_consistent (h : history_entry) : Prop :=
  h_rating_change_a h = h_rating_a_after h - h_rating_a_before h
  /\ h_rating_change_b h = h_rating_b_after h - h_rating_b_before h
  /\ 0 <= h_actual_score_a h <= 1
  /\ 0 <= h_expected_score_a h <= 1.

(** A row with all four cells that [dropna] looks at. *)
Definition is_complete (r : raw_row) : bool :=
  match raw_name r, raw_opponent r, raw_result r, raw_cards r with
  | Some _, Some _, Some _, Some _ => true
  | _, _, _, _ => false
  end.

(** The row with its two names trimmed beforehand. *)
Definition trim_names (r : raw_row) : raw_row :=
  mkRawRow (raw_match_num r) (option_map strip (raw_name r))
           (option_map strip (raw_opponent r)) (raw_result r) (raw_cards r).

(** The two rows of a match between [a] and [b], one per participant. *)
Definition mirror_group (n : Z) (a b result_a result_b : string)
    (cards_a cards_b : Z) : list match_row :=
  [mkRow (Some n) a b result_a cards_a; mkRow (Some n) b a result_b cards_b].

(** The group of match [n] in the sample data, and the two lines that the
    run prints for it. *)
Definition sample_group (draws : Z -> match_draw) (n : Z)
  : Z * list match_row :=
  let o := sample_outcome n (draws n) in
  (n, mirror_group n (fst (draw_pair (draws n))) (snd (draw_pair (draws n)))
        (snd (fst o)) (snd o) (fst (fst (fst o))) (snd (fst (fst o)))).

Definition sample_lines (draws : Z -> match_draw) (n : Z) : list event :=
  let o := sample_outcome n (draws n) in
  [MatchHeader n;
   RatingUpdate n (fst (draw_pair (draws n))) (snd (draw_pair (draws n)))
                (fst (fst (fst o))) (snd (fst (fst o))) (snd (fst o))].

(** The warning that a rejected row prints when its pair has not been
    processed. *)
Definition warning_of (group : list match_row) (player_data : match_row)
  : option event :=
  match find (fun r => (r_name r =? r_opponent player_data)%string) group with
  | None =>
      Some (WarnOpponentMissing (r_name player_data)
              (r_opponent player_data))
  | Some opponent_data =>
      if negb (r_opponent opponent_data =? r_name player_data)%string then
        Some (WarnOpponentMismatch (r_name player_data)
                (r_opponent player_data) (r_opponent opponent_data))
      else if contradictory_results (r_result player_data)
                (r_result opponent_data) then
        Some (WarnContradiction (r_name player_data)
                (r_opponent player_data) (r_result player_data)
                (r_result opponent_data))
      else None
  end.

(** [processed_pairs] holds the keys of the updates applied so far. *)
Definition pairs_on_record (st : loop_state) : Prop :=
  forall x, pair_in x (processed_pairs st) = true
            <-> In x (applied_pairs (output st)).

(** The row is the only row of its player in the group. *)
Definition only_row_of_player (group : list match_row)
    (player_data : match_row) : Prop :=
  In player_data group
  /\ forall r, In r group -> r_name r = r_name player_data ->
               r = player_data.

(** The match numbers of the header lines, and the match numbers of the
    applied updates, in the order in which they are printed. *)
Fixpoint header_numbers (out : list event) : list Z :=
  match out with
  | [] => []
  | MatchHeader n :: out' => n :: header_numbers out'
  | _ :: out' => header_numbers out'
  end.

Definition match_numbers (out : list event) : list Z :=
  map fst (applied_pairs out).

(** ** Sample inputs *)

(** A row with every cell filled in. *)
Definition played (match_num : Z) (player opponent result : string)
    (cards : Z) : raw_row :=
  mkRawRow (Some match_num) (Some player) (Some opponent) (Some result)
           (Some cards).

(** One row per participant, as the sheet is laid out. *)
Definition one_match : list raw_row :=
  [played 1 "A" "B" "勝" 10; played 1 "B " "A" "負" 7].

(** The same two rows entered twice. *)
Definition one_match_twice : list raw_row := (one_match ++ one_match)%list.

(** A frame in which both rows of the pair report a draw. *)
Definition draw_match : list raw_row :=
  [played 1 "A" "B" "引き分け" 10; played 1 "B" "A" "引き分け" 7].

(** The two rows of a group in which both players report a win, and the
    loop state at the start of a run on the default object. *)
Definition both_win_a : match_row := mkRow (Some 1%Z) "A" "B" "勝" 10.
Definition both_win_b : match_row := mkRow (Some 1%Z) "B" "A" "勝" 7.
Definition both_win_group : list match_row := [both_win_a; both_win_b].
Definition start_state : loop_state := mkLoop default_system [] [].

(** P declares O as opponent, O declares Q, and Q has no row. *)
Definition mismatched_match : list raw_row :=
  [played 3 "P" "O" "勝" 12; played 3 "O" "Q" "負" 5].

(** A checkpoint whose second row has a rating that [float] refuses. *)
Definition checkpoint_bad_second_row : list checkpoint_row :=
  [mkCheckpointRow "A" (Some 1600) (Some 3%Z) (Some 1%Z);
   mkCheckpointRow "B" None (Some 0%Z) (Some 0%Z)].

(** A store in which A is rated 400 points above B. *)
Definition favourite_system : HyakuninisshuRating :=
  fst (load_previous_ratings default_system
         (Some [mkCheckpointRow "A" (Some 1900) (Some 0%Z) (Some 0%Z);
                mkCheckpointRow "B" (Some 1500) (Some 0%Z) (Some 0%Z)])).

(** Two matches entered row by row in turn, and the same rows entered match
    by match. *)
Definition shuffled_matches : list raw_row :=
  [played 2 "C" "D" "負" 5; played 1 "A" "B" "勝" 10;
   played 2 "D" "C" "勝" 12; played 1 "B" "A" "負" 7].

Definition ordered_matches : list raw_row :=
  [played 1 "A" "B" "勝" 10; played 1 "B" "A" "負" 7;
   played 2 "C" "D" "負" 5; played 2 "D" "C" "勝" 12].

(** Draws for a match that runs its full course: 12 cards to 5. *)
Definition full_course_draw : match_draw :=
  mkDraw ("田中太郎", "佐藤花子") false true true 12 13 7.

(** A frame in which both players report a win. *)
Definition both_win_match : list raw_row :=
  [played 1 "A" "B" "勝" 10; played 1 "B" "A" "勝" 7].

(** A frame in which A reports a win and B a draw. *)
Definition win_and_draw_match : list raw_row :=
  [played 1 "A" "B" "勝" 10; played 1 "B" "A" "引き分け" 7].


(** ** [strip] on sample names *)

Example strip_ascii : strip "  Tanaka " = "Tanaka".
Proof. reflexivity. Qed.

Example strip_ideographic_space : strip "　田中 太郎　 " = "田中 太郎".
Proof. reflexivity. Qed.

(** ** Facts about dictionaries *)

Module DictFacts.

Section WithValue.

Context {V : Type}.
Implicit Types (d : Dict.t V) (k : string) (v : V).

Lemma get_set_same d k v : Dict.get k (Dict.set k v d) = Some v.
Proof.
  induction d as [|[k' v'] d IH]; simpl.
  - now rewrite String.eqb_refl.
  - destruct (String.eqb k k') eqn:E; simpl; rewrite E; auto.
Qed.

Lemma get_set_other d k k' v :
  k <> k' -> Dict.get k' (Dict.set k v d) = Dict.get k' d.
Proof.
  intros Hne. induction d as [|[k0 v0] d IH]; simpl.
  - apply String.eqb_neq in Hne. rewrite String.eqb_sym in Hne. now rewrite Hne.
  - destruct (String.eqb k k0) eqn:E; simpl.
    + apply String.eqb_eq in E. subst k0.
      destruct (String.eqb k' k) eqn:E'; [|reflexivity].
      apply String.eqb_eq in E'. congruence.
    + now rewrite IH.
Qed.

Lemma mem_set_same d k v : Dict.mem k (Dict.set k v d) = true.
Proof. unfold Dict.mem. now rewrite get_set_same. Qed.

Lemma mem_set_mono d k k' v :
  Dict.mem k' d = true -> Dict.mem k' (Dict.set k v d) = true.
Proof.
  unfold Dict.mem. destruct (String.eqb k k') eqn:E.
  - apply String.eqb_eq in E. subst. now rewrite get_set_same.
  - apply String.eqb_neq in E. now rewrite get_set_other.
Qed.

Lemma mem_set_inv d k k' v :
  Dict.mem k' (Dict.set k v d) = true -> k' = k \/ Dict.mem k' d = true.
Proof.
  unfold Dict.mem. destruct (String.eqb k k') eqn:E.
  - apply String.eqb_eq in E. auto.
  - apply String.eqb_neq in E. rewrite get_set_other by assumption. auto.
Qed.

Lemma mem_set d k k' v :
  Dict.mem k' (Dict.set k v d) = String.eqb k k' || Dict.mem k' d.
Proof.
  unfold Dict.mem. destruct (String.eqb k k') eqn:E; simpl.
  - apply String.eqb_eq in E. subst. now rewrite get_set_same.
  - apply String.eqb_neq in E. now rewrite get_set_other.
Qed.

Lemma mem_get d k : Dict.mem k d = true -> exists v, Dict.get k d = Some v.
Proof. unfold Dict.mem. destruct (Dict.get k d); [eauto | discriminate]. Qed.

End WithValue.



End DictFacts.

(** ** The expected score *)

Lemma Rpower_10_pos (x : R) : 0 < Rpower 10 x.
Proof. unfold Rpower. apply exp_pos. Qed.

Lemma expected_score_complement (a b : R) :
  calculate_expected_score b a = 1 - calculate_expected_score a b.
Proof.
  unfold calculate_expected_score.
  replace ((a - b) / 400) with (- ((b - a) / 400)) by lra.
  rewrite Rpower_Ropp.
  pose proof (Rpower_10_pos ((b - a) / 400)) as Hp.
  set (p := Rpower 10 ((b - a) / 400)) in *.
  field. split; lra.
Qed.

Lemma expected_score_bounds (a b : R) :
  0 < calculate_expected_score a b < 1.
Proof.
  unfold calculate_expected_score.
  pose proof (Rpower_10_pos ((b - a) / 400)) as Hp.
  set (p := Rpower 10 ((b - a) / 400)) in *.
  split.
  - apply Rdiv_lt_0_compat; lra.
  - apply (Rmult_lt_reg_r (1 + p)); [lra|].
    unfold Rdiv. rewrite Rmult_assoc, Rinv_l by lra. lra.
Qed.

Lemma expected_score_equal (a : R) : calculate_expected_score a a = 1 / 2.
Proof.
  unfold calculate_expected_score.
  replace ((a - a) / 400) with 0 by lra.
  rewrite Rpower_O by lra. lra.
Qed.

(** ** The performance score *)

Lemma win_tokens (result : string) :
  (result =? "勝利")%string || (result =? "勝")%string
  || (result =? "〇")%string = is_win result.
Proof.
  unfold is_win, str_in, win_results. simpl.
  destruct (result =? "勝利")%string, (result =? "勝")%string,
           (result =? "〇")%string; reflexivity.
Qed.

Lemma loss_tokens (result : string) :
  (result =? "敗北")%string || (result =? "負")%string
  || (result =? "✕")%string = is_loss result.
Proof.
  unfold is_loss, str_in, lose_results. simpl.
  destruct (result =? "敗北")%string, (result =? "負")%string,
           (result =? "✕")%string; reflexivity.
Qed.

Lemma performance_score_unfold self result cards_won cards_lost :
  calculate_performance_score self result cards_won cards_lost =
  if (cards_won =? cards_lost)%Z then base_score_of result
  else
    clamp01
      ((1 - card_weight self) * base_score_of result
       + card_weight self
         * (if (0 <? cards_won + cards_lost)%Z
            then IZR cards_won / IZR (cards_won + cards_lost)
            else 1 / 2)).
Proof.
  unfold calculate_performance_score, base_score_of, clamp01.
  rewrite win_tokens, loss_tokens. reflexivity.
Qed.

Lemma clamp01_bounds (x : R) : 0 <= clamp01 x <= 1.
Proof.
  unfold clamp01, Rmax, Rmin.
  destruct (Rle_dec 1 x); destruct (Rle_dec 0 _); lra.
Qed.

Lemma clamp01_id (x : R) : 0 <= x <= 1 -> clamp01 x = x.
Proof.
  intros H. unfold clamp01, Rmax, Rmin.
  destruct (Rle_dec 1 x); destruct (Rle_dec 0 _); lra.
Qed.

Lemma base_score_bounds (result : string) : 0 <= base_score_of result <= 1.
Proof.
  unfold base_score_of. destruct (is_win result), (is_loss result); lra.
Qed.

Lemma performance_equal_cards_base self result n :
  is_win result = true ->
  calculate_performance_score self result n n = 1.
Proof.
  intros H. rewrite performance_score_unfold, Z.eqb_refl.
  unfold base_score_of. now rewrite H.
Qed.

(** C5.  With equal card counts the performance score is the base score of
    the result, whatever the card weight: 1 for a win token, 0 for a loss
    token (and 1/2 for anything else). *)
Theorem performance_equal_cards :
  forall (self : HyakuninisshuRating) (result : string) (n : Z),
    calculate_performance_score self result n n = base_score_of result
    /\ (is_win result = true ->
        calculate_performance_score self result n n = 1)
    /\ (is_loss result = true ->
        calculate_performance_score self result n n = 0).
Proof.
  intros self result n.
  assert (E : calculate_performance_score self result n n
              = base_score_of result).
  { rewrite performance_score_unfold. now rewrite Z.eqb_refl. }
  split; [exact E|]. rewrite E. unfold base_score_of. split; intros H.
  - now rewrite H.
  - rewrite H. destruct (is_win result) eqn:W; [|reflexivity].
    exfalso. revert W H. unfold is_win, is_loss, str_in. simpl.
    rewrite !orb_false_r, !orb_true_iff, !String.eqb_eq.
    intros [W|[W|W]] [L|[L|L]]; subst; discriminate.
Qed.

Lemma performance_equal_cards_witness :
  is_win "勝" = true /\ is_loss "負" = true
  /\ calculate_performance_score default_system "勝" 10 10 = 1
  /\ calculate_performance_score default_system "負" 10 10 = 0.
Proof.
  split; [reflexivity|]. split; [reflexivity|]. split.
  - apply (performance_equal_cards default_system "勝" 10). reflexivity.
  - apply (performance_equal_cards default_system "負" 10). reflexivity.
Defined.

(** C6.  With card counts that are not negative and differ, the performance
    score is (1 - card_weight) * base + card_weight * won / (won + lost),
    clamped to [0, 1], where base is 1 for a win token, 0 for a loss token
    and 1/2 otherwise; and every performance score lies in [0, 1]. *)
Theorem performance_weighted_and_bounded :
  forall (self : HyakuninisshuRating) (result : string)
         (cards_won cards_lost : Z),
    ((0 <= cards_won)%Z -> (0 <= cards_lost)%Z -> cards_won <> cards_lost ->
     calculate_performance_score self result cards_won cards_lost =
     clamp01 ((1 - card_weight self) * base_score_of result
              + card_weight self
                * (IZR cards_won / (IZR cards_won + IZR cards_lost))))
    /\ 0 <= calculate_performance_score self result cards_won cards_lost <= 1.
Proof.
  intros self result won lost. rewrite performance_score_unfold. split.
  - intros Hw Hl Hne.
    destruct (Z.eqb_spec won lost) as [|_]; [contradiction|].
    destruct (Z.ltb_spec 0 (won + lost)) as [_|Hle]; [|lia].
    now rewrite plus_IZR.
  - destruct (won =? lost)%Z.
    + apply base_score_bounds.
    + apply clamp01_bounds.
Qed.

Lemma performance_weighted_and_bounded_witness :
  (0 <= 12)%Z /\ (0 <= 5)%Z /\ 12%Z <> 5%Z
  /\ calculate_performance_score default_system "勝" 12 5 =
     clamp01 ((1 - card_weight default_system) * base_score_of "勝"
              + card_weight default_system * (IZR 12 / (IZR 12 + IZR 5))).
Proof.
  split; [lia|]. split; [lia|]. split; [lia|].
  apply (performance_weighted_and_bounded default_system "勝" 12 5); lia.
Defined.

(** ** One rating update *)

Section RegisterPlayer.

Variable self : HyakuninisshuRating.
Variable player : string.

Lemma register_player_config :
  initial_rating (register_player self player) = initial_rating self
  /\ k_factor (register_player self player) = k_factor self
  /\ card_weight (register_player self player) = card_weight self
  /\ match_history (register_player self player) = match_history self.
Proof.
  unfold register_player.
  destruct (Dict.mem player (player_ratings self)); simpl; auto.
Qed.

Lemma register_player_mem :
  Dict.mem player (player_ratings (register_player self player)) = true.
Proof.
  unfold register_player.
  destruct (Dict.mem player (player_ratings self)) eqn:E; simpl; auto.
  apply DictFacts.mem_set_same.
Qed.

Lemma register_player_mem_mono (q : string) :
  Dict.mem q (player_ratings self) = true ->
  Dict.mem q (player_ratings (register_player self player)) = true.
Proof.
  unfold register_player.
  destruct (Dict.mem player (player_ratings self)) eqn:E; simpl; auto.
  apply DictFacts.mem_set_mono.
Qed.

Lemma register_player_known :
  Dict.mem player (player_ratings self) = true ->
  register_player self player = self.
Proof. unfold register_player. now intros ->. Qed.

Lemma register_player_rating_of (q : string) :
  rating_of (register_player self player) q = rating_of self q.
Proof.
  unfold register_player, rating_of, Dict.mem.
  destruct (Dict.get player (player_ratings self)) eqn:E; simpl; auto.
  destruct (String.eqb player q) eqn:Q.
  - apply String.eqb_eq in Q. subst q.
    now rewrite DictFacts.get_set_same, E.
  - apply String.eqb_neq in Q. now rewrite DictFacts.get_set_other.
Qed.

Lemma register_player_well_formed :
  well_formed self -> well_formed (register_player self player).
Proof.
  unfold well_formed, register_player. intros WF q.
  destruct (Dict.mem player (player_ratings self)) eqn:E; simpl; auto.
  rewrite !DictFacts.mem_set. now rewrite WF.
Qed.

Lemma register_player_stats_of (q : string) :
  well_formed self ->
  stats_of (register_player self player) q = stats_of self q.
Proof.
  intros WF. unfold register_player, stats_of.
  destruct (Dict.mem player (player_ratings self)) eqn:E; simpl; auto.
  destruct (String.eqb player q) eqn:Q.
  - apply String.eqb_eq in Q. subst q.
    rewrite DictFacts.get_set_same.
    rewrite <- WF in E. unfold Dict.mem in E.
    destruct (Dict.get player (player_stats self)); [discriminate|reflexivity].
  - apply String.eqb_neq in Q. now rewrite DictFacts.get_set_other.
Qed.

End RegisterPlayer.

Lemma performance_score_ext self1 self2 result cards_won cards_lost :
  card_weight self1 = card_weight self2 ->
  calculate_performance_score self1 result cards_won cards_lost
  = calculate_performance_score self2 result cards_won cards_lost.
Proof. unfold calculate_performance_score. now intros ->. Qed.

Lemma stored_rating self player :
  Dict.mem player (player_ratings self) = true ->
  Dict.get player (player_ratings self) = Some (rating_of self player).
Proof.
  unfold Dict.mem, rating_of.
  destruct (Dict.get player (player_ratings self)); [reflexivity|discriminate].
Qed.

Lemma stored_stats self player :
  Dict.mem player (player_stats self) = true ->
  Dict.get player (player_stats self) = Some (stats_of self player).
Proof.
  unfold Dict.mem, stats_of.
  destruct (Dict.get player (player_stats self)); [reflexivity|discriminate].
Qed.

Lemma update_tokens_win (result : string) :
  (result =? "勝")%string || (result =? "勝利")%string
  || (result =? "〇")%string = is_win result.
Proof.
  unfold is_win, str_in, win_results. simpl.
  destruct (result =? "勝")%string, (result =? "勝利")%string,
           (result =? "〇")%string; reflexivity.
Qed.

Lemma update_tokens_loss (result : string) :
  (result =? "負")%string || (result =? "敗北")%string
  || (result =? "✕")%string = is_loss result.
Proof.
  unfold is_loss, str_in, lose_results. simpl.
  destruct (result =? "負")%string, (result =? "敗北")%string,
           (result =? "✕")%string; reflexivity.
Qed.

Lemma record_result_unfold player_a player_b result_a (d : Dict.t stats) :
  record_result player_a player_b result_a d =
  if is_win result_a then
    d1 <- add_win player_a d ;; add_loss player_b d1
  else if is_loss result_a then
    d1 <- add_loss player_a d ;; add_win player_b d1
  else Some d.
Proof.
  unfold record_result. now rewrite update_tokens_win, update_tokens_loss.
Qed.

Lemma add_win_some player (d : Dict.t stats) :
  Dict.mem player d = true ->
  exists d', add_win player d = Some d'
             /\ forall q, Dict.mem q d' = Dict.mem q d.
Proof.
  intros H. destruct (DictFacts.mem_get _ _ H) as [st G].
  unfold add_win. rewrite G. eexists. split; [reflexivity|].
  intros q. rewrite DictFacts.mem_set.
  destruct (String.eqb_spec player q); subst; simpl; auto.
Qed.

Lemma add_loss_some player (d : Dict.t stats) :
  Dict.mem player d = true ->
  exists d', add_loss player d = Some d'
             /\ forall q, Dict.mem q d' = Dict.mem q d.
Proof.
  intros H. destruct (DictFacts.mem_get _ _ H) as [st G].
  unfold add_loss. rewrite G. eexists. split; [reflexivity|].
  intros q. rewrite DictFacts.mem_set.
  destruct (String.eqb_spec player q); subst; simpl; auto.
Qed.

Lemma record_result_some player_a player_b result_a (d : Dict.t stats) :
  Dict.mem player_a d = true -> Dict.mem player_b d = true ->
  exists d', record_result player_a player_b result_a d = Some d'
             /\ forall q, Dict.mem q d' = Dict.mem q d.
Proof.
  intros Ha Hb. rewrite record_result_unfold.
  destruct (is_win result_a); [|destruct (is_loss result_a)].
  - destruct (add_win_some _ _ Ha) as (d1 & -> & M1). simpl.
    rewrite <- M1 in Hb. destruct (add_loss_some _ _ Hb) as (d2 & -> & M2).
    exists d2. split; [reflexivity|]. intros q. now rewrite M2, M1.
  - destruct (add_loss_some _ _ Ha) as (d1 & -> & M1). simpl.
    rewrite <- M1 in Hb. destruct (add_win_some _ _ Hb) as (d2 & -> & M2).
    exists d2. split; [reflexivity|]. intros q. now rewrite M2, M1.
  - exists d. auto.
Qed.

(** What a call of [update_ratings] does to a well-formed object. *)
Lemma update_ratings_spec self player_a player_b result_a cards_a cards_b :
  well_formed self ->
  let registered :=
    register_player (register_player self player_a) player_b in
  let new_a := new_rating_a self player_a player_b result_a cards_a cards_b in
  let new_b := new_rating_b self player_a player_b result_a cards_a cards_b in
  exists self',
    update_ratings self player_a player_b result_a cards_a cards_b
    = Some (self', (new_a, new_b))
    /\ player_ratings self'
       = Dict.set player_b new_b
           (Dict.set player_a new_a (player_ratings registered))
    /\ record_result player_a player_b result_a (player_stats registered)
       = Some (player_stats self')
    /\ (exists h, match_history self' = (match_history self ++ [h])%list)
    /\ initial_rating self' = initial_rating self
    /\ k_factor self' = k_factor self
    /\ card_weight self' = card_weight self
    /\ well_formed self'.
Proof.
  intros WF registered new_a new_b.
  pose proof (register_player_well_formed _ player_b
                (register_player_well_formed _ player_a WF)) as WF2.
  fold registered in WF2.
  assert (Ma : Dict.mem player_a (player_ratings registered) = true).
  { apply register_player_mem_mono, register_player_mem. }
  assert (Mb : Dict.mem player_b (player_ratings registered) = true).
  { apply register_player_mem. }
  assert (Rq : forall q, rating_of registered q = rating_of self q).
  { intros q. unfold registered. now rewrite !register_player_rating_of. }
  destruct (register_player_config (register_player self player_a) player_b)
    as (I2 & K2 & W2 & H2).
  destruct (register_player_config self player_a) as (I1 & K1 & W1 & H1).
  fold registered in I2, K2, W2, H2.
  destruct (record_result_some player_a player_b result_a
              (player_stats registered)) as (d' & Hrec & Hmem).
  { now rewrite WF2. }
  { now rewrite WF2. }
  unfold update_ratings. fold registered.
  rewrite (stored_rating _ _ Ma), (stored_rating _ _ Mb), !Rq. simpl.
  rewrite Hrec. simpl.
  rewrite (performance_score_ext registered self) by congruence.
  rewrite K2, K1.
  eexists. split; [reflexivity|]. simpl.
  repeat split; try congruence.
  - rewrite H2, H1. eauto.
  - intros q. simpl. rewrite Hmem, WF2, !DictFacts.mem_set.
    destruct (String.eqb_spec player_b q) as [<-|]; simpl.
    + now rewrite Mb.
    + destruct (String.eqb_spec player_a q) as [<-|]; simpl; auto.
Qed.

(** Well-formedness is an invariant of the class: it holds after
    [__init__] and every method keeps it (see also [update_ratings_spec],
    [load_rows_well_formed] and [process_matches_well_formed]). *)
Lemma init_well_formed (initial k weight : R) :
  well_formed (init initial k weight).
Proof. intros player. reflexivity. Qed.

Lemma default_system_well_formed : well_formed default_system.
Proof. apply init_well_formed. Qed.

Lemma updated_ratings_lookup self' player_a player_b new_a new_b d :
  player_a <> player_b ->
  player_ratings self' = Dict.set player_b new_b (Dict.set player_a new_a d) ->
  rating_of self' player_a = new_a /\ rating_of self' player_b = new_b
  /\ Dict.get player_a (player_ratings self') = Some new_a
  /\ Dict.get player_b (player_ratings self') = Some new_b.
Proof.
  intros Hne E. unfold rating_of. rewrite E.
  rewrite DictFacts.get_set_same.
  rewrite DictFacts.get_set_other, DictFacts.get_set_same by congruence.
  auto.
Qed.

(** C3.  For two distinct players, [update_ratings] returns and stores, for
    each of them, rating + k_factor * (actual - expected), computed from the
    ratings the two players have when the call is made.  With both ratings at
    1500, K = 32 and card weight 0.3, a win of A by 17 cards to 0 gives 1516
    for A and 1484 for B, and so does a win of A at 10 cards each. *)
Theorem update_ratings_elo_step :
  forall (self : HyakuninisshuRating) (player_a player_b : string),
    well_formed self -> player_a <> player_b ->
    (forall (result_a : string) (cards_a cards_b : Z),
       let rating_a := rating_of self player_a in
       let rating_b := rating_of self player_b in
       let expected_a := calculate_expected_score rating_a rating_b in
       let actual_a :=
         calculate_performance_score self result_a cards_a cards_b in
       let new_a := rating_a + k_factor self * (actual_a - expected_a) in
       let new_b :=
         rating_b + k_factor self * ((1 - actual_a) - (1 - expected_a)) in
       exists self',
         update_ratings self player_a player_b result_a cards_a cards_b
         = Some (self', (new_a, new_b))
         /\ Dict.get player_a (player_ratings self') = Some new_a
         /\ Dict.get player_b (player_ratings self') = Some new_b)
    /\ (k_factor self = 32 -> card_weight self = 3 / 10 ->
        rating_of self player_a = 1500 -> rating_of self player_b = 1500 ->
        forall result_a : string, is_win result_a = true ->
          (exists self',
             update_ratings self player_a player_b result_a 17 0
             = Some (self', (1516, 1484))
             /\ Dict.get player_a (player_ratings self') = Some 1516
             /\ Dict.get player_b (player_ratings self') = Some 1484)
          /\ (exists self',
                update_ratings self player_a player_b result_a 10 10
                = Some (self', (1516, 1484))
                /\ Dict.get player_a (player_ratings self') = Some 1516
                /\ Dict.get player_b (player_ratings self') = Some 1484)).
Proof.
  intros self a b WF Hne.
  assert (General : forall result_a cards_a cards_b,
    exists self',
      update_ratings self a b result_a cards_a cards_b
      = Some (self', (new_rating_a self a b result_a cards_a cards_b,
                      new_rating_b self a b result_a cards_a cards_b))
      /\ Dict.get a (player_ratings self')
         = Some (new_rating_a self a b result_a cards_a cards_b)
      /\ Dict.get b (player_ratings self')
         = Some (new_rating_b self a b result_a cards_a cards_b)).
  { intros result_a cards_a cards_b.
    destruct (update_ratings_spec self a b result_a cards_a cards_b WF)
      as (self' & Hup & Hrat & _).
    exists self'. split; [exact Hup|].
    apply (updated_ratings_lookup self' a b _ _ _ Hne Hrat). }
  split; [exact General|].
  intros HK HW Ha Hb result_a Hwin.
  assert (E : calculate_expected_score 1500 1500 = 1 / 2)
    by apply expected_score_equal.
  assert (B : base_score_of result_a = 1)
    by (unfold base_score_of; now rewrite Hwin).
  split.
  - destruct (General result_a 17%Z 0%Z) as (self' & Hup & Ga & Gb).
    assert (P : calculate_performance_score self result_a 17 0 = 1).
    { rewrite performance_score_unfold. simpl. rewrite B, HW.
      apply eq_trans with (clamp01 1); [f_equal; lra|].
      apply clamp01_id. lra. }
    assert (Na : new_rating_a self a b result_a 17 0 = 1516).
    { unfold new_rating_a. rewrite P, Ha, Hb, HK, E. lra. }
    assert (Nb : new_rating_b self a b result_a 17 0 = 1484).
    { unfold new_rating_b. rewrite P, Ha, Hb, HK, E. lra. }
    rewrite Na, Nb in *. eauto.
  - destruct (General result_a 10%Z 10%Z) as (self' & Hup & Ga & Gb).
    assert (P : calculate_performance_score self result_a 10 10 = 1).
    { now apply performance_equal_cards_base. }
    assert (Na : new_rating_a self a b result_a 10 10 = 1516).
    { unfold new_rating_a. rewrite P, Ha, Hb, HK, E. lra. }
    assert (Nb : new_rating_b self a b result_a 10 10 = 1484).
    { unfold new_rating_b. rewrite P, Ha, Hb, HK, E. lra. }
    rewrite Na, Nb in *. eauto.
Qed.

Lemma update_ratings_elo_step_witness :
  well_formed default_system /\ "A" <> "B"
  /\ k_factor default_system = 32 /\ card_weight default_system = 3 / 10
  /\ rating_of default_system "A" = 1500
  /\ rating_of default_system "B" = 1500
  /\ is_win "勝" = true
  /\ (exists self',
        update_ratings default_system "A" "B" "勝" 17 0
        = Some (self', (1516, 1484))
        /\ Dict.get "A" (player_ratings self') = Some 1516
        /\ Dict.get "B" (player_ratings self') = Some 1484)
  /\ (exists self',
        update_ratings default_system "A" "B" "勝" 10 10
        = Some (self', (1516, 1484))
        /\ Dict.get "A" (player_ratings self') = Some 1516
        /\ Dict.get "B" (player_ratings self') = Some 1484).
Proof.
  split; [exact default_system_well_formed|].
  split; [discriminate|].
  do 5 (split; [reflexivity|]).
  apply (update_ratings_elo_step default_system "A" "B"
           default_system_well_formed);
    [discriminate | reflexivity | reflexivity | reflexivity | reflexivity
    | reflexivity].
Defined.








(** ** Pairs: checks, rejection and deduplication *)

Lemma match_pair_eqb_eq (x y : match_pair) :
  match_pair_eqb x y = true <-> x = y.
Proof.
  destruct x as [n [a b]], y as [m [c d]]. unfold match_pair_eqb. simpl.
  rewrite !andb_true_iff, Z.eqb_eq, !String.eqb_eq.
  split; [intros [[-> ->] ->]; reflexivity | intros [= -> -> ->]; auto].
Qed.

Lemma pair_in_iff (x : match_pair) (s : list match_pair) :
  pair_in x s = true <-> In x s.
Proof.
  unfold pair_in. rewrite existsb_exists. split.
  - intros (y & Hy & E). apply match_pair_eqb_eq in E. now subst.
  - intros H. exists x. split; [exact H|]. now apply match_pair_eqb_eq.
Qed.

Lemma applied_pairs_app (out1 out2 : list event) :
  applied_pairs (out1 ++ out2)%list
  = (applied_pairs out1 ++ applied_pairs out2)%list.
Proof.
  induction out1 as [|e out1 IH]; simpl; [reflexivity|].
  destruct e; simpl; now rewrite ?IH.
Qed.

Lemma applied_pairs_warning (out : list event) (e : event) :
  is_warning e = true ->
  applied_pairs (out ++ [e])%list = applied_pairs out.
Proof.
  intros H. rewrite applied_pairs_app.
  destruct e; try discriminate; simpl; apply app_nil_r.
Qed.

(** The three ways in which the loop body ends. *)
Lemma process_row_processed match_num group st player_data :
  pair_in (pair_key match_num player_data) (processed_pairs st) = true ->
  process_row match_num group st player_data = Some st.
Proof. unfold process_row, pair_key. now intros ->. Qed.

Lemma process_row_rejected match_num group st player_data :
  pair_in (pair_key match_num player_data) (processed_pairs st) = false ->
  rejected group player_data = true ->
  exists w, is_warning w = true
            /\ process_row match_num group st player_data = Some (emit st w).
Proof.
  unfold process_row, pair_key, rejected, contradictory_results.
  intros -> H.
  destruct (find _ group) as [opponent_data|].
  - destruct (negb (r_opponent opponent_data =? r_name player_data)%string).
    + eexists. split; [|reflexivity]. reflexivity.
    + apply orb_true_iff in H as [H|H]; [discriminate|].
      rewrite H. eexists. split; [|reflexivity]. reflexivity.
  - eexists. split; [|reflexivity]. reflexivity.
Qed.

Lemma process_row_accepted match_num group st player_data :
  pair_in (pair_key match_num player_data) (processed_pairs st) = false ->
  rejected group player_data = false ->
  exists opponent_data,
    find (fun r => (r_name r =? r_opponent player_data)%string) group
    = Some opponent_data
    /\ process_row match_num group st player_data
       = (updated <- update_ratings (ls_self st) (r_name player_data)
                       (r_opponent player_data) (r_result player_data)
                       (r_cards player_data) (r_cards opponent_data) ;;
          Some (mkLoop (fst updated)
                  (pair_add (pair_key match_num player_data)
                            (processed_pairs st))
                  (output st
                   ++ [RatingUpdate match_num (r_name player_data)
                         (r_opponent player_data) (r_cards player_data)
                         (r_cards opponent_data) (r_result player_data)]))).
Proof.
  unfold process_row, pair_key, rejected, contradictory_results.
  intros -> H.
  destruct (find _ group) as [opponent_data|]; [|discriminate].
  apply orb_false_iff in H as [H1 H2].
  exists opponent_data. split; [reflexivity|]. now rewrite H1, H2.
Qed.

Section Loops.

Variable history0 : nat.

Lemma loop_invariant_emit st e :
  loop_invariant history0 st ->
  applied_pairs (output st ++ [e])%list = applied_pairs (output st) ->
  loop_invariant history0 (emit st e).
Proof. unfold loop_invariant, emit. simpl. now intros H ->. Qed.

Lemma process_row_step match_num group st player_data :
  loop_invariant history0 st ->
  exists st',
    process_row match_num group st player_data = Some st'
    /\ loop_invariant history0 st'
    /\ applied_before st st'
    /\ (rejected group player_data = false ->
        In (pair_key match_num player_data) (applied_pairs (output st'))).
Proof.
  intros Inv.
  destruct (pair_in (pair_key match_num player_data) (processed_pairs st))
    eqn:Seen.
  - exists st. rewrite process_row_processed by assumption.
    split; [reflexivity|]. split; [exact Inv|]. split; [now intros x|].
    intros _. now apply Inv.
  - destruct (rejected group player_data) eqn:Rej.
    + destruct (process_row_rejected match_num group st player_data Seen Rej)
        as (w & Hw & ->).
      exists (emit st w). split; [reflexivity|].
      pose proof (applied_pairs_warning (output st) w Hw) as E.
      split; [now apply loop_invariant_emit|].
      split; [|discriminate].
      intros x. unfold emit. simpl. now rewrite E.
    + destruct (process_row_accepted match_num group st player_data Seen Rej)
        as (opponent_data & _ & ->).
      destruct Inv as (WF & Proc & ND & Len).
      destruct (update_ratings_spec (ls_self st) (r_name player_data)
                  (r_opponent player_data) (r_result player_data)
                  (r_cards player_data) (r_cards opponent_data) WF)
        as (self' & -> & _ & _ & (h & Hh) & _ & _ & _ & WF').
      simpl. eexists. split; [reflexivity|].
      unfold loop_invariant, applied_before. simpl.
      rewrite applied_pairs_app. simpl.
      fold (pair_key match_num player_data).
      set (key := pair_key match_num player_data) in *.
      assert (Fresh : ~ In key (applied_pairs (output st))).
      { intros H. apply Proc in H. congruence. }
      unfold pair_add. rewrite Seen.
      split; [|split].
      * split; [exact WF'|]. split; [|split].
        -- intros x. rewrite !pair_in_iff, in_app_iff. simpl.
           rewrite <- Proc, pair_in_iff. intuition congruence.
        -- apply NoDup_app; auto.
           ++ constructor; [intros []|constructor].
           ++ intros x Hx [<-|[]]. contradiction.
        -- rewrite Hh, !length_app, Len. simpl. lia.
      * intros x Hx. apply in_or_app. now left.
      * intros _. apply in_or_app. right. now left.
Qed.

Lemma process_rows_step match_num group rows : forall st,
  loop_invariant history0 st ->
  exists st',
    process_rows match_num group st rows = Some st'
    /\ loop_invariant history0 st'
    /\ applied_before st st'
    /\ (forall player_data,
          In player_data rows -> rejected group player_data = false ->
          In (pair_key match_num player_data) (applied_pairs (output st'))).
Proof.
  induction rows as [|row rows IH]; intros st Inv.
  - exists st. split; [reflexivity|]. split; [exact Inv|].
    split; [now intros x|]. intros ? [].
  - destruct (process_row_step match_num group st row Inv)
      as (st1 & E1 & Inv1 & Mono1 & App1).
    destruct (IH st1 Inv1) as (st2 & E2 & Inv2 & Mono2 & App2).
    exists st2. simpl. rewrite E1. simpl. split; [exact E2|].
    split; [exact Inv2|]. split.
    + intros x Hx. auto.
    + intros player_data [<-|Hin] Rej; auto.
Qed.

Lemma process_groups_step groups : forall st,
  loop_invariant history0 st ->
  exists st',
    process_groups st groups = Some st'
    /\ loop_invariant history0 st'
    /\ applied_before st st'
    /\ (forall match_num group player_data,
          In (match_num, group) groups -> In player_data group ->
          rejected group player_data = false ->
          In (pair_key match_num player_data) (applied_pairs (output st'))).
Proof.
  induction groups as [|[match_num group] groups IH]; intros st Inv.
  - exists st. split; [reflexivity|]. split; [exact Inv|].
    split; [now intros x|]. intros ? ? ? [].
  - assert (Inv0 : loop_invariant history0 (emit st (MatchHeader match_num))).
    { apply loop_invariant_emit; [exact Inv|].
      rewrite applied_pairs_app. apply app_nil_r. }
    destruct (process_rows_step match_num group group _ Inv0)
      as (st1 & E1 & Inv1 & Mono1 & App1).
    destruct (IH st1 Inv1) as (st2 & E2 & Inv2 & Mono2 & App2).
    exists st2. simpl. rewrite E1. simpl. split; [exact E2|].
    split; [exact Inv2|]. split.
    + intros x Hx. apply Mono2, Mono1. unfold emit. simpl.
      rewrite applied_pairs_app. apply in_or_app. now left.
    + intros n g player_data [[= <- <-]|Hin] Hrow Rej.
      * apply Mono2. now apply App1.
      * now apply (App2 n g).
Qed.

End Loops.

(** ** Grouping *)

Lemma insert_key_in (k x : Z) (ks : list Z) :
  In x (insert_key k ks) <-> x = k \/ In x ks.
Proof.
  induction ks as [|k' ks IH]; simpl.
  - intuition.
  - destruct (Z.ltb_spec k k'); simpl; [intuition|].
    destruct (Z.eqb_spec k k'); simpl.
    + subst. intuition.
    + rewrite IH. intuition.
Qed.

Lemma insert_key_sorted (k : Z) (ks : list Z) :
  StronglySorted Z.lt ks -> StronglySorted Z.lt (insert_key k ks).
Proof.
  induction 1 as [|k' ks Sorted IH Low]; simpl.
  - repeat constructor.
  - destruct (Z.ltb_spec k k') as [Hlt|Hge].
    + constructor; [now constructor|].
      constructor; [exact Hlt|].
      rewrite Forall_forall in *. intros x Hx. specialize (Low x Hx). lia.
    + destruct (Z.eqb_spec k k') as [_|Hne]; [now constructor|].
      constructor; [exact IH|].
      rewrite Forall_forall in *. intros x Hx.
      apply insert_key_in in Hx as [->|Hx]; [lia|auto].
Qed.

(** The groups come in ascending order of the match number, one group per
    number. *)
Lemma group_keys_sorted (df : list match_row) :
  StronglySorted Z.lt (group_keys df).
Proof.
  induction df as [|row df IH]; simpl; [constructor|].
  destruct (r_match_num row); [now apply insert_key_sorted|exact IH].
Qed.

(** The key does not depend on which of the two players the row belongs
    to. *)
Lemma sorted_pair_sym (player opponent : string) :
  sorted_pair player opponent = sorted_pair opponent player.
Proof.
  unfold sorted_pair, String.ltb.
  rewrite (String.compare_antisym player opponent).
  destruct (String.compare opponent player) eqn:E; simpl; try reflexivity.
  apply String.compare_eq_iff in E. now subst.
Qed.

Lemma group_keys_in (df : list match_row) (n : Z) :
  In n (group_keys df)
  <-> exists row, In row df /\ r_match_num row = Some n.
Proof.
  induction df as [|row df IH]; simpl.
  - split; [intros []|intros (? & [] & _)].
  - destruct (r_match_num row) as [m|] eqn:E.
    + rewrite insert_key_in, IH. split.
      * intros [->|(r & Hr & Er)]; eauto.
      * intros (r & [<-|Hr] & Er); [left; congruence|eauto].
    + rewrite IH. split.
      * intros (r & Hr & Er). eauto.
      * intros (r & [<-|Hr] & Er); [congruence|eauto].
Qed.

Lemma groupby_in (df : list match_row) (row : match_row) (n : Z) :
  In row df -> r_match_num row = Some n ->
  In (n, filter (in_group n) df) (groupby df)
  /\ In row (filter (in_group n) df).
Proof.
  intros Hin E. split.
  - unfold groupby. apply in_map_iff. exists n. split; [reflexivity|].
    apply group_keys_in. eauto.
  - apply filter_In. split; [exact Hin|].
    unfold in_group. rewrite E. apply Z.eqb_refl.
Qed.

Lemma empty_loop_invariant self :
  well_formed self ->
  loop_invariant (List.length (match_history self)) (mkLoop self [] []).
Proof.
  intros WF. unfold loop_invariant. simpl.
  split; [exact WF|]. split; [|split].
  - intros x. split; [discriminate|intros []].
  - constructor.
  - lia.
Qed.

Lemma process_matches_well_formed self matches_df :
  well_formed self ->
  exists self' out,
    process_matches self matches_df = Some (self', out) /\ well_formed self'.
Proof.
  intros WF. unfold process_matches.
  destruct (List.length (map strip_names (dropna matches_df)) =? 0)%nat.
  - exists self, [NoValidMatches]. split; [reflexivity|exact WF].
  - destruct (process_groups_step _
                (groupby (map strip_names (dropna matches_df))) _
                (empty_loop_invariant self WF))
      as (st' & -> & (WF' & _) & _).
    simpl. exists (ls_self st'), (output st'). split; [reflexivity|exact WF'].
Qed.


Lemma process_matches_groups self matches_df groups :
  groupby (cleaned matches_df) = groups -> cleaned matches_df <> [] ->
  process_matches self matches_df
  = (st <- process_groups (mkLoop self [] []) groups ;;
     Some (ls_self st, output st)).
Proof.
  intros <- H. unfold process_matches. fold (cleaned matches_df).
  destruct (cleaned matches_df); [congruence|reflexivity].
Qed.

(** Runs [process_matches] on a frame given in full, up to the calls of
    [update_ratings], which are left standing. *)
Ltac run_process_matches df :=
  rewrite (process_matches_groups _ df (groupby (cleaned df)))
    by (try reflexivity; discriminate);
  let g := eval vm_compute in (groupby (cleaned df)) in
  change (groupby (cleaned df)) with g;
  cbn -[update_ratings default_system bind].

Ltac run_update H :=
  cbn [ls_self]; rewrite H; cbn -[update_ratings default_system].

Example one_match_updates_once :
  exists self',
    process_matches default_system one_match
    = Some (self', [MatchHeader 1; RatingUpdate 1 "A" "B" 10 7 "勝"])
    /\ List.length (match_history self') = 1%nat.
Proof.
  destruct (update_ratings_spec default_system "A" "B" "勝" 10 7
              default_system_well_formed)
    as (self' & Hup & _ & _ & (h & Hh) & _).
  exists self'. split; [|now rewrite Hh].
  run_process_matches one_match. run_update Hup. reflexivity.
Qed.

Example one_match_twice_updates_once :
  exists self',
    process_matches default_system one_match_twice
    = Some (self', [MatchHeader 1; RatingUpdate 1 "A" "B" 10 7 "勝"])
    /\ List.length (match_history self') = 1%nat.
Proof.
  destruct (update_ratings_spec default_system "A" "B" "勝" 10 7
              default_system_well_formed)
    as (self' & Hup & _ & _ & (h & Hh) & _).
  exists self'. split; [|now rewrite Hh].
  run_process_matches one_match_twice. run_update Hup. reflexivity.
Qed.


(** ** Which rows the applied updates and the warnings come from *)

Lemma warning_of_rejected group player_data :
  rejected group player_data = true ->
  exists w, warning_of group player_data = Some w /\ is_warning w = true.
Proof.
  unfold rejected, warning_of.
  destruct (find _ group) as [opponent_data|]; [|eauto].
  destruct (negb (r_opponent opponent_data =? r_name player_data)%string);
    [eauto|].
  simpl. intros ->. eauto.
Qed.

Lemma warning_of_accepted group player_data :
  rejected group player_data = false -> warning_of group player_data = None.
Proof.
  unfold rejected, warning_of.
  destruct (find _ group) as [opponent_data|]; [|discriminate].
  destruct (negb (r_opponent opponent_data =? r_name player_data)%string);
    [discriminate|].
  simpl. now intros ->.
Qed.

Lemma process_row_warns match_num group st player_data w :
  pair_in (pair_key match_num player_data) (processed_pairs st) = false ->
  warning_of group player_data = Some w ->
  process_row match_num group st player_data = Some (emit st w).
Proof.
  unfold process_row, pair_key, warning_of, contradictory_results.
  intros ->.
  destruct (find _ group) as [opponent_data|].
  - destruct (negb (r_opponent opponent_data =? r_name player_data)%string).
    + now intros [= <-].
    + destruct (_ || _); [now intros [= <-]|discriminate].
  - now intros [= <-].
Qed.

Lemma in_applied_pairs_app (x : match_pair) (out added : list event) :
  In x (applied_pairs (out ++ added)%list)
  <-> In x (applied_pairs out) \/ In x (applied_pairs added).
Proof. rewrite applied_pairs_app. apply in_app_iff. Qed.

(** One row: the keys on record stay the keys of the applied updates, the
    output grows at its end, an update that is new comes from this row and
    the row passed the checks, and the row has its update on record or its
    warning printed. *)
Lemma process_row_trace match_num group st player_data st' :
  process_row match_num group st player_data = Some st' ->
  pairs_on_record st ->
  pairs_on_record st'
  /\ (exists added, output st' = (output st ++ added)%list)
  /\ (forall x, In x (applied_pairs (output st')) ->
                In x (applied_pairs (output st))
                \/ x = pair_key match_num player_data
                   /\ rejected group player_data = false)
  /\ (In (pair_key match_num player_data) (applied_pairs (output st'))
      \/ exists w, warning_of group player_data = Some w
                   /\ In w (output st')).
Proof.
  intros Run Rec.
  destruct (pair_in (pair_key match_num player_data) (processed_pairs st))
    eqn:Seen.
  - rewrite process_row_processed in Run by assumption.
    injection Run as <-. split; [exact Rec|].
    split; [exists []; now rewrite app_nil_r|].
    split; [auto|]. left. now apply Rec.
  - destruct (rejected group player_data) eqn:Rej.
    + destruct (warning_of_rejected _ _ Rej) as (w & Hw & Warn).
      rewrite (process_row_warns _ _ _ _ w Seen Hw) in Run.
      injection Run as <-.
      pose proof (applied_pairs_warning (output st) w Warn) as E.
      unfold pairs_on_record, emit. simpl. rewrite E.
      split; [exact Rec|]. split; [now exists [w]|].
      split; [auto|]. right. exists w. split; [exact Hw|].
      apply in_or_app. right. now left.
    + destruct (process_row_accepted match_num group st player_data Seen Rej)
        as (opponent_data & _ & E).
      rewrite E in Run.
      destruct (update_ratings _ _ _ _ _ _) as [updated|];
        [|discriminate].
      simpl in Run. injection Run as <-.
      unfold pairs_on_record. simpl.
      fold (pair_key match_num player_data).
      set (key := pair_key match_num player_data) in *.
      assert (New : applied_pairs
                      [RatingUpdate match_num (r_name player_data)
                         (r_opponent player_data) (r_cards player_data)
                         (r_cards opponent_data) (r_result player_data)]
                    = [key]) by reflexivity.
      split; [|split; [|split]].
      * intros x. rewrite in_applied_pairs_app, New. unfold pair_add.
        rewrite Seen, pair_in_iff. simpl. rewrite <- (Rec x), pair_in_iff.
        intuition congruence.
      * eauto.
      * intros x Hx. apply in_applied_pairs_app in Hx as [Hx|Hx];
          [now left|].
        rewrite New in Hx. destruct Hx as [<-|[]]. now right.
      * left. apply in_applied_pairs_app. right. rewrite New. now left.
Qed.

Lemma process_rows_trace match_num group rows : forall st st',
  process_rows match_num group st rows = Some st' ->
  pairs_on_record st ->
  pairs_on_record st'
  /\ (exists added, output st' = (output st ++ added)%list)
  /\ (forall x, In x (applied_pairs (output st')) ->
                In x (applied_pairs (output st))
                \/ exists player_data,
                     In player_data rows
                     /\ x = pair_key match_num player_data
                     /\ rejected group player_data = false)
  /\ (forall player_data, In player_data rows ->
        In (pair_key match_num player_data) (applied_pairs (output st'))
        \/ exists w, warning_of group player_data = Some w
                     /\ In w (output st')).
Proof.
  induction rows as [|row rows IH]; intros st st' Run Rec.
  - injection Run as <-. split; [exact Rec|].
    split; [exists []; now rewrite app_nil_r|].
    split; [auto|]. intros ? [].
  - simpl in Run.
    destruct (process_row match_num group st row) as [st1|] eqn:E1;
      [|discriminate].
    simpl in Run.
    destruct (process_row_trace _ _ _ _ _ E1 Rec)
      as (Rec1 & (added1 & Out1) & From1 & Seen1).
    destruct (IH st1 st' Run Rec1)
      as (Rec2 & (added2 & Out2) & From2 & Seen2).
    split; [exact Rec2|]. split; [|split].
    + exists (added1 ++ added2)%list. now rewrite Out2, Out1, app_assoc.
    + intros x Hx. destruct (From2 x Hx) as [H1|(r & Hr & Hk & Rej)].
      * destruct (From1 x H1) as [H0|[Hk Rej]]; [now left|].
        right. exists row. split; [now left|]. auto.
      * right. exists r. split; [now right|]. auto.
    + intros player_data [<-|Hin]; [|now apply Seen2].
      destruct Seen1 as [App|(w & Hw & Hin)].
      * left. rewrite Out2. apply in_applied_pairs_app. now left.
      * right. exists w. split; [exact Hw|]. rewrite Out2.
        apply in_or_app. now left.
Qed.

Lemma process_groups_trace groups : forall st st',
  process_groups st groups = Some st' ->
  pairs_on_record st ->
  pairs_on_record st'
  /\ (exists added, output st' = (output st ++ added)%list)
  /\ (forall x, In x (applied_pairs (output st')) ->
                In x (applied_pairs (output st))
                \/ exists match_num group player_data,
                     In (match_num, group) groups
                     /\ In player_data group
                     /\ x = pair_key match_num player_data
                     /\ rejected group player_data = false)
  /\ (forall match_num group player_data,
        In (match_num, group) groups -> In player_data group ->
        In (pair_key match_num player_data) (applied_pairs (output st'))
        \/ exists w, warning_of group player_data = Some w
                     /\ In w (output st')).
Proof.
  induction groups as [|[match_num group] groups IH]; intros st st' Run Rec.
  - injection Run as <-. split; [exact Rec|].
    split; [exists []; now rewrite app_nil_r|].
    split; [auto|]. intros ? ? ? [].
  - simpl in Run.
    destruct (process_rows match_num group (emit st (MatchHeader match_num))
                group) as [st1|] eqn:E1; [|discriminate].
    simpl in Run.
    assert (Rec0 : pairs_on_record (emit st (MatchHeader match_num))).
    { unfold pairs_on_record, emit. simpl. intros x.
      rewrite in_applied_pairs_app. simpl. rewrite (Rec x). intuition. }
    destruct (process_rows_trace _ _ _ _ _ E1 Rec0)
      as (Rec1 & (added1 & Out1) & From1 & Seen1).
    destruct (IH st1 st' Run Rec1)
      as (Rec2 & (added2 & Out2) & From2 & Seen2).
    simpl in Out1.
    split; [exact Rec2|]. split; [|split].
    + exists ([MatchHeader match_num] ++ added1 ++ added2)%list.
      now rewrite Out2, Out1, !app_assoc.
    + intros x Hx. destruct (From2 x Hx) as [H1|(n & g & r & Hg & Hr & H)].
      * destruct (From1 x H1) as [H0|(r & Hr & H)].
        -- left. simpl in H0. apply in_applied_pairs_app in H0 as [H0|[]].
           exact H0.
        -- right. exists match_num, group, r. split; [now left|]. auto.
      * right. exists n, g, r. split; [now right|]. auto.
    + intros n g player_data [[= <- <-]|Hg] Hrow; [|now apply (Seen2 n g)].
      destruct (Seen1 player_data Hrow) as [App|(w & Hw & Hin)].
      * left. rewrite Out2. apply in_applied_pairs_app. now left.
      * right. exists w. split; [exact Hw|]. rewrite Out2.
        apply in_or_app. now left.
Qed.

Lemma groupby_group df match_num group :
  In (match_num, group) (groupby df) ->
  group = filter (in_group match_num) df.
Proof.
  unfold groupby. intros H. now apply in_map_iff in H as (n & [= -> <-] & _).
Qed.

Lemma in_group_number match_num row :
  in_group match_num row = true <-> r_match_num row = Some match_num.
Proof.
  unfold in_group. destruct (r_match_num row) as [m|].
  - rewrite Z.eqb_eq. split; congruence.
  - split; discriminate.
Qed.

(** A whole run: every applied update comes from a row of the cleaned frame
    that passes the checks in its group, and every row of a group has the
    update of its pair applied or its own warning printed. *)
Lemma process_matches_trace self matches_df self' out :
  process_matches self matches_df = Some (self', out) ->
  (forall x, In x (applied_pairs out) ->
     exists row n,
       In row (cleaned matches_df) /\ r_match_num row = Some n
       /\ x = pair_key n row
       /\ rejected (filter (in_group n) (cleaned matches_df)) row = false)
  /\ (forall row n,
        In row (cleaned matches_df) -> r_match_num row = Some n ->
        In (pair_key n row) (applied_pairs out)
        \/ exists w,
             warning_of (filter (in_group n) (cleaned matches_df)) row
             = Some w
             /\ In w out).
Proof.
  unfold process_matches. fold (cleaned matches_df).
  destruct (cleaned matches_df) as [|row0 df] eqn:E.
  - simpl. intros [= <- <-]. split; [intros x []|intros ? ? []].
  - rewrite <- E.
    replace (List.length (cleaned matches_df) =? 0)%nat with false
      by (now rewrite E).
    destruct (process_groups (mkLoop self [] [])
                (groupby (cleaned matches_df))) as [st'|] eqn:Run;
      [|discriminate].
    simpl. intros [= <- <-].
    assert (Rec : pairs_on_record (mkLoop self [] [])).
    { intros x. simpl. split; [discriminate|intros []]. }
    destruct (process_groups_trace _ _ _ Run Rec)
      as (_ & _ & From & Seen).
    split.
    + intros x Hx. destruct (From x Hx) as [[]|(n & g & r & Hg & Hr & -> & Rej)].
      pose proof (groupby_group _ _ _ Hg) as ->.
      apply filter_In in Hr as [Hin Hn]. apply in_group_number in Hn.
      exists r, n. auto.
    + intros row n Hin Hn.
      destruct (groupby_in _ row n Hin Hn) as [Hg Hr].
      exact (Seen n _ row Hg Hr).
Qed.

(** ** The consistency check on results *)

Lemma contradictory_when_recognized (result opponent_result : string) :
  is_win result || is_loss result = true ->
  complementary result opponent_result = false ->
  contradictory_results result opponent_result = true.
Proof.
  unfold complementary, contradictory_results, is_win, is_loss.
  destruct (str_in result win_results), (str_in result lose_results),
           (str_in opponent_result win_results),
           (str_in opponent_result lose_results); simpl; congruence.
Qed.

Lemma not_contradictory_when_unrecognized (result opponent_result : string) :
  is_win result = false -> is_loss result = false ->
  contradictory_results result opponent_result = false.
Proof.
  unfold contradictory_results, is_win, is_loss. now intros -> ->.
Qed.

Lemma complementary_sym (result opponent_result : string) :
  complementary opponent_result result = complementary result opponent_result.
Proof.
  unfold complementary.
  destruct (is_win result), (is_loss result), (is_win opponent_result),
           (is_loss opponent_result); reflexivity.
Qed.

Lemma sorted_pair_inv (a b c d : string) :
  sorted_pair a b = sorted_pair c d ->
  a = c /\ b = d \/ a = d /\ b = c.
Proof.
  unfold sorted_pair.
  destruct (String.ltb b a), (String.ltb d c); intros [= -> ->]; auto.
Qed.

Lemma find_named (group : list match_row) (name : string)
    (player_data : match_row) :
  only_row_of_player group player_data ->
  r_name player_data = name ->
  find (fun r => (r_name r =? name)%string) group = Some player_data.
Proof.
  intros [Hin Only] <-.
  destruct (find (fun r => (r_name r =? r_name player_data)%string) group)
    as [r|] eqn:F.
  - apply find_some in F as [Hr E]. apply String.eqb_eq in E.
    now rewrite (Only r Hr E).
  - apply (find_none _ _ F) in Hin. now rewrite String.eqb_refl in Hin.
Qed.

(** The warning of a row whose opponent names the player back and whose
    result is a win or loss token that the opponent's result does not
    complement. *)
Lemma warning_of_contradiction group player_data opponent_data :
  find (fun r => (r_name r =? r_opponent player_data)%string) group
  = Some opponent_data ->
  r_opponent opponent_data = r_name player_data ->
  is_win (r_result player_data) || is_loss (r_result player_data) = true ->
  complementary (r_result player_data) (r_result opponent_data) = false ->
  warning_of group player_data
  = Some (WarnContradiction (r_name player_data) (r_opponent player_data)
            (r_result player_data) (r_result opponent_data))
  /\ rejected group player_data = true.
Proof.
  intros Found Back Rec NotCompl.
  pose proof (contradictory_when_recognized _ _ Rec NotCompl) as C.
  unfold warning_of, rejected.
  rewrite Found, Back, String.eqb_refl, C. split; reflexivity.
Qed.

(** No update is applied under a key all of whose rows are rejected, and
    each of these rows has its warning printed. *)
Lemma rejected_key_not_applied self matches_df self' out (key : match_pair) :
  process_matches self matches_df = Some (self', out) ->
  (forall row,
     In row (cleaned matches_df) -> r_match_num row = Some (fst key) ->
     pair_key (fst key) row = key ->
     rejected (filter (in_group (fst key)) (cleaned matches_df)) row = true) ->
  ~ In key (applied_pairs out)
  /\ forall row,
       In row (cleaned matches_df) -> r_match_num row = Some (fst key) ->
       pair_key (fst key) row = key ->
       exists w,
         warning_of (filter (in_group (fst key)) (cleaned matches_df)) row
         = Some w
         /\ In w out.
Proof.
  intros Run Rej.
  destruct (process_matches_trace _ _ _ _ Run) as [From Seen].
  assert (Not : ~ In key (applied_pairs out)).
  { intros Hin. destruct (From key Hin) as (row & n & Hrow & Hn & -> & Ok).
    simpl in Rej. rewrite (Rej row Hrow Hn eq_refl) in Ok. discriminate. }
  split; [exact Not|].
  intros row Hrow Hn Hkey.
  destruct (Seen row (fst key) Hrow Hn) as [App|W]; [|exact W].
  rewrite Hkey in App. contradiction.
Qed.

Lemma first_update_moves_player result cards_a cards_b self' new_ratings :
  update_ratings default_system "B" "A" result cards_a cards_b
  = Some (self', new_ratings) ->
  calculate_performance_score default_system result cards_a cards_b
  <> 1 / 2 ->
  rating_of self' "A" <> rating_of default_system "A".
Proof.
  intros Hup Score.
  destruct (update_ratings_spec default_system "B" "A" result cards_a cards_b
              default_system_well_formed)
    as (self'' & Hup' & Hrat & _).
  rewrite Hup in Hup'. injection Hup' as <- _.
  assert (Hne : "B" <> "A") by discriminate.
  destruct (updated_ratings_lookup self' "B" "A" _ _ _ Hne Hrat)
    as (_ & -> & _).
  unfold new_rating_b.
  replace (rating_of default_system "A") with 1500 by reflexivity.
  replace (rating_of default_system "B") with 1500 by reflexivity.
  rewrite expected_score_equal.
  replace (k_factor default_system) with 32 by reflexivity. lra.
Qed.

Lemma draw_score_on_unequal_cards (cards_a cards_b : Z) :
  (0 < cards_a + cards_b)%Z -> cards_a <> cards_b ->
  calculate_performance_score default_system "引き分け" cards_a cards_b
  <> 1 / 2.
Proof.
  intros Pos Ne. rewrite performance_score_unfold.
  replace (base_score_of "引き分け") with (1 / 2) by reflexivity.
  destruct (Z.eqb_spec cards_a cards_b) as [E|_]; [contradiction|].
  destruct (Z.ltb_spec 0 (cards_a + cards_b)) as [_|H]; [|lia].
  replace (card_weight default_system) with (3 / 10) by reflexivity.
  assert (T : 0 < IZR (cards_a + cards_b)) by now apply IZR_lt.
  assert (Ratio : IZR cards_a / IZR (cards_a + cards_b) <> 1 / 2).
  { intros E. apply Ne.
    assert (E2 : 2 * IZR cards_a = IZR (cards_a + cards_b)).
    { apply (Rmult_eq_compat_r (IZR (cards_a + cards_b))) in E.
      unfold Rdiv in E. rewrite Rmult_assoc, Rinv_l in E by lra. lra. }
    rewrite <- mult_IZR in E2. apply eq_IZR in E2. lia. }
  set (ratio := IZR cards_a / IZR (cards_a + cards_b)) in *.
  unfold clamp01.
  destruct (Rle_dec ((1 - 3 / 10) * (1 / 2) + 3 / 10 * ratio) 1) as [Le|Gt].
  - rewrite (Rmin_right _ _ Le).
    destruct (Rle_dec 0 ((1 - 3 / 10) * (1 / 2) + 3 / 10 * ratio))
      as [Ge|Lt].
    + rewrite (Rmax_right _ _ Ge). lra.
    + rewrite Rmax_left by lra. lra.
  - rewrite Rmin_left by lra. rewrite Rmax_right by lra. lra.
Qed.

(** C2, as stated, fails when a result is outside the token sets.  Two
    draws are not complementary, yet the pair passes the check, no warning
    is printed and the update is applied.  A win against a draw is not
    complementary either: the warning is printed at A's row, and the update
    is applied all the same, from B's row.  Both times A's rating moves. *)
Lemma unrecognized_result_is_applied :
  complementary "引き分け" "引き分け" = false
  /\ complementary "勝" "引き分け" = false
  /\ (exists self',
        process_matches default_system draw_match
        = Some (self', [MatchHeader 1; RatingUpdate 1 "A" "B" 10 7 "引き分け"])
        /\ rating_of self' "A" <> rating_of default_system "A")
  /\ exists self',
       process_matches default_system win_and_draw_match
       = Some (self', [MatchHeader 1; WarnContradiction "A" "B" "勝" "引き分け";
                       RatingUpdate 1 "B" "A" 7 10 "引き分け"])
       /\ rating_of self' "A" <> rating_of default_system "A".
Proof.
  split; [reflexivity|]. split; [reflexivity|]. split.
  - destruct (update_ratings_spec default_system "A" "B" "引き分け" 10 7
                default_system_well_formed)
      as (self' & Hup & Hrat & _).
    exists self'. split.
    + run_process_matches draw_match. run_update Hup. reflexivity.
    + assert (Hne : "A" <> "B") by discriminate.
      destruct (updated_ratings_lookup self' "A" "B" _ _ _ Hne Hrat)
        as (-> & _).
      unfold new_rating_a.
      replace (rating_of default_system "A") with 1500 by reflexivity.
      replace (rating_of default_system "B") with 1500 by reflexivity.
      rewrite expected_score_equal.
      pose proof (draw_score_on_unequal_cards 10 7) as Score.
      replace (k_factor default_system) with 32 by reflexivity.
      assert (calculate_performance_score default_system "引き分け" 10 7
              <> 1 / 2) by (apply Score; lia).
      lra.
  - destruct (update_ratings_spec default_system "B" "A" "引き分け" 7 10
                default_system_well_formed)
      as (self' & Hup & _).
    exists self'. split.
    + run_process_matches win_and_draw_match.
      cbn -[update_ratings default_system]. rewrite Hup. reflexivity.
    + apply (first_update_moves_player _ _ _ _ _ Hup).
      apply draw_score_on_unequal_cards; lia.
Qed.

(** C2, amended.  Take a row whose pair is not processed yet and whose
    opponent has a row in the group that names the player back.  If the
    player's result is a win or loss token and the two results are not
    complementary, the row is skipped with a warning, and the object and
    [processed_pairs] stay as they are: no update is applied from this row.
    If neither result is a win or loss token, the pair is not skipped and
    the update is applied, with 1/2 as the score that the result stands
    for.  For the pair as a whole: when the two rows are
    the only rows of the two players in their match, both results are win
    or loss tokens and they are not complementary, the run prints the
    warning for each of the two rows and applies no update for the pair. *)
Theorem result_check_on_recognized_results :
  (forall (match_num : Z) (group : list match_row) (st : loop_state)
          (player_data opponent_data : match_row),
     pair_in (pair_key match_num player_data) (processed_pairs st) = false ->
     find (fun r => (r_name r =? r_opponent player_data)%string) group
     = Some opponent_data ->
     r_opponent opponent_data = r_name player_data ->
     (is_win (r_result player_data) || is_loss (r_result player_data) = true ->
      complementary (r_result player_data) (r_result opponent_data) = false ->
      process_row match_num group st player_data
      = Some (mkLoop (ls_self st) (processed_pairs st)
                (output st
                 ++ [WarnContradiction (r_name player_data)
                       (r_opponent player_data) (r_result player_data)
                       (r_result opponent_data)])))
     /\ (is_win (r_result player_data) = false ->
         is_loss (r_result player_data) = false ->
         is_win (r_result opponent_data) = false ->
         is_loss (r_result opponent_data) = false ->
         well_formed (ls_self st) ->
         base_score_of (r_result player_data) = 1 / 2
         /\ exists self' new_ratings,
              update_ratings (ls_self st) (r_name player_data)
                (r_opponent player_data) (r_result player_data)
                (r_cards player_data) (r_cards opponent_data)
              = Some (self', new_ratings)
              /\ process_row match_num group st player_data
                 = Some (mkLoop self'
                           (pair_add (pair_key match_num player_data)
                                     (processed_pairs st))
                           (output st
                            ++ [RatingUpdate match_num (r_name player_data)
                                  (r_opponent player_data)
                                  (r_cards player_data)
                                  (r_cards opponent_data)
                                  (r_result player_data)]))))
  /\ forall (self : HyakuninisshuRating) (matches_df : list raw_row)
            (match_num : Z) (player_data opponent_data : match_row),
       well_formed self ->
       only_row_of_player
         (filter (in_group match_num) (cleaned matches_df)) player_data ->
       only_row_of_player
         (filter (in_group match_num) (cleaned matches_df)) opponent_data ->
       r_opponent player_data = r_name opponent_data ->
       r_opponent opponent_data = r_name player_data ->
       is_win (r_result player_data) || is_loss (r_result player_data)
       = true ->
       is_win (r_result opponent_data) || is_loss (r_result opponent_data)
       = true ->
       complementary (r_result player_data) (r_result opponent_data)
       = false ->
       exists self' out,
         process_matches self matches_df = Some (self', out)
         /\ ~ In (pair_key match_num player_data) (applied_pairs out)
         /\ In (WarnContradiction (r_name player_data)
                  (r_opponent player_data) (r_result player_data)
                  (r_result opponent_data)) out
         /\ In (WarnContradiction (r_name opponent_data)
                  (r_opponent opponent_data) (r_result opponent_data)
                  (r_result player_data)) out.
Proof.
  split.
  - intros match_num group st player_data opponent_data Seen Found Back.
    split.
    + intros Rec NotCompl.
      pose proof (contradictory_when_recognized _ _ Rec NotCompl) as C.
      unfold contradictory_results in C.
      unfold process_row. fold (pair_key match_num player_data).
      rewrite Seen, Found, Back, String.eqb_refl.
      change (negb true) with false. cbv iota.
      rewrite C. reflexivity.
    + intros W L _ _ WF.
      pose proof (not_contradictory_when_unrecognized
                    (r_result player_data) (r_result opponent_data) W L) as C.
      unfold contradictory_results in C.
      destruct (update_ratings_spec (ls_self st) (r_name player_data)
                  (r_opponent player_data) (r_result player_data)
                  (r_cards player_data) (r_cards opponent_data) WF)
        as (self' & Hup & _).
      split; [unfold base_score_of; now rewrite W, L|].
      eexists self', _. split; [exact Hup|].
      unfold process_row. fold (pair_key match_num player_data).
      rewrite Seen, Found, Back, String.eqb_refl.
      change (negb true) with false. cbv iota.
      rewrite C, Hup. reflexivity.
  - intros self matches_df match_num player_data opponent_data WF
      OnlyP OnlyO OppP OppO RecP RecO NotCompl.
    set (group := filter (in_group match_num) (cleaned matches_df)) in *.
    destruct (process_matches_well_formed self matches_df WF)
      as (self' & out & Run & _).
    exists self', out. split; [exact Run|].
    pose proof (find_named group _ _ OnlyO (eq_sym OppP)) as FindO.
    pose proof (find_named group _ _ OnlyP (eq_sym OppO)) as FindP.
    destruct (warning_of_contradiction group _ _ FindO OppO RecP NotCompl)
      as [WarnP RejP].
    rewrite <- complementary_sym in NotCompl.
    destruct (warning_of_contradiction group _ _ FindP OppP RecO NotCompl)
      as [WarnO RejO].
    assert (InP : In player_data (cleaned matches_df)
                  /\ r_match_num player_data = Some match_num).
    { destruct OnlyP as [Hin _]. apply filter_In in Hin as [Hin Hn].
      now apply in_group_number in Hn. }
    assert (InO : In opponent_data (cleaned matches_df)
                  /\ r_match_num opponent_data = Some match_num).
    { destruct OnlyO as [Hin _]. apply filter_In in Hin as [Hin Hn].
      now apply in_group_number in Hn. }
    assert (KeyO : pair_key match_num opponent_data
                   = pair_key match_num player_data).
    { unfold pair_key. now rewrite OppO, OppP, sorted_pair_sym. }
    destruct (rejected_key_not_applied self matches_df self' out
                (pair_key match_num player_data) Run)
      as [Not Warn].
    { simpl. fold group. intros row Hrow Hn Hkey.
      assert (Hg : In row group).
      { apply filter_In. split; [exact Hrow|]. now apply in_group_number. }
      unfold pair_key in Hkey. injection Hkey as Hkey.
      destruct (sorted_pair_inv _ _ _ _ Hkey) as [[Hname _]|[Hname _]].
      - destruct OnlyP as [_ Only]. now rewrite (Only row Hg Hname).
      - rewrite OppP in Hname.
        destruct OnlyO as [_ Only]. now rewrite (Only row Hg Hname). }
    split; [exact Not|]. simpl in Warn. fold group in Warn. split.
    + destruct (Warn player_data (proj1 InP) (proj2 InP) eq_refl)
        as (w & Hw & Hin).
      rewrite WarnP in Hw. now injection Hw as <-.
    + destruct (Warn opponent_data (proj1 InO) (proj2 InO) KeyO)
        as (w & Hw & Hin).
      rewrite WarnO in Hw. now injection Hw as <-.
Qed.

Lemma both_win_group_cleaned :
  filter (in_group 1) (cleaned both_win_match) = both_win_group.
Proof. reflexivity. Qed.

Lemma result_check_on_recognized_results_witness :
  (pair_in (pair_key 1 both_win_a) (processed_pairs start_state) = false
   /\ find (fun r => (r_name r =? r_opponent both_win_a)%string)
           both_win_group
      = Some both_win_b
   /\ r_opponent both_win_b = r_name both_win_a
   /\ is_win (r_result both_win_a) || is_loss (r_result both_win_a) = true
   /\ complementary (r_result both_win_a) (r_result both_win_b) = false
   /\ process_row 1 both_win_group start_state both_win_a
      = Some (mkLoop default_system [] [WarnContradiction "A" "B" "勝" "勝"]))
  /\ well_formed default_system
  /\ only_row_of_player (filter (in_group 1) (cleaned both_win_match))
       both_win_a
  /\ only_row_of_player (filter (in_group 1) (cleaned both_win_match))
       both_win_b
  /\ is_win (r_result both_win_b) || is_loss (r_result both_win_b) = true
  /\ exists self' out,
       process_matches default_system both_win_match = Some (self', out)
       /\ ~ In (1%Z, ("A", "B")) (applied_pairs out)
       /\ In (WarnContradiction "A" "B" "勝" "勝") out
       /\ In (WarnContradiction "B" "A" "勝" "勝") out.
Proof.
  assert (OnlyA : only_row_of_player
                    (filter (in_group 1) (cleaned both_win_match))
                    both_win_a).
  { rewrite both_win_group_cleaned. split; [now left|].
    intros r [<-|[<-|[]]]; [reflexivity|discriminate]. }
  assert (OnlyB : only_row_of_player
                    (filter (in_group 1) (cleaned both_win_match))
                    both_win_b).
  { rewrite both_win_group_cleaned. split; [right; now left|].
    intros r [<-|[<-|[]]]; [discriminate|reflexivity]. }
  split.
  - do 5 (split; [reflexivity|]).
    apply (proj1 result_check_on_recognized_results 1%Z both_win_group
             start_state both_win_a both_win_b);
      reflexivity.
  - split; [exact default_system_well_formed|].
    split; [exact OnlyA|]. split; [exact OnlyB|].
    split; [reflexivity|].
    exact (proj2 result_check_on_recognized_results default_system
             both_win_match 1%Z both_win_a both_win_b
             default_system_well_formed OnlyA OnlyB eq_refl eq_refl
             eq_refl eq_refl eq_refl).
Defined.

(** ** Rejected pairs *)








Example mismatched_match_output :
  process_matches default_system mismatched_match
  = Some (default_system,
          [MatchHeader 3; WarnOpponentMismatch "P" "O" "Q";
           WarnOpponentMissing "O" "Q"]).
Proof. run_process_matches mismatched_match. reflexivity. Qed.

(** ** Loading a checkpoint *)

Lemma load_previous_ratings_unreadable self :
  load_previous_ratings self None = (self, [PreviousLoadError; StartingFresh]).
Proof. reflexivity. Qed.

Lemma load_rows_good self rows :
  forallb row_converts rows = true -> snd (load_rows self rows) = true.
Proof.
  revert self. induction rows as [|row rows IH]; intros self; simpl; auto.
  unfold row_converts at 1.
  destruct (ck_rating row), (ck_wins row), (ck_losses row); simpl;
    try discriminate.
  apply IH.
Qed.

(** The rows in front of the first malformed row are loaded, the rows behind
    it are not looked at. *)
Lemma load_rows_stops_at_malformed self good bad rest :
  forallb row_converts good = true -> row_converts bad = false ->
  load_rows self (good ++ bad :: rest)%list
  = (fst (load_rows self good), false).
Proof.
  revert self. induction good as [|row good IH]; intros self Hgood Hbad.
  - simpl. unfold row_converts in Hbad.
    destruct (ck_rating bad), (ck_wins bad), (ck_losses bad);
      try reflexivity; discriminate.
  - simpl in *. apply andb_true_iff in Hgood as [Hrow Hgood].
    unfold row_converts in Hrow.
    destruct (ck_rating row), (ck_wins row), (ck_losses row);
      try discriminate.
    now apply IH.
Qed.

Lemma load_rows_well_formed self rows :
  well_formed self -> well_formed (fst (load_rows self rows)).
Proof.
  revert self. induction rows as [|row rows IH]; intros self WF; simpl.
  - exact WF.
  - destruct (ck_rating row), (ck_wins row), (ck_losses row); simpl;
      try exact WF.
    apply IH. intros player. simpl. rewrite !DictFacts.mem_set.
    now rewrite WF.
Qed.

(** C1 fails on the code.  Loading a checkpoint whose second row is
    malformed into the empty store reports the failure, but the first row
    stays loaded: player A is in the store with rating 1600 and 3 wins and
    1 loss, so the store is neither unmodified nor empty. *)
Theorem load_previous_ratings_keeps_rows_before_failure :
  snd (load_previous_ratings default_system (Some checkpoint_bad_second_row))
  = [LoadingPrevious; PreviousLoadError; StartingFresh]
  /\ Dict.get "A"
       (player_ratings
          (fst (load_previous_ratings default_system
                  (Some checkpoint_bad_second_row))))
     = Some 1600
  /\ Dict.get "A"
       (player_stats
          (fst (load_previous_ratings default_system
                  (Some checkpoint_bad_second_row))))
     = Some (mkStats 3 1)
  /\ Dict.get "A" (player_ratings default_system) = None
  /\ fst (load_previous_ratings default_system
            (Some checkpoint_bad_second_row))
     <> default_system.
Proof.
  repeat split.
  intros H. apply (f_equal player_ratings) in H. discriminate H.
Qed.

(** ** Further properties of the two score functions *)

Lemma expected_score_increasing (a a' b : R) :
  a <= a' -> calculate_expected_score a b <= calculate_expected_score a' b.
Proof.
  intros H. unfold calculate_expected_score.
  pose proof (Rpower_10_pos ((b - a) / 400)) as Hp.
  pose proof (Rpower_10_pos ((b - a') / 400)) as Hp'.
  assert (Hle : Rpower 10 ((b - a') / 400) <= Rpower 10 ((b - a) / 400))
    by (apply Rle_Rpower; lra).
  unfold Rdiv at 1 3. rewrite !Rmult_1_l.
  apply Rinv_le_contravar; lra.
Qed.

(** X1.  The expected score lies strictly between 0 and 1, grows with the
    player's own rating and falls with the opponent's. *)
Theorem expected_score_monotone :
  forall a a' b b' : R,
    0 < calculate_expected_score a b < 1
    /\ (a <= a' ->
        calculate_expected_score a b <= calculate_expected_score a' b)
    /\ (b <= b' ->
        calculate_expected_score a b' <= calculate_expected_score a b).
Proof.
  intros a a' b b'. split; [apply expected_score_bounds|].
  split; [apply expected_score_increasing|].
  intros H. rewrite (expected_score_complement b' a).
  rewrite (expected_score_complement b a).
  pose proof (expected_score_increasing b b' a H). lra.
Qed.

Lemma expected_score_monotone_witness :
  1500 <= 1600
  /\ calculate_expected_score 1500 1500 <= calculate_expected_score 1600 1500.
Proof.
  split; [lra|].
  apply (expected_score_monotone 1500 1600 1500 1500). lra.
Defined.

Lemma performance_score_bounds self result cards_won cards_lost :
  0 <= calculate_performance_score self result cards_won cards_lost <= 1.
Proof.
  rewrite performance_score_unfold.
  destruct (cards_won =? cards_lost)%Z;
    [apply base_score_bounds | apply clamp01_bounds].
Qed.

Lemma card_ratio_bounds (cards_won cards_lost : Z) :
  (0 <= cards_won)%Z -> (0 <= cards_lost)%Z ->
  (0 < cards_won + cards_lost)%Z ->
  0 <= IZR cards_won / IZR (cards_won + cards_lost) <= 1.
Proof.
  intros Hw Hl Ht.
  assert (T : 0 < IZR (cards_won + cards_lost)) by now apply IZR_lt.
  assert (W : 0 <= IZR cards_won) by now apply IZR_le.
  assert (L : IZR cards_won <= IZR (cards_won + cards_lost))
    by (apply IZR_le; lia).
  split.
  - apply Rmult_le_pos; [exact W|]. left. now apply Rinv_0_lt_compat.
  - apply (Rmult_le_reg_r (IZR (cards_won + cards_lost))); [exact T|].
    unfold Rdiv. rewrite Rmult_assoc, Rinv_l by lra. lra.
Qed.

Lemma is_loss_not_win (result : string) :
  is_loss result = true -> is_win result = false.
Proof.
  unfold is_win, is_loss, str_in. simpl.
  rewrite !orb_false_r, !orb_true_iff, !String.eqb_eq.
  intros [L|[L|L]]; subst; reflexivity.
Qed.

(** X2.  For card counts that are not negative and a card weight with
    0 < weight <= 1, a win scores the full 1 exactly when the two card counts
    are equal or the opponent took no card, and a loss scores 0 exactly when
    the two card counts are equal or the player took no card. *)
Theorem performance_extreme_scores :
  forall (self : HyakuninisshuRating) (result : string)
         (cards_won cards_lost : Z),
    0 < card_weight self <= 1 ->
    (0 <= cards_won)%Z -> (0 <= cards_lost)%Z ->
    (is_win result = true ->
     (calculate_performance_score self result cards_won cards_lost = 1
      <-> cards_won = cards_lost \/ cards_lost = 0%Z))
    /\ (is_loss result = true ->
        (calculate_performance_score self result cards_won cards_lost = 0
         <-> cards_won = cards_lost \/ cards_won = 0%Z)).
Proof.
  intros self result won lost Hw Hwon Hlost.
  rewrite performance_score_unfold. unfold base_score_of.
  destruct (Z.eqb_spec won lost) as [Heq|Hne].
  - split; intros H; [rewrite H | rewrite (is_loss_not_win _ H), H];
      split; auto.
  - assert (Ht : (0 < won + lost)%Z) by lia.
    destruct (Z.ltb_spec 0 (won + lost)) as [_|]; [|lia].
    pose proof (card_ratio_bounds won lost Hwon Hlost Ht) as Hr.
    set (ratio := IZR won / IZR (won + lost)) in *.
    assert (T : 0 < IZR (won + lost)) by now apply IZR_lt.
    assert (Ratio : ratio * IZR (won + lost) = IZR won).
    { unfold ratio, Rdiv. rewrite Rmult_assoc, Rinv_l by lra. lra. }
    split; intros H; [rewrite H | rewrite (is_loss_not_win _ H), H].
    + rewrite clamp01_id by nra. split.
      * intros E. right. assert (R1 : ratio = 1) by nra.
        rewrite R1, Rmult_1_l in Ratio. apply eq_IZR in Ratio. lia.
      * intros [E|E]; [contradiction|]. subst lost.
        assert (R1 : ratio = 1).
        { unfold ratio. rewrite Z.add_0_r. field.
          rewrite Z.add_0_r in T. lra. }
        rewrite R1. lra.
    + rewrite clamp01_id by nra. split.
      * intros E. right. assert (R0 : ratio = 0) by nra.
        rewrite R0, Rmult_0_l in Ratio.
        symmetry in Ratio. now apply eq_IZR in Ratio.
      * intros [E|E]; [contradiction|]. subst won.
        unfold ratio. unfold Rdiv. rewrite Rmult_0_l. lra.
Qed.

Lemma performance_extreme_scores_witness :
  0 < card_weight default_system <= 1
  /\ (0 <= 17)%Z /\ (0 <= 0)%Z /\ is_win "勝" = true
  /\ calculate_performance_score default_system "勝" 17 0 = 1.
Proof.
  assert (W : 0 < card_weight default_system <= 1) by (simpl; lra).
  split; [exact W|]. split; [lia|]. split; [lia|]. split; [reflexivity|].
  apply (performance_extreme_scores default_system "勝" 17 0 W);
    [lia | lia | reflexivity | right; reflexivity].
Defined.

(** X3.  With card weight 0 the card counts play no part: the performance
    score is the base score of the result. *)
Theorem performance_zero_weight :
  forall (self : HyakuninisshuRating) (result : string)
         (cards_won cards_lost : Z),
    card_weight self = 0 ->
    calculate_performance_score self result cards_won cards_lost
    = base_score_of result.
Proof.
  intros self result won lost H. rewrite performance_score_unfold, H.
  destruct (won =? lost)%Z; [reflexivity|].
  rewrite clamp01_id; pose proof (base_score_bounds result); lra.
Qed.

Lemma performance_zero_weight_witness :
  card_weight (init 1500 32 0) = 0
  /\ calculate_performance_score (init 1500 32 0) "負" 12 5
     = base_score_of "負".
Proof.
  split; [reflexivity|].
  apply (performance_zero_weight (init 1500 32 0) "負" 12 5). reflexivity.
Defined.

(** ** Further properties of one rating update *)

Lemma score_gap_bounded (s e : R) : 0 <= s <= 1 -> 0 < e < 1 -> Rabs (s - e) <= 1.
Proof. intros Hs He. apply Rabs_le. lra. Qed.

(** X4.  One update moves neither rating by more than the K factor. *)
Theorem update_ratings_change_bounded :
  forall (self : HyakuninisshuRating) (player_a player_b result_a : string)
         (cards_a cards_b : Z),
    well_formed self ->
    exists self' new_a new_b,
      update_ratings self player_a player_b result_a cards_a cards_b
      = Some (self', (new_a, new_b))
      /\ Rabs (new_a - rating_of self player_a) <= Rabs (k_factor self)
      /\ Rabs (new_b - rating_of self player_b) <= Rabs (k_factor self).
Proof.
  intros self a b result_a cards_a cards_b WF.
  destruct (update_ratings_spec self a b result_a cards_a cards_b WF)
    as (self' & Hup & _).
  eexists self', _, _. split; [exact Hup|].
  pose proof (performance_score_bounds self result_a cards_a cards_b) as Hs.
  pose proof (expected_score_bounds (rating_of self a) (rating_of self b))
    as He.
  pose proof (score_gap_bounded _ _ Hs He) as Hgap.
  unfold new_rating_a, new_rating_b.
  set (s := calculate_performance_score self result_a cards_a cards_b) in *.
  set (e := calculate_expected_score (rating_of self a) (rating_of self b))
    in *.
  pose proof (Rabs_pos (k_factor self)) as Hk.
  split.
  - replace (rating_of self a + k_factor self * (s - e) - rating_of self a)
      with (k_factor self * (s - e)) by lra.
    rewrite Rabs_mult. nra.
  - replace (rating_of self b + k_factor self * (1 - s - (1 - e))
             - rating_of self b)
      with (k_factor self * - (s - e)) by lra.
    rewrite Rabs_mult, Rabs_Ropp. nra.
Qed.

Lemma update_ratings_change_bounded_witness :
  well_formed default_system
  /\ exists self' new_a new_b,
       update_ratings default_system "A" "B" "勝" 12 5
       = Some (self', (new_a, new_b))
       /\ Rabs (new_a - rating_of default_system "A")
          <= Rabs (k_factor default_system).
Proof.
  split; [exact default_system_well_formed|].
  destruct (update_ratings_change_bounded default_system "A" "B" "勝" 12 5
              default_system_well_formed)
    as (self' & new_a & new_b & Hup & Ha & _).
  exists self', new_a, new_b. split; [exact Hup|exact Ha].
Defined.

Lemma expected_score_favourite (a b : R) :
  400 <= a - b -> 10 / 11 <= calculate_expected_score a b.
Proof.
  intros H. unfold calculate_expected_score.
  assert (Hle : Rpower 10 ((b - a) / 400) <= Rpower 10 (- (1)))
    by (apply Rle_Rpower; lra).
  rewrite Rpower_Ropp, Rpower_1 in Hle by lra.
  pose proof (Rpower_10_pos ((b - a) / 400)) as Hp.
  set (p := Rpower 10 ((b - a) / 400)) in *.
  apply (Rmult_le_reg_r (1 + p)); [lra|].
  unfold Rdiv at 2. rewrite Rmult_1_l, Rinv_l by lra. lra.
Qed.

(** X5.  A result does not have to be a loss to cost rating points.  When A
    is rated at least 400 points above B and the K factor is positive, every
    result of A whose performance score is below 10/11 lowers A's rating and
    raises B's; with card weight 0.3 a win by 9 cards to 8 is such a
    result. *)
Theorem favourite_loses_rating_on_narrow_result :
  forall (self : HyakuninisshuRating) (player_a player_b result_a : string)
         (cards_a cards_b : Z),
    well_formed self -> player_a <> player_b -> 0 < k_factor self ->
    400 <= rating_of self player_a - rating_of self player_b ->
    calculate_performance_score self result_a cards_a cards_b < 10 / 11 ->
    exists self' new_ratings,
      update_ratings self player_a player_b result_a cards_a cards_b
      = Some (self', new_ratings)
      /\ rating_of self' player_a < rating_of self player_a
      /\ rating_of self player_b < rating_of self' player_b.
Proof.
  intros self a b result_a cards_a cards_b WF Hne Hk Hgap Hs.
  destruct (update_ratings_spec self a b result_a cards_a cards_b WF)
    as (self' & Hup & Hrat & _).
  eexists self', _. split; [exact Hup|].
  destruct (updated_ratings_lookup self' a b _ _ _ Hne Hrat)
    as (-> & -> & _).
  pose proof (expected_score_favourite _ _ Hgap) as He.
  unfold new_rating_a, new_rating_b. split; nra.
Qed.

Lemma load_previous_ratings_object self sheet :
  fst (load_previous_ratings self sheet)
  = match sheet with
    | Some ratings_df => fst (load_rows self ratings_df)
    | None => self
    end.
Proof.
  unfold load_previous_ratings. destruct sheet as [ratings_df|]; auto.
  now destruct (load_rows self ratings_df) as [self' []].
Qed.

Lemma load_previous_ratings_well_formed self sheet :
  well_formed self -> well_formed (fst (load_previous_ratings self sheet)).
Proof.
  intros WF. rewrite load_previous_ratings_object.
  destruct sheet; [now apply load_rows_well_formed|exact WF].
Qed.

Lemma favourite_system_well_formed : well_formed favourite_system.
Proof.
  apply load_previous_ratings_well_formed, default_system_well_formed.
Qed.

Lemma narrow_win_score :
  calculate_performance_score favourite_system "勝" 9 8 < 10 / 11.
Proof.
  rewrite performance_score_unfold.
  replace (base_score_of "勝") with 1 by reflexivity.
  replace (9 =? 8)%Z with false by reflexivity.
  replace (0 <? 9 + 8)%Z with true by reflexivity.
  replace (card_weight favourite_system) with (3 / 10) by reflexivity.
  replace (9 + 8)%Z with 17%Z by reflexivity.
  rewrite clamp01_id; lra.
Qed.

Lemma favourite_loses_rating_on_narrow_result_witness :
  well_formed favourite_system /\ "A" <> "B"
  /\ 0 < k_factor favourite_system
  /\ 400 <= rating_of favourite_system "A" - rating_of favourite_system "B"
  /\ is_win "勝" = true
  /\ calculate_performance_score favourite_system "勝" 9 8 < 10 / 11
  /\ exists self' new_ratings,
       update_ratings favourite_system "A" "B" "勝" 9 8
       = Some (self', new_ratings)
       /\ rating_of self' "A" < rating_of favourite_system "A"
       /\ rating_of favourite_system "B" < rating_of self' "B".
Proof.
  assert (K : 0 < k_factor favourite_system) by (simpl; lra).
  assert (G : 400 <= rating_of favourite_system "A"
                     - rating_of favourite_system "B").
  { replace (rating_of favourite_system "A") with 1900 by reflexivity.
    replace (rating_of favourite_system "B") with 1500 by reflexivity.
    lra. }
  assert (Hne : "A" <> "B") by discriminate.
  split; [exact favourite_system_well_formed|].
  split; [exact Hne|]. split; [exact K|]. split; [exact G|].
  split; [reflexivity|]. split; [exact narrow_win_score|].
  exact (favourite_loses_rating_on_narrow_result favourite_system
           "A" "B" "勝" 9 8 favourite_system_well_formed Hne K G
           narrow_win_score).
Defined.

Lemma stats_of_registered self player_a player_b q :
  well_formed self ->
  stats_of (register_player (register_player self player_a) player_b) q
  = stats_of self q.
Proof.
  intros WF.
  rewrite register_player_stats_of by now apply register_player_well_formed.
  now apply register_player_stats_of.
Qed.

Lemma registered_has_stats self player_a player_b :
  well_formed self ->
  let registered :=
    register_player (register_player self player_a) player_b in
  Dict.get player_a (player_stats registered) = Some (stats_of self player_a)
  /\ Dict.get player_b (player_stats registered)
     = Some (stats_of self player_b).
Proof.
  intros WF registered.
  assert (WF2 : well_formed registered)
    by (apply register_player_well_formed;
        now apply register_player_well_formed).
  rewrite <- !(stats_of_registered self player_a player_b) by assumption.
  fold registered. split; apply stored_stats; rewrite WF2.
  - apply register_player_mem_mono, register_player_mem.
  - apply register_player_mem.
Qed.

(** X6.  For two distinct players, a win token for A adds one win to A and
    one loss to B, a loss token adds one loss to A and one win to B, and the
    call leaves the rating and the record of every other player alone. *)
Theorem update_ratings_counters :
  forall (self : HyakuninisshuRating) (player_a player_b result_a : string)
         (cards_a cards_b : Z),
    well_formed self -> player_a <> player_b ->
    exists self' new_ratings,
      update_ratings self player_a player_b result_a cards_a cards_b
      = Some (self', new_ratings)
      /\ (is_win result_a = true ->
          stats_of self' player_a
          = mkStats (wins (stats_of self player_a) + 1)
                    (losses (stats_of self player_a))
          /\ stats_of self' player_b
             = mkStats (wins (stats_of self player_b))
                       (losses (stats_of self player_b) + 1))
      /\ (is_loss result_a = true ->
          stats_of self' player_a
          = mkStats (wins (stats_of self player_a))
                    (losses (stats_of self player_a) + 1)
          /\ stats_of self' player_b
             = mkStats (wins (stats_of self player_b) + 1)
                       (losses (stats_of self player_b)))
      /\ (forall other,
            other <> player_a -> other <> player_b ->
            rating_of self' other = rating_of self other
            /\ stats_of self' other = stats_of self other).
Proof.
  intros self a b result_a cards_a cards_b WF Hne.
  destruct (update_ratings_spec self a b result_a cards_a cards_b WF)
    as (self' & Hup & Hrat & Hrec & _ & Hinit & _).
  destruct (registered_has_stats self a b WF) as [Ga Gb].
  set (registered := register_player (register_player self a) b) in *.
  eexists self', _. split; [exact Hup|].
  rewrite record_result_unfold in Hrec.
  assert (Hab : b <> a) by congruence.
  split; [|split].
  - intros W. rewrite W in Hrec. unfold add_win in Hrec. rewrite Ga in Hrec.
    simpl in Hrec. unfold add_loss in Hrec.
    rewrite DictFacts.get_set_other, Gb in Hrec by assumption.
    injection Hrec as Hrec. split; unfold stats_of at 1; rewrite <- Hrec.
    + now rewrite DictFacts.get_set_other, DictFacts.get_set_same
        by assumption.
    + now rewrite DictFacts.get_set_same.
  - intros L. rewrite (is_loss_not_win _ L), L in Hrec.
    unfold add_loss in Hrec. rewrite Ga in Hrec.
    simpl in Hrec. unfold add_win in Hrec.
    rewrite DictFacts.get_set_other, Gb in Hrec by assumption.
    injection Hrec as Hrec. split; unfold stats_of at 1; rewrite <- Hrec.
    + now rewrite DictFacts.get_set_other, DictFacts.get_set_same
        by assumption.
    + now rewrite DictFacts.get_set_same.
  - intros other Ha Hb.
    assert (Ha' : a <> other) by congruence.
    assert (Hb' : b <> other) by congruence.
    split.
    + transitivity (rating_of registered other);
        [|unfold registered; now rewrite !register_player_rating_of].
      assert (Ireg : initial_rating registered = initial_rating self).
      { unfold registered.
        destruct (register_player_config (register_player self a) b)
          as (-> & _).
        now destruct (register_player_config self a) as (-> & _). }
      unfold rating_of. rewrite Hrat, Hinit, Ireg.
      now rewrite !DictFacts.get_set_other by assumption.
    + rewrite <- (stats_of_registered self a b other WF).
      fold registered. unfold stats_of.
      destruct (is_win result_a); [|destruct (is_loss result_a)].
      * unfold add_win in Hrec. rewrite Ga in Hrec. simpl in Hrec.
        unfold add_loss in Hrec.
        rewrite DictFacts.get_set_other, Gb in Hrec by assumption.
        injection Hrec as Hrec. rewrite <- Hrec.
        now rewrite !DictFacts.get_set_other by assumption.
      * unfold add_loss in Hrec. rewrite Ga in Hrec. simpl in Hrec.
        unfold add_win in Hrec.
        rewrite DictFacts.get_set_other, Gb in Hrec by assumption.
        injection Hrec as Hrec. rewrite <- Hrec.
        now rewrite !DictFacts.get_set_other by assumption.
      * injection Hrec as Hrec. now rewrite <- Hrec.
Qed.

Lemma update_ratings_counters_witness :
  well_formed default_system /\ "A" <> "B" /\ is_win "勝" = true
  /\ exists self' new_ratings,
       update_ratings default_system "A" "B" "勝" 12 5
       = Some (self', new_ratings)
       /\ stats_of self' "A" = mkStats 1 0
       /\ stats_of self' "B" = mkStats 0 1.
Proof.
  split; [exact default_system_well_formed|].
  split; [discriminate|]. split; [reflexivity|].
  destruct (update_ratings_counters default_system "A" "B" "勝" 12 5
              default_system_well_formed)
    as (self' & new_ratings & Hup & Hwin & _); [discriminate|].
  exists self', new_ratings. split; [exact Hup|].
  exact (Hwin eq_refl).
Defined.

(** ** [strip] *)

Lemma drop_spaces_clean backwards : forall n s,
  (List.length s <= n)%nat ->
  starts_with_space backwards (drop_spaces backwards s) = false.
Proof.
  induction n as [|n IH]; intros s Hlen.
  - destruct s; [reflexivity|simpl in Hlen; lia].
  - destruct s as [|c1 [|c2 [|c3 s3]]]; simpl in *.
    + reflexivity.
    + destruct (space1 c1) eqn:S1; simpl; [reflexivity|now rewrite S1].
    + destruct (space1 c1) eqn:S1.
      * apply (IH [c2]). simpl. lia.
      * destruct (if backwards then space2 c2 c1 else space2 c1 c2) eqn:S2;
          simpl; [reflexivity|now rewrite S1, S2].
    + destruct (space1 c1) eqn:S1.
      * apply (IH (c2 :: c3 :: s3)). simpl. lia.
      * destruct (if backwards then space2 c2 c1 else space2 c1 c2) eqn:S2.
        -- apply (IH (c3 :: s3)). simpl. lia.
        -- destruct (if backwards then space3 c3 c2 c1
                     else space3 c1 c2 c3) eqn:S3.
           ++ apply IH. lia.
           ++ simpl. now rewrite S1, S2, S3.
Qed.

Lemma clean_fixed backwards s :
  starts_with_space backwards s = false -> drop_spaces backwards s = s.
Proof.
  destruct s as [|c1 [|c2 [|c3 s3]]]; simpl; auto.
  - rewrite orb_false_r. now intros ->.
  - intros H. apply orb_false_iff in H as [-> H].
    rewrite orb_false_r in H. now rewrite H.
  - intros H. apply orb_false_iff in H as [-> H].
    apply orb_false_iff in H as [-> H]. now rewrite H.
Qed.

Lemma clean_prefix backwards t u :
  starts_with_space backwards (t ++ u)%list = false ->
  starts_with_space backwards t = false.
Proof.
  destruct t as [|c1 [|c2 [|c3 t3]]]; simpl; auto.
  - intros H. apply orb_false_iff in H as [-> _]. reflexivity.
  - intros H. apply orb_false_iff in H as [-> H].
    destruct u; simpl in *.
    + exact H.
    + apply orb_false_iff in H as [-> _]. reflexivity.
Qed.

Lemma drop_spaces_suffix backwards : forall n s,
  (List.length s <= n)%nat ->
  exists u, s = (u ++ drop_spaces backwards s)%list.
Proof.
  induction n as [|n IH]; intros s Hlen.
  - destruct s; [now exists []|simpl in Hlen; lia].
  - destruct s as [|c1 [|c2 [|c3 s3]]]; simpl in *.
    + now exists [].
    + destruct (space1 c1); [now exists [c1]|now exists []].
    + destruct (space1 c1).
      * destruct (IH [c2]) as (u & E); [simpl; lia|].
        exists (c1 :: u). simpl. f_equal. exact E.
      * destruct (if backwards then space2 c2 c1 else space2 c1 c2);
          [now exists [c1; c2]|now exists []].
    + destruct (space1 c1).
      * destruct (IH (c2 :: c3 :: s3)) as (u & E); [simpl; lia|].
        exists (c1 :: u). simpl. f_equal. exact E.
      * destruct (if backwards then space2 c2 c1 else space2 c1 c2).
        -- destruct (IH (c3 :: s3)) as (u & E); [simpl; lia|].
           exists (c1 :: c2 :: u). simpl. do 2 f_equal. exact E.
        -- destruct (if backwards then space3 c3 c2 c1
                     else space3 c1 c2 c3).
           ++ destruct (IH s3) as (u & E); [lia|].
              exists (c1 :: c2 :: c3 :: u). simpl. do 3 f_equal. exact E.
           ++ now exists [].
Qed.

(** What [strip] returns starts and ends with no space character. *)
Lemma strip_clean (s : string) :
  let t := list_ascii_of_string (strip s) in
  starts_with_space false t = false /\ starts_with_space true (rev t) = false.
Proof.
  unfold strip. cbv zeta. rewrite list_ascii_of_string_of_list_ascii.
  set (l := drop_spaces false (list_ascii_of_string s)).
  assert (Lclean : starts_with_space false l = false)
    by (apply (drop_spaces_clean false (List.length (list_ascii_of_string s)));
        lia).
  split.
  - destruct (drop_spaces_suffix true (List.length (rev l)) (rev l))
      as (u & E); [lia|].
    apply (f_equal (@rev ascii)) in E.
    rewrite rev_involutive, rev_app_distr in E.
    apply (clean_prefix false _ (rev u)). now rewrite <- E.
  - rewrite rev_involutive.
    apply (drop_spaces_clean true (List.length (rev l))). lia.
Qed.

(** X7.  [strip] is idempotent: a name that came out of [strip] is left as
    it is by another [strip], so the names under which [process_matches] and
    [load_previous_ratings] file a player agree. *)
Theorem strip_idempotent : forall s : string, strip (strip s) = strip s.
Proof.
  intros s. destruct (strip_clean s) as [Front Back].
  unfold strip at 1.
  rewrite (clean_fixed false _ Front), (clean_fixed true _ Back).
  now rewrite rev_involutive, string_of_list_ascii_of_string.
Qed.

(** ** Further properties of [load_previous_ratings] *)

Lemma load_rows_config self rows :
  initial_rating (fst (load_rows self rows)) = initial_rating self
  /\ k_factor (fst (load_rows self rows)) = k_factor self
  /\ card_weight (fst (load_rows self rows)) = card_weight self
  /\ match_history (fst (load_rows self rows)) = match_history self.
Proof.
  revert self. induction rows as [|row rows IH]; intros self; simpl; auto.
  destruct (ck_rating row), (ck_wins row), (ck_losses row); simpl; auto.
  match goal with
  | |- context [load_rows ?s rows] =>
      destruct (IH s) as (-> & -> & -> & ->)
  end.
  auto.
Qed.

Lemma load_rows_app self rows1 rows2 :
  forallb row_converts rows1 = true ->
  load_rows self (rows1 ++ rows2)%list
  = load_rows (fst (load_rows self rows1)) rows2.
Proof.
  revert self. induction rows1 as [|row rows1 IH]; intros self H; simpl.
  - reflexivity.
  - simpl in H. apply andb_true_iff in H as [Hrow H].
    unfold row_converts in Hrow.
    destruct (ck_rating row), (ck_wins row), (ck_losses row);
      try discriminate.
    now apply IH.
Qed.

(** Rows filed under other names leave a player's entries alone. *)
Lemma load_rows_other self rows player :
  ~ In player (map ck_name rows) ->
  Dict.get player (player_ratings (fst (load_rows self rows)))
  = Dict.get player (player_ratings self)
  /\ Dict.get player (player_stats (fst (load_rows self rows)))
     = Dict.get player (player_stats self).
Proof.
  revert self. induction rows as [|row rows IH]; intros self H; simpl; auto.
  simpl in H.
  destruct (ck_rating row), (ck_wins row), (ck_losses row); simpl; auto.
  match goal with
  | |- context [load_rows ?s rows] =>
      destruct (IH s) as [-> ->]; [tauto|]
  end.
  simpl. rewrite !DictFacts.get_set_other; auto;
    intros E; apply H; left; exact E.
Qed.

(** X8.  When every row of the sheet converts, the load succeeds and reports
    the number of rows; each row is then found under its trimmed name with
    its rating, wins and losses, unless a later row carries the same name (the
    later row wins); players that the sheet does not name keep what they had;
    and the configuration and the history are untouched. *)
Theorem load_previous_ratings_success :
  forall (self : HyakuninisshuRating) (ratings_df : list checkpoint_row),
    forallb row_converts ratings_df = true ->
    let self' := fst (load_previous_ratings self (Some ratings_df)) in
    snd (load_previous_ratings self (Some ratings_df))
    = [LoadingPrevious; PreviousLoaded (List.length ratings_df)]
    /\ (forall before row after rating wins losses,
          ratings_df = (before ++ row :: after)%list ->
          ~ In (ck_name row) (map ck_name after) ->
          ck_rating row = Some rating -> ck_wins row = Some wins ->
          ck_losses row = Some losses ->
          Dict.get (ck_name row) (player_ratings self') = Some rating
          /\ Dict.get (ck_name row) (player_stats self')
             = Some (mkStats wins losses))
    /\ (forall player,
          ~ In player (map ck_name ratings_df) ->
          Dict.get player (player_ratings self')
          = Dict.get player (player_ratings self)
          /\ Dict.get player (player_stats self')
             = Dict.get player (player_stats self))
    /\ initial_rating self' = initial_rating self
    /\ k_factor self' = k_factor self
    /\ card_weight self' = card_weight self
    /\ match_history self' = match_history self.
Proof.
  intros self ratings_df Conv self'.
  assert (Eself : self' = fst (load_rows self ratings_df))
    by apply load_previous_ratings_object.
  split.
  - unfold load_previous_ratings.
    pose proof (load_rows_good self ratings_df Conv) as G.
    destruct (load_rows self ratings_df) as [s ok]. simpl in G. now subst ok.
  - rewrite Eself. split; [|split; [now apply load_rows_other|
                                    apply load_rows_config]].
    intros before row after rating wins losses -> Last Hr Hw Hl.
    rewrite forallb_app in Conv. apply andb_true_iff in Conv as [Cb _].
    rewrite (load_rows_app self before (row :: after) Cb).
    simpl. rewrite Hr, Hw, Hl.
    match goal with
    | |- context [load_rows ?s after] =>
        destruct (load_rows_other s after (ck_name row) Last) as [-> ->]
    end.
    simpl. unfold ck_name. now rewrite !DictFacts.get_set_same.
Qed.

Lemma load_previous_ratings_success_witness :
  forallb row_converts
    [mkCheckpointRow " A " (Some 1600) (Some 3%Z) (Some 1%Z)] = true
  /\ Dict.get "A"
       (player_ratings
          (fst (load_previous_ratings default_system
                  (Some [mkCheckpointRow " A " (Some 1600) (Some 3%Z)
                                         (Some 1%Z)]))))
     = Some 1600.
Proof.
  split; [reflexivity|].
  apply (proj1 (proj2 (load_previous_ratings_success default_system
                  [mkCheckpointRow " A " (Some 1600) (Some 3%Z) (Some 1%Z)]
                  eq_refl))
           [] (mkCheckpointRow " A " (Some 1600) (Some 3%Z) (Some 1%Z)) []
           1600 3%Z 1%Z eq_refl (fun H => H) eq_refl eq_refl eq_refl).
Defined.

(** X9.  When a row does not convert, the rows in front of it stay loaded and
    the rows behind it are not read: the object is the one that loading the
    rows in front alone gives, and the error and the fresh-start line are
    printed. *)
Theorem load_previous_ratings_failure :
  forall (self : HyakuninisshuRating) (good : list checkpoint_row)
         (bad : checkpoint_row) (rest : list checkpoint_row),
    forallb row_converts good = true -> row_converts bad = false ->
    load_previous_ratings self (Some (good ++ bad :: rest)%list)
    = (fst (load_previous_ratings self (Some good)),
       [LoadingPrevious; PreviousLoadError; StartingFresh]).
Proof.
  intros self good bad rest Hgood Hbad.
  rewrite load_previous_ratings_object. unfold load_previous_ratings.
  now rewrite (load_rows_stops_at_malformed self good bad rest Hgood Hbad).
Qed.

Lemma load_previous_ratings_failure_witness :
  forallb row_converts
    [mkCheckpointRow "A" (Some 1600) (Some 3%Z) (Some 1%Z)] = true
  /\ row_converts (mkCheckpointRow "B" None (Some 0%Z) (Some 0%Z)) = false
  /\ load_previous_ratings default_system (Some checkpoint_bad_second_row)
     = (fst (load_previous_ratings default_system
               (Some [mkCheckpointRow "A" (Some 1600) (Some 3%Z)
                                      (Some 1%Z)])),
        [LoadingPrevious; PreviousLoadError; StartingFresh]).
Proof.
  split; [reflexivity|]. split; [reflexivity|].
  apply (load_previous_ratings_failure default_system
           [mkCheckpointRow "A" (Some 1600) (Some 3%Z) (Some 1%Z)]
           (mkCheckpointRow "B" None (Some 0%Z) (Some 0%Z)) []);
    reflexivity.
Defined.

(** ** The ratings table *)

Lemma insert_by_rating_perm x l : Permutation (insert_by_rating x l) (x :: l).
Proof.
  induction l as [|y l IH]; simpl; [reflexivity|].
  destruct (Rle_dec (snd y) (snd x)); [reflexivity|].
  rewrite IH. apply perm_swap.
Qed.

Lemma sorted_by_rating_perm items : Permutation (sorted_by_rating items) items.
Proof.
  induction items as [|x items IH]; simpl; [reflexivity|].
  rewrite insert_by_rating_perm. now constructor.
Qed.

Lemma insert_by_rating_sorted x l :
  StronglySorted rating_desc l ->
  StronglySorted rating_desc (insert_by_rating x l).
Proof.
  induction 1 as [|y l Sorted IH Low]; simpl.
  - repeat constructor.
  - destruct (Rle_dec (snd y) (snd x)) as [Hle|Hgt].
    + constructor; [now constructor|].
      constructor; [exact Hle|].
      rewrite Forall_forall in *. intros z Hz. specialize (Low z Hz).
      unfold rating_desc in *. lra.
    + constructor; [exact IH|].
      rewrite Forall_forall in *. intros z Hz.
      apply (Permutation_in _ (insert_by_rating_perm x l)) in Hz.
      destruct Hz as [<-|Hz]; [unfold rating_desc; lra|auto].
Qed.

Lemma sorted_by_rating_sorted items :
  StronglySorted rating_desc (sorted_by_rating items).
Proof.
  induction items as [|x items IH]; simpl; [constructor|].
  now apply insert_by_rating_sorted.
Qed.

(** A list that is in descending order already is returned as it is. *)
Lemma sorted_by_rating_id items :
  StronglySorted rating_desc items -> sorted_by_rating items = items.
Proof.
  induction 1 as [|x l Sorted IH Low]; simpl; [reflexivity|].
  rewrite IH. destruct l as [|y l]; simpl; [reflexivity|].
  apply Forall_inv in Low. unfold rating_desc in Low.
  destruct (Rle_dec (snd y) (snd x)); [reflexivity|contradiction].
Qed.

Lemma insert_by_rating_filter v x l :
  filter (has_rating v) (insert_by_rating x l)
  = filter (has_rating v) (x :: l).
Proof.
  induction l as [|y l IH]; simpl; [reflexivity|].
  destruct (Rle_dec (snd y) (snd x)) as [Hle|Hgt]; [reflexivity|].
  simpl. rewrite IH. simpl. unfold has_rating.
  destruct (Req_dec_T (snd x) v), (Req_dec_T (snd y) v); try reflexivity.
  exfalso. apply Hgt. lra.
Qed.

Lemma sorted_by_rating_filter v items :
  filter (has_rating v) (sorted_by_rating items) = filter (has_rating v) items.
Proof.
  induction items as [|x items IH]; simpl; [reflexivity|].
  rewrite insert_by_rating_filter. simpl. now rewrite IH.
Qed.

Lemma ratings_list_items player_stats items table :
  ratings_list player_stats items = Some table ->
  map table_item table = items
  /\ Forall (fun r => Dict.get (t_player r) player_stats
                      = Some (mkStats (t_wins r) (t_losses r))) table.
Proof.
  revert table. induction items as [|[player rating] items IH];
    intros table; simpl.
  - intros [= <-]. split; constructor.
  - destruct (Dict.get player player_stats) as [st|] eqn:G; [|discriminate].
    simpl. destruct (ratings_list player_stats items) as [rest|];
      [|discriminate].
    simpl. intros [= <-]. destruct (IH rest eq_refl) as [E F].
    split.
    + simpl. unfold table_item at 1. simpl. now rewrite E.
    + constructor; [|exact F]. simpl. rewrite G. now destruct st.
Qed.

Lemma ratings_list_some player_stats items :
  (forall x, In x items -> Dict.mem (fst x) player_stats = true) ->
  exists table, ratings_list player_stats items = Some table.
Proof.
  induction items as [|[player rating] items IH]; intros H; simpl.
  - now exists [].
  - destruct (DictFacts.mem_get player_stats player) as [st ->].
    { apply (H (player, rating)). now left. }
    destruct IH as [rest ->]; [intros x Hx; apply H; now right|].
    simpl. eauto.
Qed.

Lemma in_dict_mem {V : Type} (d : Dict.t V) k v :
  In (k, v) d -> Dict.mem k d = true.
Proof.
  unfold Dict.mem. induction d as [|[k' v'] d IH]; simpl; [intros []|].
  intros [[= -> ->]|H].
  - now rewrite String.eqb_refl.
  - destruct (String.eqb k k'); [reflexivity|auto].
Qed.

Lemma table_desc_sorted table :
  StronglySorted rating_desc (map table_item table) ->
  StronglySorted table_desc table.
Proof.
  induction table as [|r table IH]; simpl; intros H; [constructor|].
  apply StronglySorted_inv in H as [Hs Hf].
  constructor; [auto|].
  rewrite Forall_forall in *. intros r' Hr'.
  apply (Hf (table_item r')). now apply in_map.
Qed.

Lemma ratings_table_spec self :
  well_formed self ->
  exists table,
    get_ratings_table self = Some table
    /\ StronglySorted table_desc table
    /\ Permutation (map table_item table) (player_ratings self)
    /\ Forall (fun r => Dict.get (t_player r) (player_stats self)
                        = Some (mkStats (t_wins r) (t_losses r))) table.
Proof.
  intros WF. unfold get_ratings_table.
  destruct (ratings_list_some (player_stats self)
              (sorted_by_rating (player_ratings self))) as [table E].
  { intros [k v] Hx. simpl. rewrite WF.
    apply (in_dict_mem _ k v).
    now apply (Permutation_in _ (sorted_by_rating_perm _)). }
  exists table. split; [exact E|].
  destruct (ratings_list_items _ _ _ E) as [Items Stats].
  split; [|split; [|exact Stats]].
  - apply table_desc_sorted. rewrite Items. apply sorted_by_rating_sorted.
  - rewrite Items. apply sorted_by_rating_perm.
Qed.

(** X10.  On a well-formed object the ratings table is produced; it is in
    descending order of rating, it has one row for every entry of the
    rating dictionary and no other row, and every row carries the wins and
    losses recorded for its player. *)
Theorem ratings_table_sorted_and_complete :
  forall self : HyakuninisshuRating,
    well_formed self ->
    exists table,
      get_ratings_table self = Some table
      /\ StronglySorted table_desc table
      /\ Permutation (map table_item table) (player_ratings self)
      /\ Forall (fun r => Dict.get (t_player r) (player_stats self)
                          = Some (mkStats (t_wins r) (t_losses r))) table.
Proof. exact ratings_table_spec. Qed.

Lemma ratings_table_sorted_and_complete_witness :
  well_formed favourite_system
  /\ exists table,
       get_ratings_table favourite_system = Some table
       /\ StronglySorted table_desc table
       /\ Permutation (map table_item table)
                      (player_ratings favourite_system).
Proof.
  split; [exact favourite_system_well_formed|].
  destruct (ratings_table_sorted_and_complete favourite_system
              favourite_system_well_formed)
    as (table & E & S & P & _).
  exists table. auto.
Defined.

(** X11.  The ratings table keeps ties in the order of the dictionary: for
    every rating value, the players of the table with that rating follow
    each other as they do in [player_ratings]. *)
Theorem ratings_table_stable :
  forall (self : HyakuninisshuRating) (table : list table_row) (v : R),
    get_ratings_table self = Some table ->
    filter (has_rating v) (map table_item table)
    = filter (has_rating v) (player_ratings self).
Proof.
  intros self table v E. unfold get_ratings_table in E.
  destruct (ratings_list_items _ _ _ E) as [-> _].
  apply sorted_by_rating_filter.
Qed.

Lemma ratings_table_stable_witness :
  exists table,
    get_ratings_table favourite_system = Some table
    /\ filter (has_rating 1500) (map table_item table)
       = filter (has_rating 1500) (player_ratings favourite_system).
Proof.
  destruct (ratings_table_spec favourite_system favourite_system_well_formed)
    as (table & E & _).
  exists table. split; [exact E|].
  exact (ratings_table_stable favourite_system table 1500 E).
Defined.

(** ** Saving the table and loading it again *)

Lemma get_none_not_in {V : Type} (d : Dict.t V) k :
  Dict.get k d = None <-> ~ In k (Dict.keys d).
Proof.
  unfold Dict.keys. induction d as [|[k' v'] d IH]; simpl.
  - tauto.
  - destruct (String.eqb_spec k k') as [->|Hne].
    + split; [discriminate|intros H; exfalso; apply H; now left].
    + rewrite IH. split; [intros H [E|E]; congruence|tauto].
Qed.

Lemma set_absent {V : Type} (d : Dict.t V) k v :
  Dict.get k d = None -> Dict.set k v d = (d ++ [(k, v)])%list.
Proof.
  induction d as [|[k' v'] d IH]; simpl; [reflexivity|].
  destruct (String.eqb k k'); [discriminate|].
  intros H. now rewrite IH.
Qed.

Lemma get_in_iff {V : Type} (d : Dict.t V) k v :
  NoDup (Dict.keys d) -> (Dict.get k d = Some v <-> In (k, v) d).
Proof.
  unfold Dict.keys. induction d as [|[k' v'] d IH]; simpl; intros ND.
  - split; [discriminate|intros []].
  - apply NoDup_cons_iff in ND as [Hnot ND].
    destruct (String.eqb_spec k k') as [->|Hne].
    + split.
      * intros [= ->]. now left.
      * intros [[= ->]|Hin]; [reflexivity|].
        exfalso. apply Hnot. apply (in_map fst) in Hin. exact Hin.
    + rewrite (IH ND). split; [now right|].
      intros [[= E _]|Hin]; [congruence|exact Hin].
Qed.

Lemma get_permutation {V : Type} (d1 d2 : Dict.t V) k :
  NoDup (Dict.keys d1) -> Permutation d1 d2 ->
  Dict.get k d1 = Dict.get k d2.
Proof.
  intros ND P.
  assert (ND2 : NoDup (Dict.keys d2)).
  { unfold Dict.keys in *.
    apply (Permutation_NoDup (Permutation_map fst P) ND). }
  destruct (Dict.get k d1) as [v|] eqn:G1.
  - symmetry. apply (get_in_iff d2 k v ND2).
    apply (Permutation_in _ P). now apply (get_in_iff d1 k v ND).
  - destruct (Dict.get k d2) as [v|] eqn:G2; [|reflexivity].
    apply (get_in_iff d2 k v ND2) in G2.
    apply (Permutation_in _ (Permutation_sym P)) in G2.
    apply (get_in_iff d1 k v ND) in G2. congruence.
Qed.

(** Loading the saved sheet into a store that has none of its players
    appends the rows to the two dictionaries, in the order of the sheet. *)
Lemma load_saved_sheet table : forall self,
  NoDup (map t_player table) ->
  Forall (fun r => strip (t_player r) = t_player r) table ->
  (forall r, In r table ->
     Dict.get (t_player r) (player_ratings self) = None
     /\ Dict.get (t_player r) (player_stats self) = None) ->
  player_ratings (fst (load_rows self (saved_ratings_sheet table)))
  = (player_ratings self ++ map table_item table)%list
  /\ player_stats (fst (load_rows self (saved_ratings_sheet table)))
     = (player_stats self ++ map table_stats table)%list.
Proof.
  induction table as [|r table IH]; intros self ND Str Fresh; simpl.
  - now rewrite !app_nil_r.
  - apply NoDup_cons_iff in ND as [Hnot ND].
    apply Forall_cons_iff in Str as [Sr Str].
    destruct (Fresh r (or_introl eq_refl)) as [Gr Gs].
    rewrite Sr.
    match goal with
    | |- context [load_rows ?s (saved_ratings_sheet table)] =>
        destruct (IH s ND Str) as [-> ->]
    end.
    + intros r' Hr'. simpl.
      assert (Hne : t_player r <> t_player r').
      { intros E. apply Hnot. rewrite E. now apply in_map. }
      rewrite !DictFacts.get_set_other by assumption.
      apply Fresh. now right.
    + simpl. rewrite (set_absent _ _ _ Gr), (set_absent _ _ _ Gs).
      now rewrite <- !app_assoc.
Qed.

Lemma ratings_list_saved table : forall front,
  NoDup (map t_player table) ->
  (forall r, In r table -> Dict.get (t_player r) front = None) ->
  ratings_list (front ++ map table_stats table)%list (map table_item table)
  = Some table.
Proof.
  assert (Step : forall (front : Dict.t stats) k st rest,
            Dict.get k front = None ->
            Dict.get k (front ++ (k, st) :: rest)%list = Some st).
  { intros front k st rest. induction front as [|[k' v'] front IH]; simpl.
    - now rewrite String.eqb_refl.
    - destruct (String.eqb k k'); [discriminate|exact IH]. }
  assert (Skip : forall (front : Dict.t stats) k k' st,
            k <> k' -> Dict.get k front = None ->
            Dict.get k (front ++ [(k', st)])%list = None).
  { intros front k k' st Hne. induction front as [|[k0 v0] front IH]; simpl.
    - apply String.eqb_neq in Hne. now rewrite Hne.
    - destruct (String.eqb k k0); [discriminate|exact IH]. }
  induction table as [|r table IH]; intros front ND Fresh; simpl.
  - reflexivity.
  - apply NoDup_cons_iff in ND as [Hnot ND].
    unfold table_stats at 1.
    rewrite (Step front _ _ _ (Fresh r (or_introl eq_refl))). simpl.
    replace (front ++ table_stats r :: map table_stats table)%list
      with ((front ++ [table_stats r]) ++ map table_stats table)%list
      by (now rewrite <- app_assoc).
    rewrite IH; [now destruct r|exact ND|].
    intros r' Hr'. apply Skip.
    + intros E. apply Hnot. rewrite <- E. now apply in_map.
    + apply Fresh. now right.
Qed.

Lemma saved_sheet_converts table :
  forallb row_converts (saved_ratings_sheet table) = true.
Proof. induction table as [|r table IH]; simpl; auto. Qed.

Lemma table_players table :
  map fst (map table_item table) = map t_player table
  /\ map fst (map table_stats table) = map t_player table.
Proof. rewrite !map_map. split; reflexivity. Qed.

(** X12.  Saving and loading round-trips.  Take a well-formed object whose
    players are filed under trimmed names, its ratings table, and the sheet
    [レーティング] written from that table.  Loading the sheet into a new
    object with the same configuration succeeds, reports one player per
    row, and gives an object with the same ratings table and, for every
    player, the same rating, wins and losses. *)
Theorem checkpoint_round_trip :
  forall (self : HyakuninisshuRating) (table : list table_row),
    well_formed self -> keys_distinct self -> names_stripped self ->
    get_ratings_table self = Some table ->
    let fresh := init (initial_rating self) (k_factor self) (card_weight self) in
    let loaded :=
      load_previous_ratings fresh (Some (saved_ratings_sheet table)) in
    snd loaded = [LoadingPrevious; PreviousLoaded (List.length table)]
    /\ get_ratings_table (fst loaded) = Some table
    /\ (forall player,
          rating_of (fst loaded) player = rating_of self player
          /\ stats_of (fst loaded) player = stats_of self player).
Proof.
  intros self table WF Distinct Stripped E fresh loaded.
  destruct (ratings_list_items _ _ _ E) as [Items Stats].
  assert (P : Permutation (map table_item table) (player_ratings self))
    by (rewrite Items; apply sorted_by_rating_perm).
  destruct (table_players table) as [Kr Ks].
  assert (Pk : Permutation (map t_player table)
                           (Dict.keys (player_ratings self))).
  { rewrite <- Kr. apply (Permutation_map fst P). }
  assert (ND : NoDup (map t_player table))
    by (apply (Permutation_NoDup (Permutation_sym Pk)); exact Distinct).
  assert (Str : Forall (fun r => strip (t_player r) = t_player r) table).
  { unfold names_stripped in Stripped. rewrite Forall_forall in *.
    intros r Hr. apply Stripped. apply (Permutation_in _ Pk).
    now apply in_map. }
  assert (Eobj : fst loaded
                 = fst (load_rows fresh (saved_ratings_sheet table)))
    by apply load_previous_ratings_object.
  destruct (load_saved_sheet table fresh ND Str) as [Lr Ls];
    [intros r _; split; reflexivity|].
  simpl in Lr, Ls. rewrite <- Eobj in Lr, Ls.
  split; [|split].
  - unfold loaded, load_previous_ratings.
    pose proof (load_rows_good fresh _ (saved_sheet_converts table)) as G.
    destruct (load_rows fresh (saved_ratings_sheet table)) as [s ok].
    simpl in G. subst ok. simpl. unfold saved_ratings_sheet.
    now rewrite length_map.
  - unfold get_ratings_table. rewrite Lr, Ls.
    rewrite sorted_by_rating_id
      by (rewrite Items; apply sorted_by_rating_sorted).
    apply (ratings_list_saved table [] ND). reflexivity.
  - intros player. split.
    + unfold rating_of. rewrite Lr.
      rewrite (get_permutation _ _ player
                 ltac:(unfold Dict.keys; rewrite Kr; exact ND) P).
      rewrite Eobj.
      now destruct (load_rows_config fresh (saved_ratings_sheet table))
        as (-> & _).
    + unfold stats_of. rewrite Ls.
      destruct (in_dec string_dec player (map t_player table)) as [Hin|Hout].
      * apply in_map_iff in Hin as (r & <- & Hr).
        rewrite Forall_forall in Stats. rewrite (Stats r Hr).
        assert (G : Dict.get (t_player r) (map table_stats table)
                    = Some (mkStats (t_wins r) (t_losses r))).
        { apply get_in_iff.
          - unfold Dict.keys. rewrite Ks. exact ND.
          - apply (in_map table_stats) in Hr. exact Hr. }
        now rewrite G.
      * assert (G : Dict.get player (map table_stats table) = None).
        { apply get_none_not_in. unfold Dict.keys. now rewrite Ks. }
        rewrite G.
        assert (G' : Dict.get player (player_ratings self) = None).
        { apply get_none_not_in. intros Hin. apply Hout.
          apply (Permutation_in _ (Permutation_sym Pk)). exact Hin. }
        assert (M : Dict.mem player (player_stats self) = false).
        { rewrite WF. unfold Dict.mem. now rewrite G'. }
        unfold Dict.mem in M.
        destruct (Dict.get player (player_stats self));
          [discriminate|reflexivity].
Qed.

Lemma favourite_system_keys :
  keys_distinct favourite_system /\ names_stripped favourite_system.
Proof.
  split.
  - unfold keys_distinct. simpl. repeat constructor; simpl; intuition discriminate.
  - unfold names_stripped. simpl. repeat constructor.
Qed.

Lemma checkpoint_round_trip_witness :
  well_formed favourite_system /\ keys_distinct favourite_system
  /\ names_stripped favourite_system
  /\ exists table,
       get_ratings_table favourite_system = Some table
       /\ get_ratings_table
            (fst (load_previous_ratings
                    (init (initial_rating favourite_system)
                          (k_factor favourite_system)
                          (card_weight favourite_system))
                    (Some (saved_ratings_sheet table))))
          = Some table.
Proof.
  split; [exact favourite_system_well_formed|].
  split; [exact (proj1 favourite_system_keys)|].
  split; [exact (proj2 favourite_system_keys)|].
  destruct (ratings_table_spec favourite_system favourite_system_well_formed)
    as (table & E & _).
  exists table. split; [exact E|].
  exact (proj1 (proj2 (checkpoint_round_trip favourite_system table
                         favourite_system_well_formed
                         (proj1 favourite_system_keys)
                         (proj2 favourite_system_keys) E))).
Defined.

(** ** Invariants of the loops of [process_matches] *)

Lemma cleaned_stripped matches_df :
  Forall row_stripped (cleaned matches_df).
Proof.
  unfold cleaned. rewrite Forall_forall. intros row Hin.
  apply in_map_iff in Hin as (r & <- & _).
  split; simpl; apply strip_idempotent.
Qed.

Lemma groupby_rows df match_num group row :
  In (match_num, group) (groupby df) -> In row group -> In row df.
Proof.
  unfold groupby. intros Hg Hrow.
  apply in_map_iff in Hg as (n & [= -> <-] & _).
  now apply filter_In in Hrow as [Hin _].
Qed.

Section LoopInvariant.

(** A property of the loop state that notices keep and that an update
    between players with trimmed names keeps is kept by the whole run. *)
Variable I : loop_state -> Prop.

Hypothesis I_emit :
  forall st e, is_notice e = true -> I st -> I (emit st e).

Hypothesis I_update :
  forall st match_num player opponent result cards opponent_cards
         self' new_ratings,
    well_formed (ls_self st) -> I st ->
    strip player = player -> strip opponent = opponent ->
    update_ratings (ls_self st) player opponent result cards opponent_cards
    = Some (self', new_ratings) ->
    I (mkLoop self'
         (pair_add (match_num, sorted_pair player opponent)
                   (processed_pairs st))
         (output st ++ [RatingUpdate match_num player opponent cards
                                     opponent_cards result])).

Lemma process_row_invariant match_num group st player_data :
  well_formed (ls_self st) -> I st -> row_stripped player_data ->
  exists st',
    process_row match_num group st player_data = Some st'
    /\ well_formed (ls_self st') /\ I st'.
Proof.
  intros WF Ist [Sn So].
  destruct (pair_in (pair_key match_num player_data) (processed_pairs st))
    eqn:Seen.
  - exists st. rewrite process_row_processed by assumption. auto.
  - destruct (rejected group player_data) eqn:Rej.
    + destruct (process_row_rejected match_num group st player_data Seen Rej)
        as (w & Hw & ->).
      exists (emit st w). split; [reflexivity|]. split; [exact WF|].
      apply I_emit; [|exact Ist]. now destruct w.
    + destruct (process_row_accepted match_num group st player_data Seen Rej)
        as (opponent_data & _ & ->).
      destruct (update_ratings_spec (ls_self st) (r_name player_data)
                  (r_opponent player_data) (r_result player_data)
                  (r_cards player_data) (r_cards opponent_data) WF)
        as (self' & Hup & _ & _ & _ & _ & _ & _ & WF').
      rewrite Hup. simpl. eexists. split; [reflexivity|].
      split; [exact WF'|].
      exact (I_update st match_num _ _ _ _ _ self' _ WF Ist Sn So Hup).
Qed.

Lemma process_rows_invariant match_num group rows : forall st,
  well_formed (ls_self st) -> I st -> Forall row_stripped rows ->
  exists st',
    process_rows match_num group st rows = Some st'
    /\ well_formed (ls_self st') /\ I st'.
Proof.
  induction rows as [|row rows IH]; intros st WF Ist Str.
  - exists st. auto.
  - apply Forall_cons_iff in Str as [Srow Str].
    destruct (process_row_invariant match_num group st row WF Ist Srow)
      as (st1 & E1 & WF1 & I1).
    destruct (IH st1 WF1 I1 Str) as (st2 & E2 & WF2 & I2).
    exists st2. simpl. rewrite E1. auto.
Qed.

Lemma process_groups_invariant groups : forall st,
  well_formed (ls_self st) -> I st ->
  Forall (fun g => Forall row_stripped (snd g)) groups ->
  exists st',
    process_groups st groups = Some st'
    /\ well_formed (ls_self st') /\ I st'.
Proof.
  induction groups as [|[match_num group] groups IH]; intros st WF Ist Str.
  - exists st. auto.
  - apply Forall_cons_iff in Str as [Sg Str]. simpl in Sg.
    destruct (process_rows_invariant match_num group group
                (emit st (MatchHeader match_num)) WF
                (I_emit st (MatchHeader match_num) eq_refl Ist) Sg)
      as (st1 & E1 & WF1 & I1).
    destruct (IH st1 WF1 I1 Str) as (st2 & E2 & WF2 & I2).
    exists st2. simpl. rewrite E1. auto.
Qed.

Lemma process_matches_invariant self matches_df :
  well_formed self -> I (mkLoop self [] []) ->
  exists st',
    process_groups (mkLoop self [] []) (groupby (cleaned matches_df))
    = Some st'
    /\ well_formed (ls_self st') /\ I st'
    /\ process_matches self matches_df
       = if (List.length (cleaned matches_df) =? 0)%nat
         then Some (self, [NoValidMatches])
         else Some (ls_self st', output st').
Proof.
  intros WF Ist.
  destruct (process_groups_invariant (groupby (cleaned matches_df))
              (mkLoop self [] []) WF Ist)
    as (st' & E & WF' & I').
  { rewrite Forall_forall. intros [n g] Hg. simpl.
    rewrite Forall_forall. intros row Hrow.
    pose proof (cleaned_stripped matches_df) as C.
    rewrite Forall_forall in C. apply C.
    exact (groupby_rows _ n g row Hg Hrow). }
  exists st'. split; [exact E|]. split; [exact WF'|]. split; [exact I'|].
  unfold process_matches. fold (cleaned matches_df).
  destruct (List.length (cleaned matches_df) =? 0)%nat; [reflexivity|].
  now rewrite E.
Qed.

End LoopInvariant.

Lemma keys_set {V : Type} (d : Dict.t V) k v :
  Dict.keys (Dict.set k v d)
  = if Dict.mem k d then Dict.keys d else (Dict.keys d ++ [k])%list.
Proof.
  unfold Dict.keys, Dict.mem. induction d as [|[k' v'] d IH]; simpl.
  - reflexivity.
  - destruct (String.eqb k k'); simpl; [reflexivity|].
    rewrite IH. now destruct (Dict.get k d).
Qed.

Lemma keys_set_nodup {V : Type} (d : Dict.t V) k v :
  NoDup (Dict.keys d) -> NoDup (Dict.keys (Dict.set k v d)).
Proof.
  intros ND. rewrite keys_set. destruct (Dict.mem k d) eqn:M; [exact ND|].
  apply NoDup_app; auto.
  - constructor; [intros []|constructor].
  - intros x Hx [E|[]]. subst x.
    unfold Dict.mem in M. destruct (Dict.get k d) eqn:G; [discriminate|].
    now apply get_none_not_in in G.
Qed.

Lemma keys_set_forall {V : Type} (P : string -> Prop) (d : Dict.t V) k v :
  P k -> Forall P (Dict.keys d) -> Forall P (Dict.keys (Dict.set k v d)).
Proof.
  intros Hk H. rewrite keys_set. destruct (Dict.mem k d); [exact H|].
  apply Forall_app. split; [exact H|]. now constructor.
Qed.

Lemma store_extends_refl self : store_extends self self.
Proof.
  unfold store_extends. repeat split; auto.
  exists []. now rewrite app_nil_r.
Qed.

Lemma register_player_extends earlier self player :
  strip player = player ->
  store_extends earlier self ->
  store_extends earlier (register_player self player).
Proof.
  intros Sp (I0 & K0 & W0 & H0 & M0 & D0 & S0).
  destruct (register_player_config self player) as (I1 & K1 & W1 & H1).
  unfold store_extends. rewrite I1, K1, W1, H1.
  repeat split; auto.
  - intros p Hp. apply register_player_mem_mono. auto.
  - intros D. specialize (D0 D). unfold keys_distinct, register_player in *.
    destruct (Dict.mem player (player_ratings self)); simpl; auto.
    now apply keys_set_nodup.
  - intros S. specialize (S0 S). unfold names_stripped, register_player in *.
    destruct (Dict.mem player (player_ratings self)); simpl; auto.
    now apply keys_set_forall.
Qed.

Lemma update_ratings_extends earlier self player_a player_b result_a
    cards_a cards_b self' new_ratings :
  well_formed self -> store_extends earlier self ->
  strip player_a = player_a -> strip player_b = player_b ->
  update_ratings self player_a player_b result_a cards_a cards_b
  = Some (self', new_ratings) ->
  store_extends earlier self'.
Proof.
  intros WF Ext Sa Sb Hup.
  destruct (update_ratings_spec self player_a player_b result_a
              cards_a cards_b WF)
    as (self'' & Hup' & Hrat & _ & (h & Hh) & Hi & Hk & Hw & _).
  rewrite Hup in Hup'. injection Hup' as <- _.
  pose proof (register_player_extends earlier _ player_b Sb
                (register_player_extends earlier _ player_a Sa Ext))
    as (I0 & K0 & W0 & _ & M0 & D0 & S0).
  destruct Ext as (I1 & K1 & W1 & (added & H1) & _).
  unfold store_extends. rewrite Hi, Hk, Hw, Hh, H1.
  repeat split; auto.
  - exists (added ++ [h])%list. now rewrite app_assoc.
  - intros p Hp. rewrite Hrat. now apply DictFacts.mem_set_mono,
      DictFacts.mem_set_mono, M0.
  - intros D. unfold keys_distinct in *. rewrite Hrat.
    now apply keys_set_nodup, keys_set_nodup, D0.
  - intros S. unfold names_stripped in *. rewrite Hrat.
    apply keys_set_forall; [exact Sb|].
    apply keys_set_forall; [exact Sa|]. now apply S0.
Qed.

(** X13.  On a well-formed object [process_matches] runs to the end without
    raising and gives a well-formed object.  It does not change the
    configuration, it does not touch the history entries that were there, it
    removes no player, and it keeps the players filed under distinct and
    trimmed names. *)
Theorem process_matches_extends_store :
  forall (self : HyakuninisshuRating) (matches_df : list raw_row),
    well_formed self ->
    exists self' out,
      process_matches self matches_df = Some (self', out)
      /\ well_formed self'
      /\ store_extends self self'.
Proof.
  intros self matches_df WF.
  destruct (process_matches_invariant
              (fun st => store_extends self (ls_self st))) with
    (self := self) (matches_df := matches_df)
    as (st' & _ & WF' & Ext & ->).
  - intros st e _ H. exact H.
  - intros st n player opponent result cards opponent_cards self' new_ratings
      WFst Hst Sp So Hup. simpl.
    exact (update_ratings_extends self _ _ _ _ _ _ _ _ WFst Hst Sp So Hup).
  - exact WF.
  - apply store_extends_refl.
  - destruct (List.length (cleaned matches_df) =? 0)%nat.
    + exists self, [NoValidMatches].
      split; [reflexivity|]. split; [exact WF|apply store_extends_refl].
    + exists (ls_self st'), (output st'). auto.
Qed.

Lemma process_matches_extends_store_witness :
  well_formed default_system
  /\ exists self' out,
       process_matches default_system one_match = Some (self', out)
       /\ well_formed self'
       /\ store_extends default_system self'.
Proof.
  split; [exact default_system_well_formed|].
  exact (process_matches_extends_store default_system one_match
           default_system_well_formed).
Defined.

(** ** Wins and losses add up *)

Lemma stat_sum_set_present f (d : Dict.t stats) k st st' :
  Dict.get k d = Some st ->
  stat_sum f (Dict.set k st' d) = (stat_sum f d - f st + f st')%Z.
Proof.
  unfold stat_sum. induction d as [|[k' v'] d IH]; simpl; [discriminate|].
  destruct (String.eqb k k'); simpl.
  - intros [= ->]. lia.
  - intros H. rewrite (IH H). lia.
Qed.

Lemma stat_sum_set_absent f (d : Dict.t stats) k st' :
  Dict.get k d = None ->
  stat_sum f (Dict.set k st' d) = (stat_sum f d + f st')%Z.
Proof.
  unfold stat_sum. induction d as [|[k' v'] d IH]; simpl; [intros _; lia|].
  destruct (String.eqb k k'); simpl; [discriminate|].
  intros H. rewrite (IH H). lia.
Qed.

Lemma add_win_sums player (d d' : Dict.t stats) :
  add_win player d = Some d' ->
  stat_sum wins d' = (stat_sum wins d + 1)%Z
  /\ stat_sum losses d' = stat_sum losses d.
Proof.
  unfold add_win. destruct (Dict.get player d) as [st|] eqn:G; [|discriminate].
  intros [= <-]. rewrite !(stat_sum_set_present _ d player st) by exact G.
  simpl. lia.
Qed.

Lemma add_loss_sums player (d d' : Dict.t stats) :
  add_loss player d = Some d' ->
  stat_sum wins d' = stat_sum wins d
  /\ stat_sum losses d' = (stat_sum losses d + 1)%Z.
Proof.
  unfold add_loss. destruct (Dict.get player d) as [st|] eqn:G; [|discriminate].
  intros [= <-]. rewrite !(stat_sum_set_present _ d player st) by exact G.
  simpl. lia.
Qed.

Lemma record_result_sums player_a player_b result_a (d d' : Dict.t stats) :
  record_result player_a player_b result_a d = Some d' ->
  let decided := (if is_win result_a || is_loss result_a then 1 else 0)%Z in
  stat_sum wins d' = (stat_sum wins d + decided)%Z
  /\ stat_sum losses d' = (stat_sum losses d + decided)%Z.
Proof.
  rewrite record_result_unfold.
  destruct (is_win result_a); [|destruct (is_loss result_a)]; simpl.
  - destruct (add_win player_a d) as [d1|] eqn:E1; [|discriminate]. simpl.
    intros E2. apply add_win_sums in E1. apply add_loss_sums in E2. lia.
  - destruct (add_loss player_a d) as [d1|] eqn:E1; [|discriminate]. simpl.
    intros E2. apply add_loss_sums in E1. apply add_win_sums in E2. lia.
  - intros [= <-]. lia.
Qed.

Lemma register_player_sums self player :
  well_formed self ->
  total_wins (register_player self player) = total_wins self
  /\ total_losses (register_player self player) = total_losses self.
Proof.
  intros WF. unfold total_wins, total_losses, register_player.
  destruct (Dict.mem player (player_ratings self)) eqn:M; [auto|]. simpl.
  rewrite <- WF in M. unfold Dict.mem in M.
  destruct (Dict.get player (player_stats self)) eqn:G; [discriminate|].
  rewrite !stat_sum_set_absent by exact G. simpl. lia.
Qed.

Lemma update_ratings_sums self player_a player_b result_a cards_a cards_b
    self' new_ratings :
  well_formed self ->
  update_ratings self player_a player_b result_a cards_a cards_b
  = Some (self', new_ratings) ->
  let decided := (if is_win result_a || is_loss result_a then 1 else 0)%Z in
  total_wins self' = (total_wins self + decided)%Z
  /\ total_losses self' = (total_losses self + decided)%Z.
Proof.
  intros WF Hup.
  destruct (update_ratings_spec self player_a player_b result_a
              cards_a cards_b WF)
    as (self'' & Hup' & _ & Hrec & _).
  rewrite Hup in Hup'. injection Hup' as <- _.
  apply record_result_sums in Hrec.
  destruct (register_player_sums self player_a WF) as [Wa La].
  destruct (register_player_sums (register_player self player_a) player_b)
    as [Wb Lb]; [now apply register_player_well_formed|].
  unfold total_wins, total_losses in *. cbv zeta in *. lia.
Qed.

(** X14.  Over a run of [process_matches] on a well-formed object, the sum
    of all wins and the sum of all losses in the store both grow by the
    number of applied updates whose result is a win or loss token.  So
    wins and losses stay in balance, and each update with another result
    leaves both sums one short of the number of applied updates. *)
Theorem process_matches_wins_losses_balance :
  forall (self : HyakuninisshuRating) (matches_df : list raw_row),
    well_formed self ->
    exists self' out,
      process_matches self matches_df = Some (self', out)
      /\ total_wins self' = (total_wins self + decided_updates out)%Z
      /\ total_losses self' = (total_losses self + decided_updates out)%Z
      /\ (0 <= decided_updates out
          <= Z.of_nat (List.length (applied_pairs out)))%Z.
Proof.
  intros self matches_df WF.
  destruct (process_matches_invariant
              (fun st =>
                 total_wins (ls_self st)
                 = (total_wins self + decided_updates (output st))%Z
                 /\ total_losses (ls_self st)
                    = (total_losses self + decided_updates (output st))%Z
                 /\ (0 <= decided_updates (output st)
                     <= Z.of_nat (List.length (applied_pairs (output st))))%Z))
    with (self := self) (matches_df := matches_df)
    as (st' & _ & _ & Sums & ->).
  - intros st e Notice (W & L & B). unfold emit. simpl.
    assert (D : decided_updates (output st ++ [e]) = decided_updates (output st)).
    { clear - Notice. induction (output st) as [|e' out IH]; simpl.
      - now destruct e.
      - destruct e'; auto. now rewrite IH. }
    assert (A : applied_pairs (output st ++ [e]) = applied_pairs (output st)).
    { rewrite applied_pairs_app. destruct e; try discriminate;
        apply app_nil_r. }
    now rewrite D, A.
  - intros st n player opponent result cards opponent_cards self' new_ratings
      WFst (W & L & B) _ _ Hup. simpl.
    destruct (update_ratings_sums _ _ _ _ _ _ _ _ WFst Hup) as [W' L'].
    assert (D : decided_updates
                  (output st ++ [RatingUpdate n player opponent cards
                                              opponent_cards result])
                = (decided_updates (output st)
                   + (if is_win result || is_loss result then 1 else 0))%Z).
    { clear. induction (output st) as [|e' out IH]; simpl.
      - lia.
      - destruct e'; auto. rewrite IH. lia. }
    rewrite D, applied_pairs_app, length_app. simpl.
    destruct (is_win result || is_loss result); lia.
  - exact WF.
  - simpl. lia.
  - destruct (List.length (cleaned matches_df) =? 0)%nat.
    + exists self, [NoValidMatches]. simpl. split; [reflexivity|lia].
    + exists (ls_self st'), (output st'). split; [reflexivity|exact Sums].
Qed.

Lemma process_matches_wins_losses_balance_witness :
  well_formed default_system
  /\ exists self' out,
       process_matches default_system one_match = Some (self', out)
       /\ total_wins self'
          = (total_wins default_system + decided_updates out)%Z
       /\ total_losses self'
          = (total_losses default_system + decided_updates out)%Z.
Proof.
  split; [exact default_system_well_formed|].
  destruct (process_matches_wins_losses_balance default_system one_match
              default_system_well_formed)
    as (self' & out & E & W & L & _).
  exists self', out. auto.
Defined.

(** ** The history *)

Lemma update_ratings_entry self player_a player_b result_a cards_a cards_b
    self' new_ratings :
  well_formed self ->
  update_ratings self player_a player_b result_a cards_a cards_b
  = Some (self', new_ratings) ->
  exists h,
    match_history self' = (match_history self ++ [h])%list
    /\ entry_call h = (player_a, player_b, result_a, cards_a, cards_b)
    /\ entry_consistent h.
Proof.
  intros WF.
  pose proof (register_player_well_formed _ player_b
                (register_player_well_formed _ player_a WF)) as WF2.
  set (registered := register_player (register_player self player_a) player_b)
    in *.
  assert (Ma : Dict.mem player_a (player_ratings registered) = true)
    by apply register_player_mem_mono, register_player_mem.
  assert (Mb : Dict.mem player_b (player_ratings registered) = true)
    by apply register_player_mem.
  destruct (register_player_config (register_player self player_a) player_b)
    as (_ & _ & _ & H2).
  destruct (register_player_config self player_a) as (_ & _ & _ & H1).
  fold registered in H2.
  unfold update_ratings. fold registered.
  rewrite (stored_rating _ _ Ma), (stored_rating _ _ Mb). simpl.
  destruct (record_result player_a player_b result_a (player_stats registered))
    as [d'|]; [|discriminate].
  simpl. intros [= <- _]. simpl. rewrite H2, H1.
  eexists. split; [reflexivity|]. split; [reflexivity|].
  unfold entry_consistent. simpl.
  pose proof (performance_score_bounds registered result_a cards_a cards_b).
  pose proof (expected_score_bounds (rating_of registered player_a)
                                    (rating_of registered player_b)).
  repeat split; try lra.
Qed.

Lemma update_calls_app (out1 out2 : list event) :
  update_calls (out1 ++ out2)%list
  = (update_calls out1 ++ update_calls out2)%list.
Proof.
  induction out1 as [|e out1 IH]; simpl; [reflexivity|].
  destruct e; simpl; now rewrite ?IH.
Qed.

(** X15.  The history is the record of the run: on a well-formed object,
    [process_matches] appends exactly one history entry for each update
    line it prints, in the same order and with the same players, result
    and card counts, and the numbers of each appended entry fit together
    (each change is the rating after minus the rating before, and the two
    scores lie between 0 and 1). *)
Theorem process_matches_history_matches_output :
  forall (self : HyakuninisshuRating) (matches_df : list raw_row),
    well_formed self ->
    exists self' out added,
      process_matches self matches_df = Some (self', out)
      /\ match_history self' = (match_history self ++ added)%list
      /\ map entry_call added = update_calls out
      /\ Forall entry_consistent added.
Proof.
  intros self matches_df WF.
  destruct (process_matches_invariant
              (fun st =>
                 exists added,
                   match_history (ls_self st)
                   = (match_history self ++ added)%list
                   /\ map entry_call added = update_calls (output st)
                   /\ Forall entry_consistent added))
    with (self := self) (matches_df := matches_df)
    as (st' & _ & _ & (added & Hh & Hc & Hf) & ->).
  - intros st e Notice (added & Hh & Hc & Hf). exists added. unfold emit.
    simpl. rewrite update_calls_app.
    split; [exact Hh|]. split; [|exact Hf].
    destruct e; try discriminate; simpl; now rewrite app_nil_r.
  - intros st n player opponent result cards opponent_cards self' new_ratings
      WFst (added & Hh & Hc & Hf) _ _ Hup. simpl.
    destruct (update_ratings_entry _ _ _ _ _ _ _ _ WFst Hup)
      as (h & Hh' & Hcall & Hcons).
    exists (added ++ [h])%list. rewrite Hh', Hh, <- app_assoc.
    split; [reflexivity|]. rewrite map_app, update_calls_app, Hc. simpl.
    rewrite Hcall. split; [reflexivity|].
    apply Forall_app. split; [exact Hf|]. now constructor.
  - exact WF.
  - exists []. simpl. rewrite app_nil_r. auto.
  - destruct (List.length (cleaned matches_df) =? 0)%nat.
    + exists self, [NoValidMatches], []. simpl. rewrite app_nil_r. auto.
    + exists (ls_self st'), (output st'), added. auto.
Qed.

Lemma process_matches_history_matches_output_witness :
  well_formed default_system
  /\ exists self' out added,
       process_matches default_system one_match = Some (self', out)
       /\ match_history self'
          = (match_history default_system ++ added)%list
       /\ map entry_call added = update_calls out.
Proof.
  split; [exact default_system_well_formed|].
  destruct (process_matches_history_matches_output default_system one_match
              default_system_well_formed)
    as (self' & out & added & E & H & C & _).
  exists self', out, added. auto.
Defined.

(** ** What [process_matches] takes from the frame *)

Lemma sorted_same_members (l1 : list Z) : forall l2,
  StronglySorted Z.lt l1 -> StronglySorted Z.lt l2 ->
  (forall x, In x l1 <-> In x l2) -> l1 = l2.
Proof.
  induction l1 as [|a l1 IH]; intros l2 S1 S2 Same.
  - destruct l2 as [|b l2]; [reflexivity|].
    exfalso. apply (Same b). now left.
  - destruct l2 as [|b l2].
    + exfalso. apply (Same a). now left.
    + apply StronglySorted_inv in S1 as [S1 F1].
      apply StronglySorted_inv in S2 as [S2 F2].
      rewrite Forall_forall in F1, F2.
      assert (E : a = b).
      { destruct (proj1 (Same a) (or_introl eq_refl)) as [E|Ha]; [auto|].
        destruct (proj2 (Same b) (or_introl eq_refl)) as [E|Hb]; [auto|].
        specialize (F1 b Hb). specialize (F2 a Ha). lia. }
      subst b. f_equal. apply IH; auto.
      intros x. split; intros Hx.
      * destruct (proj1 (Same x) (or_intror Hx)) as [E|H]; [|exact H].
        specialize (F1 x Hx). lia.
      * destruct (proj2 (Same x) (or_intror Hx)) as [E|H]; [|exact H].
        specialize (F2 x Hx). lia.
Qed.

Lemma group_keys_permutation df1 df2 :
  Permutation df1 df2 -> group_keys df1 = group_keys df2.
Proof.
  intros P. apply sorted_same_members; try apply group_keys_sorted.
  intros n. rewrite !group_keys_in.
  split; intros (row & Hin & E); exists row; split; auto.
  - now apply (Permutation_in _ P).
  - now apply (Permutation_in _ (Permutation_sym P)).
Qed.

Lemma header_numbers_app (out1 out2 : list event) :
  header_numbers (out1 ++ out2)%list
  = (header_numbers out1 ++ header_numbers out2)%list.
Proof.
  induction out1 as [|e out1 IH]; simpl; [reflexivity|].
  destruct e; simpl; now rewrite ?IH.
Qed.

Lemma match_numbers_app (out1 out2 : list event) :
  match_numbers (out1 ++ out2)%list
  = (match_numbers out1 ++ match_numbers out2)%list.
Proof. unfold match_numbers. now rewrite applied_pairs_app, map_app. Qed.

(** One row prints no header, and an update line that it prints carries the
    number of the group. *)
Lemma process_row_numbers match_num group st player_data st' :
  process_row match_num group st player_data = Some st' ->
  exists added,
    output st' = (output st ++ added)%list
    /\ header_numbers added = []
    /\ Forall (eq match_num) (match_numbers added).
Proof.
  unfold process_row.
  destruct (pair_in _ (processed_pairs st)).
  { intros [= <-]. exists []. rewrite app_nil_r. repeat split. constructor. }
  destruct (find _ group) as [opponent_data|].
  - destruct (negb (r_opponent opponent_data =? r_name player_data)%string).
    { intros [= <-]. eexists. split; [reflexivity|].
      split; [reflexivity|constructor]. }
    destruct (_ || _).
    { intros [= <-]. eexists. split; [reflexivity|].
      split; [reflexivity|constructor]. }
    destruct (update_ratings _ _ _ _ _ _) as [updated|]; [|discriminate].
    simpl. intros [= <-]. eexists. split; [reflexivity|].
    split; [reflexivity|]. repeat constructor.
  - intros [= <-]. eexists. split; [reflexivity|].
    split; [reflexivity|constructor].
Qed.

Lemma process_rows_numbers match_num group rows : forall st st',
  process_rows match_num group st rows = Some st' ->
  exists added,
    output st' = (output st ++ added)%list
    /\ header_numbers added = []
    /\ Forall (eq match_num) (match_numbers added).
Proof.
  induction rows as [|row rows IH]; intros st st' Run.
  - injection Run as <-. exists []. rewrite app_nil_r. repeat split.
    constructor.
  - simpl in Run.
    destruct (process_row match_num group st row) as [st1|] eqn:E1;
      [|discriminate].
    simpl in Run.
    destruct (process_row_numbers _ _ _ _ _ E1) as (added1 & O1 & H1 & M1).
    destruct (IH _ _ Run) as (added2 & O2 & H2 & M2).
    exists (added1 ++ added2)%list. rewrite O2, O1, app_assoc.
    split; [reflexivity|]. rewrite header_numbers_app, match_numbers_app.
    rewrite H1, H2. split; [reflexivity|]. apply Forall_app. auto.
Qed.

Lemma sorted_after_equal (n : Z) (l1 l2 : list Z) :
  Forall (eq n) l1 -> StronglySorted Z.le l2 -> Forall (Z.lt n) l2 ->
  StronglySorted Z.le (l1 ++ l2).
Proof.
  intros Same Sorted Above. induction Same as [|x l1 <- Same IH]; simpl.
  - exact Sorted.
  - constructor; [exact IH|].
    apply Forall_app. split.
    + eapply Forall_impl; [|exact Same]. intros y <-. lia.
    + eapply Forall_impl; [|exact Above]. intros; lia.
Qed.

(** The groups: one header for each group, in the order of the groups, and
    the update lines carry the numbers of the groups in that order. *)
Lemma process_groups_numbers groups : forall st st',
  process_groups st groups = Some st' ->
  StronglySorted Z.lt (map fst groups) ->
  exists added,
    output st' = (output st ++ added)%list
    /\ header_numbers added = map fst groups
    /\ StronglySorted Z.le (match_numbers added)
    /\ Forall (fun n => In n (map fst groups)) (match_numbers added).
Proof.
  induction groups as [|[match_num group] groups IH]; intros st st' Run Sorted.
  - injection Run as <-. exists []. rewrite app_nil_r.
    repeat split; constructor.
  - simpl in Run.
    destruct (process_rows match_num group (emit st (MatchHeader match_num))
                group) as [st1|] eqn:E1; [|discriminate].
    simpl in Run, Sorted.
    apply StronglySorted_inv in Sorted as [Sorted Low].
    destruct (process_rows_numbers _ _ _ _ _ E1) as (added1 & O1 & H1 & M1).
    destruct (IH _ _ Run Sorted) as (added2 & O2 & H2 & M2 & In2).
    simpl in O1.
    exists (MatchHeader match_num :: added1 ++ added2)%list.
    split; [|split; [|split]].
    + rewrite O2, O1, <- !app_assoc. reflexivity.
    + simpl. now rewrite header_numbers_app, H1, H2.
    + change (match_numbers (MatchHeader match_num :: added1 ++ added2))
        with (match_numbers (added1 ++ added2)).
      rewrite match_numbers_app.
      apply (sorted_after_equal match_num); [exact M1|exact M2|].
      rewrite Forall_forall in *. intros n Hn. apply Low, In2, Hn.
    + change (match_numbers (MatchHeader match_num :: added1 ++ added2))
        with (match_numbers (added1 ++ added2)).
      rewrite match_numbers_app. apply Forall_app. split.
      * eapply Forall_impl; [|exact M1]. intros n <-. now left.
      * eapply Forall_impl; [|exact In2]. intros n Hn. now right.
Qed.

Lemma groupby_keys (df : list match_row) :
  map fst (groupby df) = group_keys df.
Proof. unfold groupby. rewrite map_map. simpl. apply map_id. Qed.

(** The order of a run: one header for each match number of the cleaned
    frame, in strictly ascending order, and update lines in ascending order
    of the match number. *)
Lemma process_matches_order self matches_df self' out :
  process_matches self matches_df = Some (self', out) ->
  header_numbers out = group_keys (cleaned matches_df)
  /\ StronglySorted Z.lt (header_numbers out)
  /\ (forall n, In n (header_numbers out)
                <-> exists row, In row (cleaned matches_df)
                                /\ r_match_num row = Some n)
  /\ StronglySorted Z.le (match_numbers out).
Proof.
  intros Run.
  assert (H : header_numbers out = group_keys (cleaned matches_df)
              /\ StronglySorted Z.le (match_numbers out)).
  { revert Run. unfold process_matches. fold (cleaned matches_df).
    destruct (cleaned matches_df) as [|row0 df] eqn:E.
    - simpl. intros [= <- <-]. split; [reflexivity|constructor].
    - rewrite <- E.
      replace (List.length (cleaned matches_df) =? 0)%nat with false
        by (now rewrite E).
      destruct (process_groups (mkLoop self [] [])
                  (groupby (cleaned matches_df))) as [st'|] eqn:Groups;
        [|discriminate].
      simpl. intros [= <- <-].
      destruct (process_groups_numbers _ _ _ Groups)
        as (added & O & Hh & Hm & _).
      { rewrite groupby_keys. apply group_keys_sorted. }
      simpl in O. rewrite O, Hh, groupby_keys. auto. }
  destruct H as [Hh Hm]. rewrite Hh.
  split; [reflexivity|]. split; [apply group_keys_sorted|].
  split; [apply group_keys_in|exact Hm].
Qed.

(** X16.  [process_matches] goes through the matches in ascending order of
    the match number, wherever their rows stand in the sheet.  On a
    well-formed object the run prints one header for each match number that
    a row of the cleaned frame carries, in strictly ascending order, and
    the update lines follow in ascending order of the match number.  Two
    frames whose cleaned rows are the same up to order, and which list the
    rows of each match number in the same order, give the same object and
    the same output. *)
Theorem process_matches_ignores_interleaving :
  (forall (self : HyakuninisshuRating) (matches_df : list raw_row),
     well_formed self ->
     exists self' out,
       process_matches self matches_df = Some (self', out)
       /\ header_numbers out = group_keys (cleaned matches_df)
       /\ StronglySorted Z.lt (header_numbers out)
       /\ (forall n, In n (header_numbers out)
                     <-> exists row, In row (cleaned matches_df)
                                     /\ r_match_num row = Some n)
       /\ StronglySorted Z.le (match_numbers out))
  /\ forall (self : HyakuninisshuRating) (df1 df2 : list raw_row),
       Permutation (cleaned df1) (cleaned df2) ->
       (forall n, filter (in_group n) (cleaned df1)
                  = filter (in_group n) (cleaned df2)) ->
       process_matches self df1 = process_matches self df2.
Proof.
  split.
  - intros self matches_df WF.
    destruct (process_matches_well_formed self matches_df WF)
      as (self' & out & Run & _).
    exists self', out. split; [exact Run|].
    exact (process_matches_order _ _ _ _ Run).
  - intros self df1 df2 P Groups. unfold process_matches.
    fold (cleaned df1). fold (cleaned df2).
    rewrite (Permutation_length P).
    assert (G : groupby (cleaned df1) = groupby (cleaned df2)).
    { unfold groupby. rewrite (group_keys_permutation _ _ P).
      apply map_ext. intros n. now rewrite Groups. }
    now rewrite G.
Qed.

Lemma process_matches_ignores_interleaving_witness :
  Permutation (cleaned shuffled_matches) (cleaned ordered_matches)
  /\ (forall n, filter (in_group n) (cleaned shuffled_matches)
                = filter (in_group n) (cleaned ordered_matches))
  /\ process_matches default_system shuffled_matches
     = process_matches default_system ordered_matches
  /\ well_formed default_system
  /\ exists self' out,
       process_matches default_system shuffled_matches = Some (self', out)
       /\ header_numbers out = [1; 2]%Z
       /\ StronglySorted Z.le (match_numbers out).
Proof.
  assert (P : Permutation (cleaned shuffled_matches)
                          (cleaned ordered_matches)).
  { change (cleaned shuffled_matches)
      with [mkRow (Some 2%Z) "C" "D" "負" 5; mkRow (Some 1%Z) "A" "B" "勝" 10;
            mkRow (Some 2%Z) "D" "C" "勝" 12; mkRow (Some 1%Z) "B" "A" "負" 7].
    change (cleaned ordered_matches)
      with [mkRow (Some 1%Z) "A" "B" "勝" 10; mkRow (Some 1%Z) "B" "A" "負" 7;
            mkRow (Some 2%Z) "C" "D" "負" 5; mkRow (Some 2%Z) "D" "C" "勝" 12].
    eapply perm_trans; [apply perm_swap|]. apply perm_skip.
    eapply perm_trans; [apply perm_skip, perm_swap|].
    apply perm_swap. }
  assert (G : forall n, filter (in_group n) (cleaned shuffled_matches)
                        = filter (in_group n) (cleaned ordered_matches)).
  { intros n.
    change (cleaned shuffled_matches)
      with [mkRow (Some 2%Z) "C" "D" "負" 5; mkRow (Some 1%Z) "A" "B" "勝" 10;
            mkRow (Some 2%Z) "D" "C" "勝" 12; mkRow (Some 1%Z) "B" "A" "負" 7].
    change (cleaned ordered_matches)
      with [mkRow (Some 1%Z) "A" "B" "勝" 10; mkRow (Some 1%Z) "B" "A" "負" 7;
            mkRow (Some 2%Z) "C" "D" "負" 5; mkRow (Some 2%Z) "D" "C" "勝" 12].
    unfold filter, in_group, r_match_num.
    destruct (Z.eqb_spec 2 n), (Z.eqb_spec 1 n); try reflexivity. lia. }
  split; [exact P|]. split; [exact G|]. split.
  - exact (proj2 process_matches_ignores_interleaving default_system
             shuffled_matches ordered_matches P G).
  - split; [exact default_system_well_formed|].
    destruct (proj1 process_matches_ignores_interleaving default_system
                shuffled_matches default_system_well_formed)
      as (self' & out & Run & Hh & _ & _ & Hm).
    exists self', out. split; [exact Run|]. split; [|exact Hm].
    rewrite Hh. reflexivity.
Defined.

Lemma cleaned_trimmed_complete matches_df :
  cleaned (map trim_names (filter is_complete matches_df))
  = cleaned matches_df.
Proof.
  unfold cleaned. induction matches_df as [|r df IH]; [reflexivity|].
  destruct r as [m [n|] [o|] [res|] [c|]]; simpl; try exact IH.
  unfold strip_names at 1 3. simpl. rewrite !strip_idempotent.
  f_equal. exact IH.
Qed.

(** X17.  Rows with a missing name, opponent, result or card count, and
    white space around names, make no difference to [process_matches]:
    leaving such rows out and trimming the names beforehand gives the same
    object and the same output. *)
Theorem process_matches_ignores_blank_rows_and_padding :
  forall (self : HyakuninisshuRating) (matches_df : list raw_row),
    process_matches self (map trim_names (filter is_complete matches_df))
    = process_matches self matches_df.
Proof.
  intros self matches_df. unfold process_matches.
  fold (cleaned (map trim_names (filter is_complete matches_df))).
  fold (cleaned matches_df).
  now rewrite cleaned_trimmed_complete.
Qed.

(** ** The name column *)

Lemma list_ascii_of_string_app (s1 s2 : string) :
  list_ascii_of_string (s1 ++ s2)%string
  = (list_ascii_of_string s1 ++ list_ascii_of_string s2)%list.
Proof. induction s1 as [|c s1 IH]; simpl; [reflexivity|now rewrite IH]. Qed.

Lemma display_width_app (s1 s2 : string) :
  display_width (s1 ++ s2)%string
  = (display_width s1 + display_width s2)%Z.
Proof.
  unfold display_width. rewrite list_ascii_of_string_app, map_app.
  induction (map byte_width (list_ascii_of_string s1)) as [|w l IH]; simpl;
    [reflexivity|].
  rewrite IH. lia.
Qed.

Lemma display_width_spaces (padding : Z) :
  display_width (spaces padding) = Z.max 0 padding.
Proof.
  unfold display_width, spaces.
  rewrite list_ascii_of_string_of_list_ascii.
  assert (E : forall n, fold_right Z.add 0%Z
                          (map byte_width (repeat " "%char n))
                        = Z.of_nat n).
  { induction n as [|n IH]; [reflexivity|].
    cbn [repeat map fold_right]. rewrite IH.
    change (byte_width " "%char) with 1%Z. lia. }
  rewrite E. lia.
Qed.

Lemma display_width_nonneg (s : string) : (0 <= display_width s)%Z.
Proof.
  unfold display_width.
  induction (list_ascii_of_string s) as [|c l IH]; simpl; [lia|].
  assert (0 <= byte_width c)%Z.
  { unfold byte_width. destruct (_ <? 128)%N; [lia|].
    destruct (_ <? 192)%N; lia. }
  lia.
Qed.

(** X18.  The name column of the final listing is right-aligned in 10
    columns: the padded name is the name with spaces in front, its display
    width is 10 whenever the name is at most 10 columns wide, and a wider
    name is printed as it is, without padding. *)
Theorem formatted_name_width :
  forall player_name : string,
    display_width (formatted_name player_name)
    = Z.max 10 (display_width player_name)
    /\ formatted_name player_name
       = (spaces (10 - display_width player_name) ++ player_name)%string
    /\ ((10 <= display_width player_name)%Z ->
        formatted_name player_name = player_name).
Proof.
  intros player_name. unfold formatted_name. cbv zeta.
  split; [|split; [reflexivity|]].
  - rewrite display_width_app, display_width_spaces.
    pose proof (display_width_nonneg player_name). lia.
  - intros H. unfold spaces.
    replace (Z.to_nat (10 - display_width player_name)) with 0%nat by lia.
    reflexivity.
Qed.

Example formatted_name_kanji :
  formatted_name "田中太郎" = "  田中太郎"
  /\ formatted_name "中村さくら" = "中村さくら"
  /\ formatted_name "Tanaka" = "    Tanaka".
Proof. repeat split. Qed.

Lemma formatted_name_width_witness :
  (10 <= display_width "中村さくら")%Z
  /\ formatted_name "中村さくら" = "中村さくら".
Proof.
  assert (H : (10 <= display_width "中村さくら")%Z) by (vm_compute; discriminate).
  split; [exact H|].
  exact (proj2 (proj2 (formatted_name_width "中村さくら")) H).
Defined.

(** ** The sample data *)

Lemma early_range_not_empty (total_taken : Z) :
  (10 <= total_taken <= 16)%Z ->
  (Z.max 6 ((total_taken + 1) / 2) <= Z.min 17 (total_taken - 1))%Z.
Proof.
  intros H.
  assert (0 <= (total_taken + 1) / 2 /\ 2 * ((total_taken + 1) / 2)
          <= total_taken + 1)%Z.
  { split; [apply Z.div_pos; lia|]. apply Z.mul_div_le. lia. }
  lia.
Qed.

Lemma sample_outcome_facts :
  forall (match_num : Z) (d : match_draw)
         (cards_a cards_b : Z) (result_a result_b : string),
    valid_draw d ->
    sample_outcome match_num d = (cards_a, cards_b, result_a, result_b) ->
    complementary result_a result_b = true
    /\ (0 <= cards_a <= 17)%Z /\ (0 <= cards_b <= 17)%Z
    /\ (cards_a + cards_b <= 20)%Z
    /\ (is_win result_a = true -> (cards_b <= cards_a)%Z)
    /\ (is_win result_b = true -> (cards_a <= cards_b)%Z)
    /\ (cards_a = cards_b ->
        match_num = 3%Z \/ draw_tie d = true
        \/ (draw_normal d = false
            /\ draw_total_taken d = (2 * cards_a)%Z))
    /\ (Z.max 6 ((draw_total_taken d + 1) / 2)
        <= Z.min 17 (draw_total_taken d - 1))%Z.
Proof.
  intros match_num d cards_a cards_b result_a result_b
    (_ & _ & _ & Hw & Ht & He) E.
  pose proof (early_range_not_empty _ Ht) as Range.
  assert (Half : (draw_total_taken d <= 2 * ((draw_total_taken d + 1) / 2))%Z).
  { pose proof (Z.div_mod (draw_total_taken d + 1) 2 ltac:(lia)).
    pose proof (Z.mod_pos_bound (draw_total_taken d + 1) 2 ltac:(lia)).
    lia. }
  assert (Win : is_win "負" = false) by reflexivity.
  unfold sample_outcome in E.
  remember (17 - draw_winner_cards d)%Z as loser eqn:Hloser.
  remember (draw_total_taken d - draw_early_winner_cards d)%Z
    as early_loser eqn:Hearly.
  destruct (Z.eqb_spec match_num 3) as [->|_];
    [|destruct (draw_tie d) eqn:Tie; [|destruct (draw_normal d) eqn:Normal]];
    destruct (draw_first_wins d); injection E as <- <- <- <-;
    (split; [reflexivity|]); (split; [lia|]); (split; [lia|]);
    (split; [lia|]);
    (split; [intros W; first [lia | congruence]|]);
    (split; [intros W; first [lia | congruence]|]);
    (split; [|exact Range]); intros Heq;
    first [ left; reflexivity
          | right; left; reflexivity
          | exfalso; lia
          | right; right; split; [reflexivity | lia] ].
Qed.

(** X19.  Every match that the generator makes up from draws it can get is
    a match the rating engine understands: the two results are
    complementary tokens, both card counts lie between 0 and 17 and add up
    to at most 20, and the player marked as winner has at least as many
    cards as the other (the same number only at 8-8, at 10-10, or in a match
    that ended early on an even total).  The range of the [randint] for a
    match that ended early is never empty. *)
Theorem sample_outcome_sound :
  forall (match_num : Z) (d : match_draw)
         (cards_a cards_b : Z) (result_a result_b : string),
    valid_draw d ->
    sample_outcome match_num d = (cards_a, cards_b, result_a, result_b) ->
    complementary result_a result_b = true
    /\ (0 <= cards_a <= 17)%Z /\ (0 <= cards_b <= 17)%Z
    /\ (cards_a + cards_b <= 20)%Z
    /\ (is_win result_a = true -> (cards_b <= cards_a)%Z)
    /\ (is_win result_b = true -> (cards_a <= cards_b)%Z)
    /\ (cards_a = cards_b ->
        match_num = 3%Z \/ draw_tie d = true
        \/ (draw_normal d = false
            /\ draw_total_taken d = (2 * cards_a)%Z))
    /\ (Z.max 6 ((draw_total_taken d + 1) / 2)
        <= Z.min 17 (draw_total_taken d - 1))%Z.
Proof. exact sample_outcome_facts. Qed.

Lemma full_course_draw_valid : valid_draw full_course_draw.
Proof.
  unfold valid_draw, full_course_draw. simpl.
  split; [now left|]. split; [right; now left|].
  split; [discriminate|]. vm_compute. intuition discriminate.
Qed.

Lemma sample_outcome_sound_witness :
  valid_draw full_course_draw
  /\ sample_outcome 1 full_course_draw = (12%Z, 5%Z, "勝", "負")
  /\ complementary "勝" "負" = true
  /\ (12 + 5 <= 20)%Z.
Proof.
  split; [exact full_course_draw_valid|]. split; [reflexivity|].
  destruct (sample_outcome_sound 1 full_course_draw 12 5 "勝" "負"
              full_course_draw_valid eq_refl)
    as (C & _ & _ & S & _).
  split; [exact C|exact S].
Defined.

(** ** The sample data goes through [process_matches] *)

Lemma players_stripped : Forall (fun p => strip p = p) players.
Proof. repeat constructor. Qed.

Lemma sample_rows_eq n d :
  sample_rows n d =
  let o := sample_outcome n d in
  [mkRawRow (Some n) (Some (fst (draw_pair d))) (Some (snd (draw_pair d)))
            (Some (snd (fst o))) (Some (fst (fst (fst o))));
   mkRawRow (Some n) (Some (snd (draw_pair d))) (Some (fst (draw_pair d)))
            (Some (snd o)) (Some (snd (fst (fst o))))].
Proof.
  unfold sample_rows. now destruct (sample_outcome n d) as [[[ca cb] ra] rb].
Qed.

Lemma sample_frame_groups draws :
  (forall n, In n played_matches -> valid_draw (draws n)) ->
  cleaned (create_sample_data draws) <> []
  /\ groupby (cleaned (create_sample_data draws))
     = map (sample_group draws) played_matches.
Proof.
  intros Valid.
  assert (S : forall n, In n played_matches ->
            strip (fst (draw_pair (draws n))) = fst (draw_pair (draws n))
            /\ strip (snd (draw_pair (draws n))) = snd (draw_pair (draws n))).
  { intros n Hn. destruct (Valid n Hn) as (Ha & Hb & _).
    pose proof players_stripped as P. rewrite Forall_forall in P. auto. }
  unfold create_sample_data, played_matches, unplayed_matches, cleaned.
  cbn [flat_map app]. rewrite !sample_rows_eq. cbv zeta.
  cbn [app blank_rows dropna flat_map raw_name raw_opponent raw_result raw_cards raw_match_num map].
  unfold strip_names. cbn [r_name r_opponent r_match_num r_result r_cards].
  repeat match goal with
  | |- context [strip (fst (draw_pair (draws ?n)))] =>
      rewrite (proj1 (S n ltac:(unfold played_matches; simpl; tauto)))
  | |- context [strip (snd (draw_pair (draws ?n)))] =>
      rewrite (proj2 (S n ltac:(unfold played_matches; simpl; tauto)))
  end.
  split; [discriminate|].
  unfold groupby, group_keys.
  cbn [fold_right r_match_num insert_key Z.ltb Z.eqb Z.compare Pos.compare Pos.compare_cont Pos.eqb].
  cbn [map filter in_group r_match_num Z.eqb Pos.eqb].
  reflexivity.
Qed.

Lemma is_win_not_loss (result : string) :
  is_win result = true -> is_loss result = false.
Proof.
  intros W. destruct (is_loss result) eqn:L; [|reflexivity].
  apply is_loss_not_win in L. congruence.
Qed.

Lemma complementary_not_contradictory result opponent_result :
  complementary result opponent_result = true ->
  contradictory_results result opponent_result = false.
Proof.
  unfold complementary, contradictory_results.
  fold (is_win result) (is_loss result) (is_win opponent_result)
       (is_loss opponent_result).
  destruct (is_win result) eqn:W.
  - rewrite (is_win_not_loss _ W). simpl. rewrite orb_false_r.
    now intros ->.
  - simpl. destruct (is_loss result); simpl; [now intros ->|discriminate].
Qed.

Lemma process_mirror_group n a b result_a result_b cards_a cards_b st :
  well_formed (ls_self st) -> a <> b ->
  pair_in (n, sorted_pair a b) (processed_pairs st) = false ->
  complementary result_a result_b = true ->
  exists self' new_ratings,
    update_ratings (ls_self st) a b result_a cards_a cards_b
    = Some (self', new_ratings)
    /\ well_formed self'
    /\ List.length (match_history self')
       = S (List.length (match_history (ls_self st)))
    /\ process_rows n (mirror_group n a b result_a result_b cards_a cards_b)
         st (mirror_group n a b result_a result_b cards_a cards_b)
       = Some (mkLoop self' ((n, sorted_pair a b) :: processed_pairs st)
                 (output st
                  ++ [RatingUpdate n a b cards_a cards_b result_a])).
Proof.
  intros WF Hne Seen Compl.
  destruct (update_ratings_spec (ls_self st) a b result_a cards_a cards_b WF)
    as (self' & Hup & _ & _ & (h & Hh) & _ & _ & _ & WF').
  eexists self', _. split; [exact Hup|]. split; [exact WF'|].
  split; [rewrite Hh, length_app; simpl; lia|].
  pose proof (complementary_not_contradictory _ _ Compl) as NC.
  unfold contradictory_results in NC.
  assert (Eab : (a =? b)%string = false) by now apply String.eqb_neq.
  unfold mirror_group. cbn [process_rows].
  unfold process_row at 1. cbn [r_name r_opponent r_result r_cards find].
  rewrite Seen, Eab, !String.eqb_refl. cbn [negb r_opponent r_result r_cards].
  rewrite NC, Hup. cbn [bind fst].
  unfold process_row. cbn [r_name r_opponent r_result r_cards processed_pairs].
  rewrite (sorted_pair_sym b a). unfold pair_add. rewrite Seen.
  match goal with
  | |- context [pair_in ?k ?l] =>
      assert (In' : pair_in k l = true) by (apply pair_in_iff; now left);
      rewrite In'
  end.
  reflexivity.
Qed.


Lemma process_sample_groups draws : forall ns st,
  (forall n, In n ns -> valid_draw (draws n)) ->
  well_formed (ls_self st) -> NoDup ns ->
  (forall n p, In n ns -> pair_in (n, p) (processed_pairs st) = false) ->
  exists st',
    process_groups st (map (sample_group draws) ns) = Some st'
    /\ well_formed (ls_self st')
    /\ output st' = (output st ++ flat_map (sample_lines draws) ns)%list
    /\ List.length (match_history (ls_self st'))
       = (List.length (match_history (ls_self st)) + List.length ns)%nat.
Proof.
  induction ns as [|n ns IH]; intros st Valid WF ND Fresh.
  - exists st. simpl. rewrite app_nil_r. auto.
  - apply NoDup_cons_iff in ND as [Hnot ND].
    pose proof (Valid n (or_introl eq_refl)) as Vn.
    destruct (sample_outcome n (draws n)) as [[[ca cb] ra] rb] eqn:O.
    destruct (sample_outcome_facts n (draws n) ca cb ra rb Vn O)
      as (Compl & _).
    destruct Vn as (_ & _ & Hne & _).
    destruct (process_mirror_group n (fst (draw_pair (draws n)))
                (snd (draw_pair (draws n))) ra rb ca cb
                (emit st (MatchHeader n)) WF Hne
                (Fresh n _ (or_introl eq_refl)) Compl)
      as (self' & new_ratings & _ & WF' & Len & Run).
    destruct (IH (mkLoop self'
                    ((n, sorted_pair (fst (draw_pair (draws n)))
                                     (snd (draw_pair (draws n))))
                     :: processed_pairs st)
                    (output (emit st (MatchHeader n))
                     ++ [RatingUpdate n (fst (draw_pair (draws n)))
                           (snd (draw_pair (draws n))) ca cb ra])))
      as (st' & E & WF'' & Out & Len').
    + intros m Hm. apply Valid. now right.
    + exact WF'.
    + exact ND.
    + intros m p Hm. simpl. unfold match_pair_eqb at 1. simpl.
      destruct (Z.eqb_spec m n) as [->|_]; [contradiction|]. simpl.
      apply (Fresh m p). now right.
    + exists st'. cbn [map process_groups]. unfold sample_group at 1.
      rewrite O. cbn [fst snd]. rewrite Run. cbn [bind].
      split; [exact E|]. split; [exact WF''|]. split.
      * rewrite Out. cbn [flat_map]. unfold sample_lines at 2. rewrite O.
        cbn [fst snd emit output]. now rewrite <- !app_assoc.
      * rewrite Len'. cbn [ls_self]. rewrite Len.
        cbn [emit ls_self List.length]. lia.
Qed.


(** X20.  The rating engine takes the sample data as it comes: for draws
    that the generator can get, [process_matches] on a well-formed object
    prints, for each of the seven played matches in turn, the header and one
    update line for the first player's row, and nothing else: no warning, and
    nothing for the blank rows of the matches that were not played.  Seven
    entries are added to the history. *)
Theorem sample_data_is_processed :
  forall (self : HyakuninisshuRating) (draws : Z -> match_draw),
    well_formed self ->
    (forall n, In n played_matches -> valid_draw (draws n)) ->
    exists self',
      process_matches self (create_sample_data draws)
      = Some (self', flat_map (sample_lines draws) played_matches)
      /\ well_formed self'
      /\ List.length (match_history self')
         = (List.length (match_history self) + 7)%nat.
Proof.
  intros self draws WF Valid.
  destruct (sample_frame_groups draws Valid) as [NotEmpty Groups].
  rewrite (process_matches_groups self _ _ Groups NotEmpty).
  destruct (process_sample_groups draws played_matches (mkLoop self [] []))
    as (st' & -> & WF' & Out & Len); auto.
  - unfold played_matches.
    repeat (constructor; [simpl; intuition discriminate|]). constructor.
  - exists (ls_self st'). cbn [bind]. rewrite Out. simpl output.
    cbn [app]. auto.
Qed.

Lemma sample_data_is_processed_witness :
  well_formed default_system
  /\ (forall n, In n played_matches -> valid_draw full_course_draw)
  /\ exists self',
       process_matches default_system
         (create_sample_data (fun _ => full_course_draw))
       = Some (self', flat_map (sample_lines (fun _ => full_course_draw))
                               played_matches)
       /\ well_formed self'
       /\ List.length (match_history self')
          = (List.length (match_history default_system) + 7)%nat.
Proof.
  split; [exact default_system_well_formed|].
  split; [intros n _; exact full_course_draw_valid|].
  exact (sample_data_is_processed default_system (fun _ => full_course_draw)
           default_system_well_formed
           (fun n _ => full_course_draw_valid)).
Defined.

(** ** Every object that the methods build is one the theorems speak of *)

Lemma store_extends_trans first second third :
  store_extends first second -> store_extends second third ->
  store_extends first third.
Proof.
  intros (I1 & K1 & W1 & (added1 & H1) & M1 & D1 & S1)
         (I2 & K2 & W2 & (added2 & H2) & M2 & D2 & S2).
  unfold store_extends. rewrite I2, K2, W2, H2, H1.
  repeat split; auto.
  exists (added1 ++ added2)%list. now rewrite app_assoc.
Qed.

(** Loading a checkpoint keeps the configuration and the history, removes
    no player and files players under distinct, trimmed names. *)
Lemma load_rows_extends rows : forall self,
  store_extends self (fst (load_rows self rows)).
Proof.
  induction rows as [|row rows IH]; intros self; simpl.
  - apply store_extends_refl.
  - destruct (ck_rating row) as [rating|]; [|apply store_extends_refl].
    destruct (ck_wins row) as [w|]; [|apply store_extends_refl].
    destruct (ck_losses row) as [l|]; [|apply store_extends_refl].
    eapply store_extends_trans; [|apply IH].
    unfold store_extends. simpl. repeat split; auto.
    + exists []. now rewrite app_nil_r.
    + intros p Hp. now apply DictFacts.mem_set_mono.
    + unfold keys_distinct. simpl. apply keys_set_nodup.
    + unfold names_stripped. simpl. apply keys_set_forall.
      apply strip_idempotent.
Qed.

(** ** The arithmetic in binary64 *)

Module Binary64Facts.

Import PrimFloat.









(** The two scenarios of the worked example come out the same in binary64:
    equal ratings of 1500, a win, 17 cards to 0 and 10 cards to 10. *)
Example shutout_win_in_binary64 :
  Binary64.rating_update 32 Binary64.default_card_weight 1500 1500 "勝" 17 0
  = Binary64.Returns ((1516, 1484), (16, -16))%float.
Proof. vm_compute. reflexivity. Qed.

Example equal_cards_win_in_binary64 :
  Binary64.rating_update 32 Binary64.default_card_weight 1500 1500 "勝" 10 10
  = Binary64.Returns ((1516, 1484), (16, -16))%float.
Proof. vm_compute. reflexivity. Qed.

End Binary64Facts.
